(** * rekordboxFLAC2MP3: the library transformation, embedded and verified

    The script reads a Rekordbox library export (an XML tree), gives every
    playlist a [_MP3] mirror, clones every FLAC track that sits in a playlist
    into an MP3 track record, routes the clone into the mirrors, and records
    the conversion jobs.  This file embeds the in-memory part of [main]
    (lines 83-202 of rekordboxFLAC2MP3.py) and the two path helpers, and
    proves the properties of the specification, and further properties of
    the code, against that embedding.

    Conventions of the embedding.
    - A Python [str] is a [string] (the UTF-8 bytes of the text).  All the
      string operations the script uses look for ASCII literals only, so they
      act on the bytes exactly as they act on the code points.
    - An [xml.etree.ElementTree.Element] is a tag, an attribute dictionary
      (a finite map: the order of the attributes is not kept) and the list of
      its children.  The script never reads or writes element text.
    - The script mutates the tree in place.  A node of the playlist section
      is identified by its position in the section, which never changes once
      the node exists; the section is threaded through the loops as a value.
    - A Python exception stops the run; the tree as it stands at that moment
      is kept in the result.
    - Left out: the platform test, the command line, the printing, the id
      lists of lines 92-102 (built and never read), the calls of ffmpeg and
      the writing of the tree. *)

From Stdlib Require Import ZArith String Ascii List DecimalString DecimalZ Lia.
From stdpp Require Import gmap strings list fin_maps.

Local Open Scope Z_scope.

(** ** Python string primitives *)

Module PyStr.

(** [s[n:]] for [0 <= n]. *)
Fixpoint drop (n : nat) (s : string) : string :=
  match n, s with
  | O, _ => s
  | S n', String _ s' => drop n' s'
  | S _, EmptyString => EmptyString
  end.

(** [s[:n]] for [0 <= n]. *)
Fixpoint take (n : nat) (s : string) : string :=
  match n, s with
  | O, _ => EmptyString
  | S n', String c s' => String c (take n' s')
  | S _, EmptyString => EmptyString
  end.

(** [s[i:j]] for [0 <= i]. *)
Definition slice (i j : Z) (s : string) : string :=
  take (Z.to_nat (j - i)) (drop (Z.to_nat i) s).

(** [s.replace(old, new)] for a non-empty [old], as CPython does it: scan
    from the left, and at each position where [old] starts emit [new] and
    jump over the occurrence.  [skip] counts the characters of an occurrence
    still to be jumped over.  ([s.startswith(p)] is [String.prefix p s].) *)
Fixpoint replace_go (old new : string) (skip : nat) (s : string) : string :=
  match s with
  | EmptyString => EmptyString
  | String c s' =>
      match skip with
      | S k => replace_go old new k s'
      | O =>
          if String.prefix old s
          then new +:+ replace_go old new (String.length old - 1) s'
          else String c (replace_go old new 0 s')
      end
  end.

Definition replace (old new s : string) : string := replace_go old new 0 s.

(** [s.endswith(suf)]: some tail of [s] is [suf]. *)
Fixpoint endswith (s suf : string) : bool :=
  if bool_decide (s = suf) then true
  else match s with
       | EmptyString => false
       | String _ s' => endswith s' suf
       end.

(** [s.rfind(c)] for a one-character [c]: the highest index, or -1. *)
Fixpoint rfind (c : ascii) (s : string) : Z :=
  match s with
  | EmptyString => -1
  | String a s' =>
      let r := rfind c s' in
      if 0 <=? r then r + 1
      else if bool_decide (a = c) then 0 else -1
  end.

(** [s.lower()], on the ASCII letters.  The script only compares the result
    with [".flac"]; no character outside ASCII lowercases to a character of
    that literal, so for that comparison the two agree. *)
Definition lower_ascii (c : ascii) : ascii :=
  let n := nat_of_ascii c in
  if (65 <=? n)%nat && (n <=? 90)%nat then ascii_of_nat (n + 32) else c.

Fixpoint lower (s : string) : string :=
  match s with
  | EmptyString => EmptyString
  | String c s' => String (lower_ascii c) (lower s')
  end.

(** Whether the character [c] occurs in [s]. *)
Fixpoint contains (c : ascii) (s : string) : bool :=
  match s with
  | EmptyString => false
  | String a s' => bool_decide (a = c) || contains c s'
  end.

(** [str(n)] for an [int]. *)
Definition str (z : Z) : string := NilZero.string_of_int (Z.to_int z).

(** [str(x)] where [x] is a string or [None], as in [str(e.get(k))]. *)
Definition str_opt (o : option string) : string := default "None" o.

(** A decimal reading of [int(s)]: an optional minus sign and digits.
    Python's [int] accepts more (blanks around the number, a plus sign,
    underscores); the development takes [int] as a parameter and uses this
    reading only to run the model on concrete documents. *)
Definition int_dec (s : string) : option Z :=
  option_map Z.of_int (NilZero.int_of_string s).

End PyStr.

(** ** os.path on Windows

    The script exits at once unless [sys.platform] is ["win32"], so
    [os.path] is [ntpath]. *)

Definition backslash : ascii := "092"%char.

(** The [while] loop of [genericpath._splitext]: whether every character of
    the file name before its last dot is a dot. *)
Fixpoint all_dots (s : string) : bool :=
  match s with
  | EmptyString => true
  | String c s' => if bool_decide (c = "."%char) then all_dots s' else false
  end.

(** [os.path.splitext(p)], that is [genericpath._splitext(p, '\\', '/', '.')]. *)
Definition splitext (p : string) : string * string :=
  let sepIndex := Z.max (PyStr.rfind backslash p) (PyStr.rfind "/" p) in
  let dotIndex := PyStr.rfind "." p in
  if (sepIndex <? dotIndex) && negb (all_dots (PyStr.slice (sepIndex + 1) dotIndex p))
  then (PyStr.take (Z.to_nat dotIndex) p, PyStr.drop (Z.to_nat dotIndex) p)
  else (p, EmptyString).

(** ** The path helpers of the script *)

Definition LOCALHOST_PREFIX : string := "file://localhost/".

Definition unescape_from_xml (input : string) : string :=
  PyStr.replace "%27" "'" (PyStr.replace "%26" "&" (PyStr.replace "%20" " " input)).

Definition escape_for_xml (input : string) : string :=
  PyStr.replace "," "%27" (PyStr.replace "&" "%26" (PyStr.replace " " "%20" input)).

(** What [escape_for_xml] does to one character, read off its three
    replacements. *)
Definition escape_char (c : ascii) : string :=
  if bool_decide (c = " "%char) then "%20"
  else if bool_decide (c = "&"%char) then "%26"
  else if bool_decide (c = ","%char) then "%27"
  else String c EmptyString.

(** Whether one of the three tokens that [unescape_from_xml] replaces starts
    at the front of [s]. *)
Definition token_ahead (s : string) : bool :=
  String.prefix "%20" s || String.prefix "%26" s || String.prefix "%27" s.

(** ** Results and exceptions *)

(** The exceptions that end a run of the script, and [Beyond], which is
    none of Python's: it ends a run of the embedding at a query text that
    the embedding does not read (see [ET.query]).  Of such a run the
    embedding says nothing: neither that the script raises nor what it goes
    on to do. *)
Inductive exn : Set :=
  IndexError | TypeError | AttributeError | ValueError | Beyond.

(** A run over a state either completes or raises; in both cases the state
    reached is kept (the tree is mutated in place, nothing is rolled back). *)
Inductive Res (St : Type) : Type :=
| Done (s : St)
| Raised (e : exn) (s : St).
Arguments Done {St} s.
Arguments Raised {St} e s.

(** A [for] loop whose body may raise. *)
Fixpoint for_each {A St : Type} (body : A → St → Res St) (l : list A) (s : St) : Res St :=
  match l with
  | [] => Done s
  | a :: l' =>
      match body a s with
      | Done s' => for_each body l' s'
      | Raised e s' => Raised e s'
      end
  end.

(** ** ElementTree *)

#[warning="-register-all"]
Inductive Element : Type :=
  mkElement { tag : string; attrib : gmap string string; children : list Element }.

Module ET.

(** [e.get(k)] *)
Definition get (e : Element) (k : string) : option string := attrib e !! k.

(** [e.set(k, v)] *)
Definition set (k v : string) (e : Element) : Element :=
  mkElement (tag e) (<[k := v]> (attrib e)) (children e).

(** [e.append(c)] *)
Definition append (c : Element) (e : Element) : Element :=
  mkElement (tag e) (attrib e) (children e ++ [c]).

(** A fresh element, as [SubElement] makes it before it is appended. *)
Definition new (t : string) : Element := mkElement t ∅ [].

(** The value [v] holds no apostrophe. *)
Definition literal_ok (v : string) : bool := negb (PyStr.contains "'" v).

(** [e.findall("*/[@k='v']")] for a value without apostrophe, given the
    children of [e]. *)
Definition findall (k v : string) (l : list Element) : list Element :=
  filter (λ c, get c k = Some v) l.

(** [e.find("*/[@k='v']")] for a value without apostrophe, given the
    children of [e], with the position of the element found: the position
    stands for the identity of the node. *)
Definition find (k v : string) (l : list Element) : option (nat * Element) :=
  list_find (λ c, get c k = Some v) l.

(** *** The query texts of the script

    The script pastes a name or an id between two apostrophes,
    ["*/[@" + k + "='" + v + "']"], and hands the text to ElementPath.
    ElementPath cuts it into tokens; what stands between two apostrophes is
    one token, whatever it holds.  There is no escape for an apostrophe, so
    one inside [v] ends the value and the rest of [v] is read as query
    syntax.  The embedding follows ElementPath on the texts
    ["*/[@k='v0'][@k1='v1']...[@kn='vn']"]: a chain of tests of an
    attribute against a value, the keys [k1], ..., [kn] made of letters,
    digits and underscores, the values free of apostrophes.  ElementPath
    reads each [[@ki='vi']] as the tokens [[], [@], [ki], [=], ['vi'], []],
    a predicate of signature [@-='], and selects the children that pass
    every test, in document order.  With no apostrophe in [v] the chain is
    the one test [[@k='v']].

    Every other text with an apostrophe in [v] is left unread: ElementPath
    may refuse it ([SyntaxError], [KeyError]), or read it as a query that
    selects nodes which are no children of the section (the section
    itself by [..], entries by a further step), which the state of the
    embedding could not even address.  [query] answers [None] for it and
    the run of the embedding ends with [Beyond]. *)

(** [s.split(c)]: the pieces of [s] between the occurrences of [c], the
    first apart. *)
Fixpoint split_on (c : ascii) (s : string) : string * list string :=
  match s with
  | EmptyString => (EmptyString, [])
  | String a s' =>
      let '(p, ps) := split_on c s' in
      if bool_decide (a = c) then (EmptyString, p :: ps) else (String a p, ps)
  end.

(** A character of a key: a letter, a digit or an underscore. *)
Definition key_char (c : ascii) : bool :=
  let n := nat_of_ascii c in
  ((48 <=? n) && (n <=? 57) || (65 <=? n) && (n <=? 90)
   || (97 <=? n) && (n <=? 122) || (n =? 95))%nat.

(** [s] is a key followed by [=] and nothing else: the key. *)
Fixpoint key_before_eq (s : string) : option string :=
  match s with
  | EmptyString => None
  | String c s' =>
      if bool_decide (c = "="%char)
      then (if bool_decide (s' = EmptyString) then Some EmptyString else None)
      else if key_char c then String c <$> key_before_eq s' else None
  end.

(** What stands between the value of one test and the value of the next,
    ["][@" + key + "="]: the key, which is not empty. *)
Definition test_key (between : string) : option string :=
  if String.prefix "][@" between
  then match key_before_eq (PyStr.drop 3 between) with
       | Some (String c key) => Some (String c key)
       | _ => None
       end
  else None.

(** The tests that follow the first, read off the pieces of [v] behind its
    first apostrophe: by turns what stands between two values, and a value. *)
Fixpoint more_tests (pieces : list string) : option (list (string * string)) :=
  match pieces with
  | [] => Some []
  | between :: v :: rest =>
      match test_key between, more_tests rest with
      | Some key, Some tests => Some ((key, v) :: tests)
      | _, _ => None
      end
  | [_] => None
  end.

(** The tests of the text ["*/[@" + k + "='" + v + "']"], or [None] where
    the embedding does not read the text. *)
Definition query (k v : string) : option (list (string * string)) :=
  let '(v0, pieces) := split_on "'" v in
  match more_tests pieces with
  | Some tests => Some ((k, v0) :: tests)
  | None => None
  end.

(** The element passes every test. *)
Definition passes (tests : list (string * string)) (c : Element) : Prop :=
  Forall (λ t, get c t.1 = Some t.2) tests.
Global Instance passes_dec tests c : Decision (passes tests c).
Proof. unfold passes. apply _. Defined.

(** [e.findall(text)] for a text with the tests [tests], given the children
    of [e]. *)
Definition select (tests : list (string * string)) (l : list Element) : list Element :=
  filter (passes tests) l.

(** [e.find(text)] likewise, with the position of the element found. *)
Definition first (tests : list (string * string)) (l : list Element)
    : option (nat * Element) :=
  list_find (passes tests) l.

End ET.

(** ** The mirror-playlist pass of [main] (lines 89-127)

    The state is the list of children of [playlists = root[2][0]]. *)

(** [origPlaylistNames]: the [Name] of every node, read before any node is
    added ([None] where the attribute is missing). *)
Definition playlist_names (pls : list Element) : list (option string) :=
  (λ node, ET.get node "Name") <$> pls.

(** The node that [SubElement] appends for the mirror of [origPL]. *)
Definition mirror_node (mp3name : string) (origPL : Element) : Element :=
  ET.set "Type" (PyStr.str_opt (ET.get origPL "Type"))
    (ET.set "Key" (PyStr.str_opt (ET.get origPL "Key"))
      (ET.set "Entries" (PyStr.str_opt (ET.get origPL "Entries"))
        (ET.set "Name" mp3name (ET.new "NODE")))).

(** One turn of [for pname in origPlaylistNames]. *)
Definition mirror_step (origPlaylistNames : list (option string))
    (pname : option string) (pls : list Element) : Res (list Element) :=
  match pname with
  | None => Raised AttributeError pls            (* None.endswith *)
  | Some pname =>
      if PyStr.endswith pname "_MP3" then Done pls
      else
        let mp3name := pname +:+ "_MP3" in
        if bool_decide (Some mp3name ∈ origPlaylistNames) then Done pls
        else
          match ET.query "Name" pname with
          | None => Raised Beyond pls
          | Some tests =>
              match ET.first tests pls with
              | Some (_, origPL) => Done (pls ++ [mirror_node mp3name origPL])
              | None =>
                  (* the node is appended and named before [origPL.get] raises *)
                  Raised AttributeError (pls ++ [ET.set "Name" mp3name (ET.new "NODE")])
              end
          end
  end.

Definition build_mirrors (pls : list Element) : Res (list Element) :=
  let origPlaylistNames := playlist_names pls in
  for_each (mirror_step origPlaylistNames) origPlaylistNames pls.

(** ** The track pass of [main] (lines 129-202) *)

(** The loop variables and the two parts of the tree the loop works on:
    [playlists] holds the children of [root[2][0]] (the nodes that [pNodes]
    lists, by position), [collection] the children of [root[1]]. *)
Record State : Type := mkState {
  playlists : list Element;
  collection : list Element;
  flacToMp3 : list (string * string);
  currId : Z
}.

(** [d[k] = v] on a dictionary kept in insertion order. *)
Fixpoint dict_set (k v : string) (d : list (string * string)) : list (string * string) :=
  match d with
  | [] => [(k, v)]
  | (k', v') :: d' => if bool_decide (k' = k) then (k, v) :: d' else (k', v') :: dict_set k v d'
  end.

(** Line 146: the extension test on the raw location. *)
Definition is_flac (rawPath : string) : bool :=
  bool_decide (PyStr.lower (splitext rawPath).2 = ".flac").

(** Lines 150-153: the path on disk. *)
Definition flac_path (rawPath : string) : string :=
  let flacPath := unescape_from_xml rawPath in
  if String.prefix LOCALHOST_PREFIX flacPath
  then PyStr.drop (String.length LOCALHOST_PREFIX) flacPath
  else flacPath.

(** Line 186. *)
Definition mp3_path (flacPath : string) : string := (splitext flacPath).1 +:+ ".mp3".

(** Lines 178-179: the entry appended to a mirror. *)
Definition new_entry (currId : Z) : Element :=
  ET.set "Key" (PyStr.str currId) (ET.new "TRACK").

(** Lines 192-196: the deep copy of [track] and its four [set] calls. *)
Definition clone_track (track : Element) (currId : Z) (mp3Path : string) : Element :=
  ET.set "BitRate" "320"
    (ET.set "Kind" "MP3 File"
      (ET.set "Location" (LOCALHOST_PREFIX +:+ escape_for_xml mp3Path)
        (ET.set "TrackID" (PyStr.str currId) track))).

(** One turn of [for pl in pNodes] (lines 164-179), for the node at position
    [i].  The node is read from the section as it stands now: [pNodes] holds
    the nodes themselves, not copies, so entries appended to a mirror by an
    earlier turn are seen when the loop reaches that mirror.  The state is
    the section and [inPlaylist]. *)
Definition route_step (origId : option string) (currId : Z) (i : nat)
    (st : list Element * bool) : Res (list Element * bool) :=
  match st.1 !! i with
  | None => Done st
  | Some pl =>
      match origId with
      | None => Raised TypeError st              (* str + None *)
      | Some origId =>
          match ET.query "Key" origId with
          | None => Raised Beyond st
          | Some keys =>
              match ET.select keys (children pl) with
              | [] => Done st
              | _ :: _ =>
                  match ET.get pl "Name" with
                  | None => Raised TypeError (st.1, true)      (* None + str *)
                  | Some pname =>
                      let mp3listName := pname +:+ "_MP3" in
                      match ET.query "Name" mp3listName with
                      | None => Raised Beyond (st.1, true)
                      | Some tests =>
                          match ET.first tests st.1 with
                          | None => Raised TypeError (st.1, true)   (* SubElement(None, _) *)
                          | Some (j, _) =>
                              Done (alter (ET.append (new_entry currId)) j st.1, true)
                          end
                      end
                  end
              end
          end
      end
  end.

(** Lines 161-179: [inPlaylist = False] and the loop over [pNodes]. *)
Definition route (origId : option string) (currId : Z) (pls : list Element)
    : Res (list Element * bool) :=
  for_each (route_step origId currId) (seq 0 (length pls)) (pls, false).

Section Run.

(** The two things the pass asks of the outside: [int(_)] for the [Entries]
    attribute ([None] for a [ValueError]) and [os.path.isfile]. *)
Variable py_int : string → option Z.
Variable isfile : string → bool.

(** The body of [for track in collection] (lines 143-200). *)
Definition track_step (track : Element) (st : State) : Res State :=
  match ET.get track "Location" with
  | None => Raised TypeError st                  (* splitext(None) *)
  | Some rawPath =>
      if negb (is_flac rawPath) then Done st
      else
        let flacPath := flac_path rawPath in
        if negb (isfile flacPath) then Done st
        else
          match route (ET.get track "TrackID") (currId st) (playlists st) with
          | Raised e (pls, _) =>
              Raised e (mkState pls (collection st) (flacToMp3 st) (currId st))
          | Done (pls, false) =>
              Done (mkState pls (collection st) (flacToMp3 st) (currId st))
          | Done (pls, true) =>
              let mp3Path := mp3_path flacPath in
              Done (mkState pls
                      (collection st ++ [clone_track track (currId st) mp3Path])
                      (dict_set flacPath mp3Path (flacToMp3 st))
                      (currId st + 1))
          end
  end.

(** [for track in collection]: an [Element] is iterated by position
    ([collection[0]], [collection[1]], ... until [IndexError]), so the tracks
    that the body appends are reached by the same loop.  [i] is the position
    of the next track; [fuel] bounds the number of turns. *)
Fixpoint track_loop (fuel : nat) (i : nat) (st : State) : option (Res State) :=
  match fuel with
  | O => None
  | S fuel' =>
      match collection st !! i with
      | None => Some (Done st)
      | Some track =>
          match track_step track st with
          | Done st' => track_loop fuel' (S i) st'
          | Raised e st' => Some (Raised e st')
          end
      end
  end.

(** ** [main], from the parsed tree to the tree that is written *)

(** [root[2][0]] and [root[1]]; [None] stands for the [IndexError]. *)
Definition root_playlists (root : Element) : option Element :=
  children root !! 2%nat ≫= λ sec, children sec !! 0%nat.

Definition root_collection (root : Element) : option Element :=
  children root !! 1%nat.

(** The tree with the children of [root[2][0]] replaced by [pls]. *)
Definition with_playlists (pls : list Element) (root : Element) : Element :=
  let in_node node := mkElement (tag node) (attrib node) pls in
  let in_section sec := mkElement (tag sec) (attrib sec) (alter in_node 0%nat (children sec)) in
  mkElement (tag root) (attrib root) (alter in_section 2%nat (children root)).

(** The tree with [root[1]] replaced by [coll]. *)
Definition with_collection (coll : Element) (root : Element) : Element :=
  mkElement (tag root) (attrib root) (<[1%nat := coll]> (children root)).

(** The tree that holds the state [st] of the track pass. *)
Definition with_state (st : State) (coll : Element) (root : Element) : Element :=
  with_collection (mkElement (tag coll) (attrib coll) (collection st))
    (with_playlists (playlists st) root).

(** Lines 86-202.  The result is the tree together with the job list
    [flacToMp3]. *)
Definition main (fuel : nat) (root : Element)
    : option (Res (Element * list (string * string))) :=
  match root_playlists root with
  | None => Some (Raised IndexError (root, []))            (* root[2][0] *)
  | Some playlists =>
      match build_mirrors (children playlists) with
      | Raised e pls => Some (Raised e (with_playlists pls root, []))
      | Done pls =>
          let root1 := with_playlists pls root in
          match root_collection root1 with
          | None => Some (Raised IndexError (root1, []))   (* root[1] *)
          | Some coll =>
              match ET.get coll "Entries" with
              | None => Some (Raised TypeError (root1, []))     (* int(None) *)
              | Some entries =>
                  match py_int entries with
                  | None => Some (Raised ValueError (root1, []))
                  | Some n =>
                      match track_loop fuel 0 (mkState pls (children coll) [] (n + 1)) with
                      | None => None
                      | Some (Raised e st) =>
                          Some (Raised e (with_state st coll root, flacToMp3 st))
                      | Some (Done st) =>
                          Some (Done (with_state st
                                        (ET.set "Entries" (PyStr.str (currId st - 1)) coll)
                                        root,
                                      flacToMp3 st))
                      end
                  end
              end
          end
      end
  end.

End Run.

(** ** A small library to run the model on *)

Definition attrs (l : list (string * string)) : gmap string string := list_to_map l.

Definition track (id loc : string) : Element :=
  mkElement "TRACK" (attrs [("TrackID", id); ("Name", "tune"); ("Location", loc);
                            ("Kind", "FLAC File"); ("BitRate", "1411")]) [].

Definition entry (key : string) : Element := mkElement "TRACK" (attrs [("Key", key)]) [].

Definition playlist (name : string) (keys : list string) : Element :=
  mkElement "NODE" (attrs [("Name", name); ("Type", "1"); ("KeyType", "0");
                           ("Entries", PyStr.str (Z.of_nat (length keys)))])
    (entry <$> keys).

Definition collection_node (entries : string) (tracks : list Element) : Element :=
  mkElement "COLLECTION" (attrs [("Entries", entries)]) tracks.

Definition root_node (pls : list Element) : Element :=
  mkElement "NODE" (attrs [("Type", "0"); ("Name", "ROOT")]) pls.

Definition library (entries : string) (tracks pls : list Element) : Element :=
  mkElement "DJ_PLAYLISTS" (attrs [("Version", "1.0.0")])
    [ mkElement "PRODUCT" (attrs [("Name", "rekordbox")]) [];
      collection_node entries tracks;
      mkElement "PLAYLISTS" ∅ [ root_node pls ] ].

Definition disk_all (p : string) : bool := true.
Definition disk_none (p : string) : bool := false.

(** The scenario of the specification: one playlist, one FLAC track. *)
Definition house_flac : string := "file://localhost/C:/Music/Deep%20House/one.flac".
Definition house_track : Element := track "1" house_flac.
Definition house_playlist : Element := playlist "House" ["1"].
Definition house : Element := library "1" [house_track] [house_playlist].

(** What the run is expected to make of it. *)
Definition house_clone : Element :=
  mkElement "TRACK"
    (attrs [("TrackID", "2"); ("Name", "tune");
            ("Location", "file://localhost/C:/Music/Deep%20House/one.mp3");
            ("Kind", "MP3 File"); ("BitRate", "320")]) [].

Definition house_mirror (keys : list string) : Element :=
  mkElement "NODE"
    (attrs [("Name", "House_MP3"); ("Entries", "1"); ("Key", "None"); ("Type", "1")])
    (entry <$> keys).

Definition house_job : string * string :=
  ("C:/Music/Deep House/one.flac", "C:/Music/Deep House/one.mp3").

Definition house_out : Element :=
  library "2" [house_track; house_clone] [house_playlist; house_mirror ["2"]].

(** The state of the track pass before and after its only conversion. *)
Definition house_state : State :=
  mkState [house_playlist; house_mirror []] [house_track] [] 2.

Definition house_state_out : State :=
  mkState [house_playlist; house_mirror ["2"]] [house_track; house_clone] [house_job] 3.

(** A section with a playlist that has its mirror already. *)
Definition three_playlists : list Element :=
  [house_playlist; playlist "Techno" []; playlist "Techno_MP3" []].

(** A library whose only playlists are named as mirrors. *)
Definition mirror_only : Element :=
  library "1" [house_track] [playlist "A_MP3" ["1"]; playlist "A_MP3_MP3" []].

Definition mirror_only_out : Element :=
  library "2" [house_track; house_clone]
    [playlist "A_MP3" ["1"]; ET.append (entry "2") (playlist "A_MP3_MP3" [])].

(** ** Vocabulary of the statements *)

(** The node is called [m]. *)
Definition named (m : string) (e : Element) : Prop := ET.get e "Name" = Some m.
Global Instance named_dec m e : Decision (named m e).
Proof. unfold named. apply _. Defined.

(** The name of the mirror that the pass creates for a playlist name, if it
    creates one: the name is not itself a mirror name and its mirror is not
    among the names the section had at the start. *)
Definition needs_mirror (orig : list (option string)) (pname : option string) : option string :=
  match pname with
  | Some p =>
      if PyStr.endswith p "_MP3" then None
      else if bool_decide (Some (p +:+ "_MP3") ∈ orig) then None
      else Some (p +:+ "_MP3")
  | None => None
  end.

(** The playlist holds an entry for the track id [k]: the test
    [if not result] of line 168. *)
Definition has_key (k : string) (pl : Element) : bool :=
  match ET.findall "Key" k (children pl) with
  | [] => false
  | _ :: _ => true
  end.

(** The position of the mirror of [pl] in the section: the first node called
    as [pl] with the suffix added. *)
Definition mirror_index (pls : list Element) (pl : Element) : option nat :=
  ET.get pl "Name" ≫= λ pname, fst <$> ET.find "Name" (pname +:+ "_MP3") pls.

(** Appending one entry for the new id [c] to the node at position [j]. *)
Definition add_entry (c : Z) (j : nat) (pls : list Element) : list Element :=
  alter (ET.append (new_entry c)) j pls.

(** The playlists of [pls] that hold the track id [k], in section order. *)
Definition sources (k : string) (pls : list Element) : list Element :=
  filter (λ pl, has_key k pl = true) pls.

(** The routing of one converted track as the specification words it: for
    every playlist that holds the track id, in the order they are found,
    locate its mirror by name and append an entry for the new id to it.
    [base] is the section the membership is read from, [cur] the section the
    entries are appended to. *)
Definition route_spec (k : string) (c : Z) (base cur : list Element) : list Element :=
  foldl (λ acc j, add_entry c j acc) cur (omap (mirror_index base) (sources k base)).

(** [M] is the node [M0] with entries for ids from [c0] on appended. *)
Definition grown (c0 : Z) (M0 M : Element) : Prop :=
  tag M = tag M0 ∧ attrib M = attrib M0
  ∧ ∃ extra, children M = children M0 ++ extra
             ∧ Forall (λ e, ∃ j, c0 ≤ j ∧ e = new_entry j) extra.

(** The track id [k] is not the text of an id from [c0] on. *)
Definition fresh_from (c0 : Z) (k : string) : Prop := ∀ j, c0 ≤ j → k ≠ PyStr.str j.

(** Some playlist of [pls] holds an entry for the track id. *)
Definition referenced (origId : option string) (pls : list Element) : bool :=
  match origId with
  | Some k => existsb (has_key k) pls
  | None => false
  end.

(** The track is converted: its location ends in [.flac] (whatever the
    case), the file is on disk, and some playlist of [pls] holds its id. *)
Definition eligible (isfile : string → bool) (pls : list Element) (track : Element) : bool :=
  match ET.get track "Location" with
  | Some rawPath =>
      is_flac rawPath && isfile (flac_path rawPath)
      && referenced (ET.get track "TrackID") pls
  | None => false
  end.

(** The path on disk of a track that has a location. *)
Definition source_path (track : Element) : string :=
  flac_path (default EmptyString (ET.get track "Location")).

(** The id of a track that has one. *)
Definition track_id (track : Element) : string :=
  default EmptyString (ET.get track "TrackID").

(** The record appended for [track] when it is converted under the id [c]. *)
Definition clone_of (track : Element) (c : Z) : Element :=
  clone_track track c (mp3_path (source_path track)).

(** The records appended for the tracks [l], numbered from [c] on. *)
Fixpoint clones (c : Z) (l : list Element) : list Element :=
  match l with
  | [] => []
  | t :: l' => clone_of t c :: clones (c + 1) l'
  end.

(** The job recorded for [track]. *)
Definition add_job (d : list (string * string)) (track : Element) : list (string * string) :=
  dict_set (source_path track) (mp3_path (source_path track)) d.

(** The section after the tracks [l], numbered from [c] on, were routed. *)
Fixpoint routed (base : list Element) (c : Z) (l : list Element) (cur : list Element)
    : list Element :=
  match l with
  | [] => cur
  | t :: l' => routed base (c + 1) l' (route_spec (track_id t) c base cur)
  end.

(** No track of [l] carries an id that the pass may hand out. *)
Definition fresh_ids (c0 : Z) (l : list Element) : Prop :=
  ∀ t k, t ∈ l → ET.get t "TrackID" = Some k → fresh_from c0 k.

(** The record has the location of a clone: the prefix and an escaped path
    that ends in [.mp3]. *)
Definition is_copy (e : Element) : Prop :=
  ∃ x, ET.get e "Location" = Some (LOCALHOST_PREFIX +:+ escape_for_xml (mp3_path x)).

(** The id of a track as a number. *)
Definition int_id (py_int : string → option Z) (track : Element) : option Z :=
  ET.get track "TrackID" ≫= py_int.

(** The data model's reading of a collection: the ids of its tracks are
    pairwise distinct numbers from 1 up to the number of tracks (so every
    number in that range is taken), and [Entries] is that number. *)
Definition dense_ids (py_int : string → option Z) (coll : Element) : Prop :=
  NoDup (int_id py_int <$> children coll)
  ∧ (∀ t, t ∈ children coll →
       ∃ m, int_id py_int t = Some m ∧ 1 ≤ m ≤ Z.of_nat (length (children coll)))
  ∧ ET.get coll "Entries" ≫= py_int = Some (Z.of_nat (length (children coll))).

(** The node is named as a mirror. *)
Definition is_mirror (pl : Element) : bool :=
  match ET.get pl "Name" with
  | Some pname => PyStr.endswith pname "_MP3"
  | None => false
  end.

(** The condition for a conversion as the specification words it: the
    format, the file on disk, and a playlist that is not a mirror holding
    the id.  The code's own condition is [eligible]. *)
Definition eligible_as_specified (isfile : string → bool) (pls : list Element)
    (track : Element) : bool :=
  match ET.get track "Location" with
  | Some rawPath =>
      is_flac rawPath && isfile (flac_path rawPath)
      && match ET.get track "TrackID" with
         | Some k => existsb (λ pl, has_key k pl && negb (is_mirror pl)) pls
         | None => false
         end
  | None => false
  end.

(** No playlist named as a mirror holds the id of a track of [tracks]. *)
Definition mirrors_hold_no_source (pls tracks : list Element) : Prop :=
  ∀ pl t k, pl ∈ pls → t ∈ tracks → ET.get t "TrackID" = Some k →
            has_key k pl = true → is_mirror pl = false.

(** No id of a track of [tracks] holds an apostrophe. *)
Definition literal_ids (tracks : list Element) : Prop :=
  ∀ t k, t ∈ tracks → ET.get t "TrackID" = Some k → ET.literal_ok k = true.

(** No name of a node of [pls] holds an apostrophe. *)
Definition literal_names (pls : list Element) : Prop :=
  ∀ pl p, pl ∈ pls → ET.get pl "Name" = Some p → ET.literal_ok p = true.

(** ** The output path of [main] (lines 83-84) *)

(** [args.output] when the option is left out or empty ([if not
    args.output]): the input path without its extension, with [_new.xml]
    added. *)
Definition default_output (input : string) : string :=
  (splitext input).1 +:+ "_new.xml".

Definition output_path (output : option string) (input : string) : string :=
  match output with
  | None => default_output input
  | Some o => if bool_decide (o = EmptyString) then default_output input else o
  end.

(** ** Vocabulary of the further properties *)

(** The state a run ends in, whether it completes or raises. *)
Definition res_state {St : Type} (r : Res St) : St :=
  match r with
  | Done s => s
  | Raised _ s => s
  end.

(** A job as the track pass records it: the source is the path on disk of a
    location with the extension [.flac], the file is there, and the target
    is the MP3 path of the source. *)
Definition job_ok (isfile : string → bool) (job : string * string) : Prop :=
  (∃ raw, is_flac raw = true ∧ job.1 = flac_path raw)
  ∧ isfile job.1 = true ∧ job.2 = mp3_path job.1.

Definition jobs_ok (isfile : string → bool) (d : list (string * string)) : Prop :=
  NoDup d.*1 ∧ Forall (job_ok isfile) d.

(** [M] is the node [M0] with entries for ids [j], [lo ≤ j < hi], appended. *)
Definition extended (lo hi : Z) (M0 M : Element) : Prop :=
  tag M = tag M0 ∧ attrib M = attrib M0
  ∧ ∃ extra, children M = children M0 ++ extra
             ∧ Forall (λ e, ∃ j, lo ≤ j < hi ∧ e = new_entry j) extra.

(** Some node of [cur] has gained an entry for the id [j] since [base]. *)
Definition gained (base : list Element) (j : Z) (cur : list Element) : Prop :=
  ∃ i M0 M pre post,
    base !! i = Some M0 ∧ cur !! i = Some M
    ∧ children M = children M0 ++ pre ++ new_entry j :: post.

(** The state of the loop over [pNodes] is sound for the section [cur0] it
    started on: nothing has changed as long as [inPlaylist] is false. *)
Definition route_inv (c : Z) (cur0 : list Element) (st : list Element * bool) : Prop :=
  if st.2 then Forall2 (extended c (c + 1)) cur0 st.1 ∧ gained cur0 c st.1
  else st.1 = cur0.

(** The state of the track pass is sound for the state [st0] it started on. *)
Definition pass_inv (st0 st : State) : Prop :=
  currId st0 ≤ currId st
  ∧ Forall2 (extended (currId st0) (currId st)) (playlists st0) (playlists st)
  ∧ ∀ j, currId st0 ≤ j < currId st → gained (playlists st0) j (playlists st).

(** The node [M] is the node [M0] with its tag, its attributes and its
    entries, in their order, possibly followed by more. *)
Definition kept (M0 M : Element) : Prop :=
  tag M = tag M0 ∧ attrib M = attrib M0 ∧ children M0 `prefix_of` children M.

(** The entries of [M] behind those of [M0]. *)
Definition added_entries (M0 M : Element) : list Element :=
  drop (length (children M0)) (children M).

(** The playlist entry that refers to the track [t]. *)
Definition entry_for (t : Element) : Element :=
  ET.set "Key" (track_id t) (ET.new "TRACK").

(** The location that the clone of a track converted to [dst] carries. *)
Definition location_of (dst : string) : string := LOCALHOST_PREFIX +:+ escape_for_xml dst.

(** The jobs [d] and the tracks [new] appended for them, in a pass over the
    tracks [l]: every source is the path of a track of [l], every new track
    points at the target of a job, and every target is pointed at. *)
Definition jobs_match (l : list Element) (d : list (string * string)) (new : list Element)
    : Prop :=
  (∀ src dst, (src, dst) ∈ d →
     (∃ t0, t0 ∈ l ∧ is_Some (ET.get t0 "Location") ∧ source_path t0 = src)
     ∧ ∃ t, t ∈ new ∧ ET.get t "Location" = Some (location_of dst))
  ∧ ∀ t, t ∈ new → ∃ src dst, (src, dst) ∈ d ∧ ET.get t "Location" = Some (location_of dst).

(** The node is a mirror as the pass creates it for a name of the section
    [pls]: made from the first node of that name. *)
Definition created (pls : list Element) (M : Element) : Prop :=
  ∃ p j o, ET.find "Name" p pls = Some (j, o) ∧ M = mirror_node (p +:+ "_MP3") o.

(** Whether the file name of [p], the part behind its last separator, holds
    a character other than a dot; [acc] tells whether one was seen since
    the last separator. *)
Fixpoint named_file (acc : bool) (p : string) : bool :=
  match p with
  | EmptyString => acc
  | String c p' =>
      if bool_decide (c = "/"%char) || bool_decide (c = backslash) then named_file false p'
      else if bool_decide (c = "."%char) then named_file acc p'
      else named_file true p'
  end.

(** The node [M] is the node [M0] itself unless [M0] is named as a mirror. *)
Definition untouched (M0 M : Element) : Prop := is_mirror M0 = false → M = M0.

(** None of the three tokens that [unescape_from_xml] replaces occurs in
    [s]. *)
Fixpoint tokens_free (s : string) : bool :=
  negb (token_ahead s)
  && match s with
     | EmptyString => true
     | String _ s' => tokens_free s'
     end.

(** ** More libraries to run the model on *)

(** What a second run makes of [house_out]: a further clone of the track. *)
Definition house_clone_again : Element :=
  mkElement "TRACK"
    (attrs [("TrackID", "3"); ("Name", "tune");
            ("Location", "file://localhost/C:/Music/Deep%20House/one.mp3");
            ("Kind", "MP3 File"); ("BitRate", "320")]) [].

Definition house_out_again : Element :=
  library "3" [house_track; house_clone; house_clone_again]
    [house_playlist; house_mirror ["2"; "3"]].

(** A library whose count is behind its ids: two tracks, [Entries] 1. *)
Definition other_track : Element := track "2" "file://localhost/C:/Music/two.mp3".
Definition clash : Element := library "1" [house_track; other_track] [house_playlist].
Definition clash_out : Element :=
  library "2" [house_track; other_track; house_clone] [house_playlist; house_mirror ["2"]].

(** A mirror as the pass creates it, with the entries it has received. *)
Definition mirror (name entries : string) (keys : list string) : Element :=
  mkElement "NODE"
    (attrs [("Name", name); ("Entries", entries); ("Key", "None"); ("Type", "1")])
    (entry <$> keys).

(** A library with a playlist whose name holds apostrophes: pasted into the
    text of line 176 with [_MP3] behind it, the name of the second playlist
    reads as [*/[@Name='X_MP3'][@Name='X_MP3']].  The third playlist is the
    mirror of the second by name. *)
Definition borrowed_name : string := "X_MP3'][@Name='X".

Definition borrowed : Element :=
  library "1" [house_track]
    [playlist "X" []; playlist borrowed_name ["1"]; playlist (borrowed_name +:+ "_MP3") []].

Definition borrowed_out : Element :=
  library "2" [house_track; house_clone]
    [playlist "X" []; playlist borrowed_name ["1"]; playlist (borrowed_name +:+ "_MP3") [];
     mirror "X_MP3" "0" ["2"]].

(** A library with a playlist whose name reads, in the text of line 119, as
    [*/[@Name='House'][@Type='1']] and, in the text of line 176, as
    [*/[@Name='House'][@Type='1_MP3']]. *)
Definition split_name : string := "House'][@Type='1".

Definition split : Element :=
  library "1" [house_track] [playlist "House" []; playlist split_name ["1"]].

Definition split_mirrored : list Element :=
  [playlist "House" []; playlist split_name ["1"];
   mirror "House_MP3" "0" []; mirror (split_name +:+ "_MP3") "0" []].

(** * Facts *)

(** ** The primitives against Python's answers *)

Example replace_leftmost : PyStr.replace "%20" " " "a%20b%2%200" = "a b%2 0".
Proof. reflexivity. Qed.

Example unescape_chain : unescape_from_xml "a%20b%2%200%26%27" = "a b%2 0&'".
Proof. reflexivity. Qed.

Example endswith_suffix :
  PyStr.endswith "House_MP3" "_MP3" = true ∧ PyStr.endswith "MP3" "_MP3" = false.
Proof. done. Qed.

Example str_of_int : PyStr.str 12 = "12" ∧ PyStr.str 0 = "0" ∧ PyStr.str (-4) = "-4".
Proof. done. Qed.

Example splitext_upper :
  splitext "file://localhost/C:/a b/x.FLAC" = ("file://localhost/C:/a b/x", ".FLAC").
Proof. reflexivity. Qed.

Example splitext_last_dot : splitext "a/b.c.flac" = ("a/b.c", ".flac").
Proof. reflexivity. Qed.

Example splitext_leading_dots :
  splitext "a/.flac" = ("a/.flac", EmptyString)
  ∧ splitext "a/..flac" = ("a/..flac", EmptyString).
Proof. done. Qed.

Example splitext_dot_in_folder :
  splitext "a.b/c" = ("a.b/c", EmptyString)
  ∧ splitext "C:\d.e\f" = ("C:\d.e\f", EmptyString).
Proof. done. Qed.

Example is_flac_any_case : is_flac "x.FlAc" = true ∧ is_flac "x.mp3" = false.
Proof. done. Qed.

(** ** Strings *)

Lemma str_app_cons c s t : String c s +:+ t = String c (s +:+ t).
Proof. reflexivity. Qed.

Lemma str_app_nil_r s : s +:+ EmptyString = s.
Proof. induction s as [|c s IH]; [done|]. by rewrite str_app_cons, IH. Qed.

Lemma str_app_assoc s t u : (s +:+ t) +:+ u = s +:+ (t +:+ u).
Proof. induction s as [|c s IH]; [done|]. by rewrite !str_app_cons, IH. Qed.

Lemma str_length_app s t :
  String.length (s +:+ t) = (String.length s + String.length t)%nat.
Proof. induction s as [|c s IH]; [done|]. rewrite str_app_cons. simpl. by rewrite IH. Qed.

Lemma str_prefix_cons a p b s :
  String.prefix (String a p) (String b s)
  = if decide (a = b) then String.prefix p s else false.
Proof. simpl. destruct (ascii_dec a b); case_decide; done. Qed.

Lemma str_prefix_nil s : String.prefix EmptyString s = true.
Proof. by destruct s. Qed.

Lemma str_prefix_app p r : String.prefix p (p +:+ r) = true.
Proof.
  induction p as [|a p IH]; [apply str_prefix_nil|].
  rewrite str_app_cons, str_prefix_cons. by rewrite decide_True.
Qed.

Lemma str_prefix_inv p s : String.prefix p s = true → ∃ r, s = p +:+ r.
Proof.
  revert s. induction p as [|a p IH]; intros s H; [by exists s|].
  destruct s as [|b s]; [done|]. rewrite str_prefix_cons in H.
  case_decide; [|done]. subst b. destruct (IH s H) as [r ->]. by exists r.
Qed.

Lemma str_drop_app s t : PyStr.drop (String.length s) (s +:+ t) = t.
Proof. induction s as [|c s IH]; [by destruct t|done]. Qed.

Lemma str_take_app s t : PyStr.take (String.length s) (s +:+ t) = s.
Proof. induction s as [|c s IH]; [by destruct t|]. rewrite str_app_cons. simpl. by rewrite IH. Qed.

(** replace *)
Lemma replace_go_skip old new k s :
  PyStr.replace_go old new k s = PyStr.replace old new (PyStr.drop k s).
Proof.
  revert k. induction s as [|c s IH]; intros [|k]; try done.
  simpl. apply IH.
Qed.

Lemma replace_nil old new : PyStr.replace old new EmptyString = EmptyString.
Proof. done. Qed.

Lemma replace_hit old new r :
  old ≠ EmptyString →
  PyStr.replace old new (old +:+ r) = new +:+ PyStr.replace old new r.
Proof.
  intros Hne. destruct old as [|a old]; [done|].
  unfold PyStr.replace at 1. rewrite str_app_cons. cbn [PyStr.replace_go].
  rewrite <- str_app_cons, str_prefix_app. f_equal.
  rewrite replace_go_skip. f_equal.
  replace (String.length (String a old) - 1)%nat with (String.length old)
    by (cbn [String.length]; lia).
  apply str_drop_app.
Qed.

Lemma replace_miss old new c s :
  String.prefix old (String c s) = false →
  PyStr.replace old new (String c s) = String c (PyStr.replace old new s).
Proof. intros H. unfold PyStr.replace. cbn [PyStr.replace_go]. by rewrite H. Qed.

(** single characters *)
Lemma replace_char a new c s :
  PyStr.replace (String a EmptyString) new (String c s)
  = (if decide (a = c) then new else String c EmptyString)
      +:+ PyStr.replace (String a EmptyString) new s.
Proof.
  unfold PyStr.replace. cbn [PyStr.replace_go]. rewrite str_prefix_cons, str_prefix_nil.
  case_decide; done.
Qed.

Lemma escape_nil : escape_for_xml EmptyString = EmptyString.
Proof. done. Qed.

Lemma replace_app_char a new s t :
  PyStr.replace (String a EmptyString) new (s +:+ t)
  = PyStr.replace (String a EmptyString) new s +:+ PyStr.replace (String a EmptyString) new t.
Proof.
  induction s as [|c s IH]; [done|].
  rewrite str_app_cons, !replace_char, IH. by rewrite str_app_assoc.
Qed.

Lemma escape_app s t : escape_for_xml (s +:+ t) = escape_for_xml s +:+ escape_for_xml t.
Proof. unfold escape_for_xml. by rewrite !replace_app_char. Qed.

Lemma escape_cons c r : escape_for_xml (String c r) = escape_char c +:+ escape_for_xml r.
Proof.
  change (String c r) with (String c EmptyString +:+ r). rewrite escape_app. f_equal.
  unfold escape_for_xml, escape_char.
  rewrite replace_char. 
  destruct (decide (" "%char = c)) as [<-|H1]; [done|].
  rewrite bool_decide_false by done.
  rewrite replace_nil, str_app_nil_r, replace_char.
  destruct (decide ("&"%char = c)) as [<-|H2]; [done|].
  rewrite bool_decide_false by done.
  rewrite replace_nil, str_app_nil_r, replace_char.
  destruct (decide (","%char = c)) as [<-|H3]; [done|].
  rewrite bool_decide_false by done. done.
Qed.

(** decode *)
Lemma str_prefix_replace old0 old new0 t s :
  PyStr.contains old0 t = false → PyStr.contains new0 t = false →
  String.prefix t (PyStr.replace (String old0 old) (String new0 EmptyString) s)
  = String.prefix t s.
Proof.
  revert s. induction t as [|a t IH]; intros s Ho Hn; [by rewrite !str_prefix_nil|].
  cbn [PyStr.contains] in Ho, Hn.
  apply orb_false_elim in Ho as [Ho%bool_decide_eq_false Ho'].
  apply orb_false_elim in Hn as [Hn%bool_decide_eq_false Hn'].
  destruct s as [|c s]; [done|].
  destruct (String.prefix (String old0 old) (String c s)) eqn:Hp.
  - apply str_prefix_inv in Hp as [r Hr]. rewrite Hr, replace_hit by done.
    rewrite !str_app_cons, !str_prefix_cons. rewrite !decide_False; done.
  - rewrite replace_miss by done. rewrite !str_prefix_cons.
    case_decide; [|done]. by apply IH.
Qed.

Lemma unescape_nil : unescape_from_xml EmptyString = EmptyString.
Proof. done. Qed.

Lemma unescape_20 r : unescape_from_xml ("%20" +:+ r) = " " +:+ unescape_from_xml r.
Proof.
  unfold unescape_from_xml. rewrite replace_hit by done.
  change (" " +:+ ?x) with (String " " x).
  rewrite replace_miss by done. by rewrite replace_miss by done.
Qed.

Lemma unescape_26 r : unescape_from_xml ("%26" +:+ r) = "&" +:+ unescape_from_xml r.
Proof.
  unfold unescape_from_xml.
  change ("%26" +:+ r) with (String "%" (String "2" (String "6" r))).
  rewrite 3!(replace_miss "%20") by done.
  change (String "%" (String "2" (String "6" ?x))) with ("%26" +:+ x).
  rewrite replace_hit by done.
  change ("&" +:+ ?x) with (String "&" x).
  by rewrite replace_miss by done.
Qed.

Lemma unescape_27 r : unescape_from_xml ("%27" +:+ r) = "'" +:+ unescape_from_xml r.
Proof.
  unfold unescape_from_xml.
  change ("%27" +:+ r) with (String "%" (String "2" (String "7" r))).
  rewrite 3!(replace_miss "%20") by done.
  rewrite 3!(replace_miss "%26") by done.
  change (String "%" (String "2" (String "7" ?x))) with ("%27" +:+ x).
  by rewrite replace_hit by done.
Qed.

Lemma str_prefix_token a b c s :
  String.prefix (String "%" (String a (String b EmptyString))) (String c s)
  = bool_decide (c = "%"%char) && String.prefix (String a (String b EmptyString)) s.
Proof. rewrite str_prefix_cons. case_decide; subst; by rewrite ?bool_decide_true, ?bool_decide_false by done. Qed.

Lemma unescape_other c r :
  token_ahead (String c r) = false →
  unescape_from_xml (String c r) = String c (unescape_from_xml r).
Proof.
  unfold token_ahead. intros H.
  apply orb_false_elim in H as [H H27]. apply orb_false_elim in H as [H20 H26].
  unfold unescape_from_xml.
  rewrite (replace_miss "%20") by done.
  rewrite (replace_miss "%26").
  2:{ rewrite str_prefix_token in *. by rewrite str_prefix_replace. }
  rewrite (replace_miss "%27"); [done|].
  rewrite str_prefix_token in *. by rewrite !str_prefix_replace.
Qed.

Lemma contains_app c s t :
  PyStr.contains c (s +:+ t) = PyStr.contains c s || PyStr.contains c t.
Proof.
  induction s as [|a s IH]; [done|].
  rewrite str_app_cons. cbn [PyStr.contains]. by rewrite IH, orb_assoc.
Qed.

(** A replacement brings in no character that is neither in the text nor in
    the replacement string. *)
Lemma contains_replace c old new s :
  old ≠ EmptyString →
  PyStr.contains c new = false → PyStr.contains c s = false →
  PyStr.contains c (PyStr.replace old new s) = false.
Proof.
  intros Hold Hnew. remember (String.length s) as n eqn:Hn.
  revert s Hn. induction (lt_wf n) as [n _ IH]. intros s -> Hs.
  destruct s as [|a s]; [done|].
  destruct (String.prefix old (String a s)) eqn:Hp.
  - apply str_prefix_inv in Hp as [r Hr]. rewrite Hr in *.
    rewrite replace_hit, contains_app, Hnew by done.
    rewrite contains_app in Hs. apply orb_false_elim in Hs as [_ Hs].
    apply (IH (String.length r)); [|done..].
    rewrite str_length_app. destruct old; [done|]. simpl. lia.
  - rewrite replace_miss by done. cbn [PyStr.contains] in *.
    apply orb_false_elim in Hs as [-> Hs]. apply (IH (String.length s)); [|done..].
    simpl. lia.
Qed.

Lemma escape_no_comma s : PyStr.contains "," (escape_for_xml s) = false.
Proof.
  induction s as [|c s IH]; [done|].
  rewrite escape_cons, contains_app, IH, orb_false_r. unfold escape_char.
  repeat case_bool_decide; try done.
  cbn [PyStr.contains]. by rewrite bool_decide_false.
Qed.

Lemma unescape_no_comma s :
  PyStr.contains "," s = false → PyStr.contains "," (unescape_from_xml s) = false.
Proof.
  intros H. unfold unescape_from_xml. by repeat apply contains_replace.
Qed.


(** ** File names *)

Lemma rfind_bounds c s : -1 ≤ PyStr.rfind c s < Z.of_nat (String.length s).
Proof.
  induction s as [|a s IH]; [simpl; lia|].
  cbn [PyStr.rfind String.length]. destruct (0 <=? PyStr.rfind c s) eqn:E.
  - apply Z.leb_le in E. lia.
  - case_bool_decide; lia.
Qed.

Lemma rfind_app_found c s t :
  0 ≤ PyStr.rfind c t →
  PyStr.rfind c (s +:+ t) = Z.of_nat (String.length s) + PyStr.rfind c t.
Proof.
  intros Ht. induction s as [|a s IH]; [change (EmptyString +:+ t) with t; simpl; lia|].
  rewrite str_app_cons. cbn [PyStr.rfind String.length]. rewrite IH.
  rewrite (proj2 (Z.leb_le _ _)) by lia. lia.
Qed.

Lemma rfind_app_missing c s t :
  PyStr.rfind c t = -1 → PyStr.rfind c (s +:+ t) = PyStr.rfind c s.
Proof.
  intros Ht. induction s as [|a s IH]; [done|].
  rewrite str_app_cons. cbn [PyStr.rfind]. by rewrite IH.
Qed.

Lemma splitext_mp3 y :
  (splitext (y +:+ ".mp3")).2 = ".mp3" ∨ (splitext (y +:+ ".mp3")).2 = EmptyString.
Proof.
  unfold splitext.
  rewrite (rfind_app_found "." y ".mp3") by done.
  change (PyStr.rfind "." ".mp3") with 0. rewrite Z.add_0_r, Nat2Z.id.
  destruct (_ && _); [left|right]; [|done].
  cbn [snd]. apply str_drop_app.
Qed.

Lemma clone_location_not_flac x :
  is_flac (LOCALHOST_PREFIX +:+ escape_for_xml (mp3_path x)) = false.
Proof.
  unfold is_flac, mp3_path. rewrite escape_app.
  change (escape_for_xml ".mp3") with ".mp3". rewrite <- str_app_assoc.
  apply bool_decide_eq_false.
  by destruct (splitext_mp3 (LOCALHOST_PREFIX +:+ escape_for_xml (splitext x).1)) as [-> | ->].
Qed.

(** ** The query texts *)

Lemma split_on_literal v : ET.literal_ok v = true → ET.split_on "'" v = (v, []).
Proof.
  unfold ET.literal_ok. induction v as [|c v IH]; [done|].
  cbn [PyStr.contains ET.split_on]. rewrite negb_orb.
  intros [Hc%negb_true_iff%bool_decide_eq_false Hv]%andb_prop.
  by rewrite (IH Hv), bool_decide_false.
Qed.

(** Without an apostrophe the text is the one test of the attribute. *)
Lemma query_literal k v : ET.literal_ok v = true → ET.query k v = Some [(k, v)].
Proof. intros Hv. unfold ET.query. by rewrite split_on_literal. Qed.

Lemma passes_single k v c : ET.passes [(k, v)] c ↔ ET.get c k = Some v.
Proof.
  unfold ET.passes. split; [by intros [H _]%Forall_cons|].
  intros H. by repeat constructor.
Qed.

Lemma select_single k v l : ET.select [(k, v)] l = ET.findall k v l.
Proof. apply list_filter_iff. intros c. apply passes_single. Qed.

Lemma first_single k v l : ET.first [(k, v)] l = ET.find k v l.
Proof. apply list_find_ext. intros c. apply passes_single. Qed.

Lemma literal_ok_app s t :
  ET.literal_ok (s +:+ t) = ET.literal_ok s && ET.literal_ok t.
Proof. unfold ET.literal_ok. by rewrite contains_app, negb_orb. Qed.

Lemma literal_mirror_name p : ET.literal_ok p = true → ET.literal_ok (p +:+ "_MP3") = true.
Proof. intros Hp. by rewrite literal_ok_app, Hp. Qed.

Lemma first_lookup tests l j x : ET.first tests l = Some (j, x) → l !! j = Some x.
Proof. by intros (? & _)%list_find_Some. Qed.

(** ** The mirror pass *)

Lemma endswith_refl s : PyStr.endswith s s = true.
Proof. destruct s; cbn [PyStr.endswith]; by rewrite bool_decide_true. Qed.

Lemma endswith_app p suf : PyStr.endswith (p +:+ suf) suf = true.
Proof.
  induction p as [|c p IH]; [apply endswith_refl|].
  rewrite str_app_cons. cbn [PyStr.endswith]. rewrite IH. by case_bool_decide.
Qed.

Lemma str_app_inv_tail p q s : p +:+ s = q +:+ s → p = q.
Proof.
  revert q. induction p as [|a p IH]; intros [|b q] H; [done| | |].
  - apply (f_equal String.length) in H. rewrite !str_length_app in H. simpl in H. lia.
  - apply (f_equal String.length) in H. rewrite !str_length_app in H. simpl in H. lia.
  - rewrite !str_app_cons in H. injection H as -> H. f_equal. by apply IH.
Qed.

Lemma get_set k v e k' :
  ET.get (ET.set k v e) k' = if decide (k = k') then Some v else ET.get e k'.
Proof. unfold ET.get, ET.set. simpl. apply lookup_insert. Qed.

Lemma mirror_node_name m o : ET.get (mirror_node m o) "Name" = Some m.
Proof. unfold mirror_node. by rewrite !get_set. Qed.

Lemma mirror_node_children m o : children (mirror_node m o) = [].
Proof. done. Qed.

Lemma playlist_names_app l1 l2 :
  playlist_names (l1 ++ l2) = playlist_names l1 ++ playlist_names l2.
Proof. apply fmap_app. Qed.

Lemma mirror_pass_done orig l acc acc' :
  for_each (mirror_step orig) l acc = Done acc' →
  ∃ new, acc' = acc ++ new
         ∧ playlist_names new = Some <$> omap (needs_mirror orig) l
         ∧ Forall (λ e, children e = []) new
         ∧ Forall is_Some l.
Proof.
  revert acc. induction l as [|a l IH]; intros acc H.
  - injection H as <-. exists []. by rewrite app_nil_r.
  - cbn [for_each] in H. destruct (mirror_step orig a acc) as [acc1|] eqn:Hstep; [|done].
    destruct (IH _ H) as (new & -> & Hn & Hc & Hs).
    unfold mirror_step in Hstep. destruct a as [p|]; [|done].
    cbn [omap list_omap needs_mirror].
    destruct (PyStr.endswith p "_MP3").
    { injection Hstep as <-. exists new. eauto. }
    case_bool_decide.
    { injection Hstep as <-. exists new. eauto. }
    destruct (ET.query "Name" p) as [tests|]; [|done].
    destruct (ET.first tests acc) as [[j o]|]; [|done].
    injection Hstep as <-. exists (mirror_node (p +:+ "_MP3") o :: new).
    split_and!; [by rewrite <- app_assoc| |by constructor|eauto].
    change (playlist_names (?e :: ?l)) with (ET.get e "Name" :: playlist_names l).
    by rewrite mirror_node_name, Hn.
Qed.

Lemma mirror_pass_noop orig l acc :
  (∀ a, a ∈ l → ∃ p, a = Some p ∧
      (PyStr.endswith p "_MP3" = true ∨ Some (p +:+ "_MP3") ∈ orig)) →
  for_each (mirror_step orig) l acc = Done acc.
Proof.
  induction l as [|a l IH]; intros H; [done|].
  destruct (H a) as (p & -> & Hp); [left|].
  cbn [for_each mirror_step].
  assert (IH' := IH (λ a Ha, H a (list_elem_of_further _ _ _ Ha))).
  destruct (PyStr.endswith p "_MP3"); [done|].
  destruct Hp as [?|Hp]; [done|]. by rewrite bool_decide_true.
Qed.

Lemma count_named m l :
  length (filter (named m) l) = length (filter (Some m =.) (playlist_names l)).
Proof.
  induction l as [|e l IH]; [done|].
  cbn [playlist_names fmap list_fmap]. rewrite !filter_cons.
  unfold named at 1. fold (playlist_names l).
  destruct (decide (ET.get e "Name" = Some m)), (decide (Some m = ET.get e "Name"));
    simpl; congruence.
Qed.

Lemma count_absent {A} `{EqDecision A} (x : A) l :
  x ∉ l → length (filter (x =.) l) = 0%nat.
Proof.
  intros H. induction l as [|a l IH]; [done|].
  apply not_elem_of_cons in H as [? ?]. rewrite filter_cons, decide_False by done. auto.
Qed.

Lemma count_once {A} `{EqDecision A} (x : A) l :
  NoDup l → x ∈ l → length (filter (x =.) l) = 1%nat.
Proof.
  induction 1 as [|a l Ha Hl IH]; intros Hx; [by apply elem_of_nil in Hx|].
  rewrite filter_cons. apply elem_of_cons in Hx as [->|Hx].
  - rewrite decide_True by done. simpl. by rewrite count_absent.
  - rewrite decide_False by (intros ->; done). auto.
Qed.

Lemma needs_mirror_inj orig a b m :
  needs_mirror orig a = Some m → needs_mirror orig b = Some m → a = b.
Proof.
  destruct a as [p|], b as [q|]; try done. simpl.
  repeat (case_match; try done). intros [= <-] [= Hpq]. f_equal.
  symmetry. by apply str_app_inv_tail in Hpq.
Qed.

Lemma NoDup_wanted orig l : NoDup l → NoDup (omap (needs_mirror orig) l).
Proof.
  induction 1 as [|a l Ha Hl IH]; [constructor|].
  cbn. destruct (needs_mirror orig a) as [m|] eqn:Hm; [|done].
  constructor; [|done]. rewrite list_elem_of_omap. intros (b & Hb & Hbm).
  by rewrite (needs_mirror_inj _ _ _ _ Hm Hbm) in Ha.
Qed.

Lemma needs_mirror_ends orig a m : needs_mirror orig a = Some m → PyStr.endswith m "_MP3" = true.
Proof.
  destruct a as [p|]; [|done]. simpl. repeat (case_match; try done).
  intros [= <-]. apply endswith_app.
Qed.


(** ** Routing the entries of one track *)

Lemma grown_refl c0 M : grown c0 M M.
Proof. split_and!; [done..|]. exists []. by rewrite app_nil_r. Qed.

Lemma grown_all_refl c0 pls : Forall2 (grown c0) pls pls.
Proof. induction pls; constructor; auto using grown_refl. Qed.

Lemma grown_append c0 c M0 M :
  c0 ≤ c → grown c0 M0 M → grown c0 M0 (ET.append (new_entry c) M).
Proof.
  intros Hc (Ht & Ha & extra & Hch & Hex). split_and!; [done..|].
  exists (extra ++ [new_entry c]). unfold ET.append. cbn [children].
  split; [by rewrite Hch, <- app_assoc|].
  apply Forall_app. split; [done|]. repeat constructor. eauto.
Qed.

Lemma grown_add_entry c0 c j base cur :
  c0 ≤ c → Forall2 (grown c0) base cur → Forall2 (grown c0) base (add_entry c j cur).
Proof.
  intros Hc H. revert j. induction H as [|M0 M base cur HM H IH]; intros j; [constructor|].
  destruct j as [|j]; constructor; auto using grown_append.
Qed.

Lemma new_entry_key c : ET.get (new_entry c) "Key" = Some (PyStr.str c).
Proof. unfold new_entry. by rewrite get_set. Qed.

Lemma grown_has_key c0 k M0 M :
  fresh_from c0 k → grown c0 M0 M → has_key k M = has_key k M0.
Proof.
  intros Hk (_ & _ & extra & Hch & Hex). unfold has_key, ET.findall.
  rewrite Hch, filter_app. clear Hch. replace (filter _ extra) with (@nil Element); [by rewrite app_nil_r|].
  symmetry. induction Hex as [|e extra (j & Hj & ->) _ IH]; [done|].
  rewrite filter_cons, decide_False; [done|].
  rewrite new_entry_key. intros [= H]. exact (Hk j Hj (eq_sym H)).
Qed.

Lemma grown_name c0 M0 M k : grown c0 M0 M → ET.get M k = ET.get M0 k.
Proof. intros (_ & Ha & _). unfold ET.get. by rewrite Ha. Qed.

Lemma grown_find c0 base cur m :
  Forall2 (grown c0) base cur →
  fst <$> ET.find "Name" m cur = fst <$> ET.find "Name" m base.
Proof.
  unfold ET.find. induction 1 as [|M0 M base cur HM H IH]; [done|].
  cbn [list_find]. rewrite (grown_name _ _ _ _ HM).
  case_decide; [done|]. rewrite <- !option_fmap_compose.
  destruct (list_find _ cur) as [[]|], (list_find _ base) as [[]|]; simplify_eq/=; done.
Qed.

Lemma for_each_cons {A St} (body : A → St → Res St) a l s :
  for_each body (a :: l) s
  = match body a s with Done s' => for_each body l s' | Raised e s' => Raised e s' end.
Proof. done. Qed.

(** A turn of the loop over [pNodes] that completes leaves the state as it
    is or appends one entry to the node that the lookup of line 177 found. *)
Lemma route_step_done origId c i st st1 :
  route_step origId c i st = Done st1 →
  st1 = st
  ∨ ∃ pl k keys pname tests j x,
      st.1 !! i = Some pl ∧ origId = Some k
      ∧ ET.query "Key" k = Some keys ∧ ET.select keys (children pl) ≠ []
      ∧ ET.get pl "Name" = Some pname
      ∧ ET.query "Name" (pname +:+ "_MP3") = Some tests
      ∧ ET.first tests st.1 = Some (j, x)
      ∧ st1 = (add_entry c j st.1, true).
Proof.
  unfold route_step.
  destruct (st.1 !! i) as [pl|]; [|intros [= <-]; by left].
  destruct origId as [k|]; [|done].
  destruct (ET.query "Key" k) as [keys|] eqn:Hkeys; [|done].
  destruct (ET.select keys (children pl)) as [|e es] eqn:Hsel; [intros [= <-]; by left|].
  destruct (ET.get pl "Name") as [pname|] eqn:Hname; [|done].
  destruct (ET.query "Name" _) as [tests|] eqn:Hq; [|done].
  destruct (ET.first tests st.1) as [[j x]|] eqn:Hfind; [|done].
  intros [= <-]. right. exists pl, k, keys, pname, tests, j, x.
  split_and!; try done. by rewrite Hsel.
Qed.

(** One turn of the loop over [pNodes] for an id without apostrophe, on a
    section that has grown from [base]: the test of line 168 is the test on
    [base]. *)
Lemma route_step_plain c0 c k base cur b i pl :
  fresh_from c0 k → ET.literal_ok k = true →
  Forall2 (grown c0) base cur → base !! i = Some pl →
  route_step (Some k) c i (cur, b)
  = if has_key k pl
    then match ET.get pl "Name" with
         | None => Raised TypeError (cur, true)
         | Some pname =>
             match ET.query "Name" (pname +:+ "_MP3") with
             | None => Raised Beyond (cur, true)
             | Some tests =>
                 match ET.first tests cur with
                 | None => Raised TypeError (cur, true)
                 | Some (j, _) => Done (add_entry c j cur, true)
                 end
             end
         end
    else Done (cur, b).
Proof.
  intros Hk Hlit Hg Hpl.
  destruct (Forall2_lookup_l _ _ _ _ _ Hg Hpl) as (M & HM & HgM).
  unfold route_step. cbn [fst]. rewrite HM, (query_literal _ _ Hlit), select_single.
  rewrite <- (grown_has_key _ _ _ _ Hk HgM), (grown_name _ _ _ "Name" HgM).
  unfold has_key. by destruct (ET.findall "Key" k (children M)).
Qed.

(** The loop over [pNodes] and the conversion: whether the track is in a
    playlist is read off [base], and the section only grows.  Nothing is
    asked of the names. *)
Lemma route_segment_conv c0 c k base pre rest cur b cur' b' :
  c0 ≤ c → fresh_from c0 k → ET.literal_ok k = true →
  base = pre ++ rest →
  Forall2 (grown c0) base cur →
  for_each (route_step (Some k) c) (seq (length pre) (length rest)) (cur, b) = Done (cur', b') →
  Forall2 (grown c0) base cur'
  ∧ b' = b || existsb (has_key k) rest
  ∧ (b' = false → cur' = cur).
Proof.
  intros Hc Hk Hlit. revert pre cur b.
  induction rest as [|pl rest IH]; intros pre cur b Hbase Hg Hrun.
  { injection Hrun as <- <-. by rewrite orb_false_r. }
  cbn [length seq] in Hrun. rewrite for_each_cons in Hrun.
  assert (Hpl : base !! length pre = Some pl).
  { rewrite Hbase. by rewrite list_lookup_middle. }
  rewrite (route_step_plain c0 c k base cur b _ pl Hk Hlit Hg Hpl) in Hrun.
  assert (Hpre : pre ++ pl :: rest = (pre ++ [pl]) ++ rest) by by rewrite <- app_assoc.
  assert (Hlen : S (length pre) = length (pre ++ [pl])) by (rewrite length_app; simpl; lia).
  rewrite Hlen in Hrun. rewrite Hpre in Hbase. cbn [existsb].
  destruct (has_key k pl).
  - destruct (ET.get pl "Name") as [pname|]; [|done].
    destruct (ET.query "Name" (pname +:+ "_MP3")) as [tests|]; [|done].
    destruct (ET.first tests cur) as [[j Mj]|]; [|done].
    destruct (IH _ _ _ Hbase (grown_add_entry _ _ j _ _ Hc Hg) Hrun) as (? & Hb & _).
    split_and!; [done|by rewrite Hb; destruct b|]. rewrite Hb. by intros [=].
  - destruct (IH _ _ _ Hbase Hg Hrun) as (? & Hb & ?). by split_and!.
Qed.

Lemma route_conv c0 c k base cur cur' b' :
  c0 ≤ c → fresh_from c0 k → ET.literal_ok k = true →
  Forall2 (grown c0) base cur →
  route (Some k) c cur = Done (cur', b') →
  Forall2 (grown c0) base cur'
  ∧ b' = existsb (has_key k) base
  ∧ (b' = false → cur' = cur).
Proof.
  intros Hc Hk Hlit Hg Hrun. unfold route in Hrun.
  rewrite <- (Forall2_length _ _ _ Hg) in Hrun.
  by destruct (route_segment_conv c0 c k base [] base cur false cur' b') as (?&?&?).
Qed.

(** The loop over [pNodes], read against the section [base] it started
    from, whose names hold no apostrophe: the entries go to the mirrors by
    name. *)
Lemma route_segment c0 c k base pre rest cur b cur' b' :
  c0 ≤ c → fresh_from c0 k → ET.literal_ok k = true → literal_names base →
  base = pre ++ rest →
  Forall2 (grown c0) base cur →
  for_each (route_step (Some k) c) (seq (length pre) (length rest)) (cur, b) = Done (cur', b') →
  Forall2 (grown c0) base cur'
  ∧ cur' = foldl (λ acc j, add_entry c j acc) cur (omap (mirror_index base) (sources k rest))
  ∧ b' = b || existsb (has_key k) rest
  ∧ Forall (λ pl, has_key k pl = true → is_Some (mirror_index base pl)) rest.
Proof.
  intros Hc Hk Hlit Hnames. revert pre cur b.
  induction rest as [|pl rest IH]; intros pre cur b Hbase Hg Hrun.
  { injection Hrun as <- <-. by rewrite orb_false_r. }
  cbn [length seq] in Hrun. rewrite for_each_cons in Hrun.
  assert (Hpl : base !! length pre = Some pl).
  { rewrite Hbase. by rewrite list_lookup_middle. }
  rewrite (route_step_plain c0 c k base cur b _ pl Hk Hlit Hg Hpl) in Hrun.
  unfold sources. rewrite filter_cons. cbn [existsb].
  assert (Hpre : pre ++ pl :: rest = (pre ++ [pl]) ++ rest) by by rewrite <- app_assoc.
  assert (Hlen : S (length pre) = length (pre ++ [pl])) by (rewrite length_app; simpl; lia).
  rewrite Hlen in Hrun. rewrite Hpre in Hbase.
  destruct (has_key k pl) eqn:Hkey.
  - rewrite decide_True by done.
    destruct (ET.get pl "Name") as [pname|] eqn:Hname; [|done].
    rewrite (query_literal "Name" (pname +:+ "_MP3")), first_single in Hrun.
    2:{ apply literal_mirror_name, (Hnames pl); [|done].
        by eapply list_elem_of_lookup_2. }
    pose proof (grown_find _ _ _ (pname +:+ "_MP3") Hg) as Hfind.
    destruct (ET.find "Name" (pname +:+ "_MP3") cur) as [[j Mj]|]; [|done].
    assert (Hmi : mirror_index base pl = Some j).
    { unfold mirror_index. rewrite Hname. simpl. by rewrite <- Hfind. }
    destruct (IH _ _ _ Hbase (grown_add_entry _ _ j _ _ Hc Hg) Hrun) as (? & ? & Hb & ?).
    cbn [omap list_omap]. rewrite Hmi. cbn [foldl orb].
    split_and!; [done|done|by rewrite Hb; destruct b|].
    constructor; [by rewrite Hmi|done].
  - rewrite decide_False by done.
    destruct (IH _ _ _ Hbase Hg Hrun) as (? & ? & Hb & ?).
    split_and!; [done|done|by rewrite Hb|].
    constructor; [by rewrite Hkey|done].
Qed.

Lemma route_done c0 c k base cur cur' b' :
  c0 ≤ c → fresh_from c0 k → ET.literal_ok k = true → literal_names base →
  Forall2 (grown c0) base cur →
  route (Some k) c cur = Done (cur', b') →
  Forall2 (grown c0) base cur'
  ∧ cur' = route_spec k c base cur
  ∧ b' = existsb (has_key k) base
  ∧ Forall (λ pl, has_key k pl = true → is_Some (mirror_index base pl)) base.
Proof.
  intros Hc Hk Hlit Hnames Hg Hrun. unfold route in Hrun.
  rewrite <- (Forall2_length _ _ _ Hg) in Hrun.
  destruct (route_segment c0 c k base [] base cur false cur' b') as (?&?&?&?); auto.
Qed.

(** ** The track pass *)

Lemma route_none c pls r : route None c pls = Done r → r = (pls, false).
Proof. destruct pls; [by intros [= <-]|done]. Qed.

Lemma route_spec_no_source k c base cur :
  existsb (has_key k) base = false → route_spec k c base cur = cur.
Proof.
  intros H. unfold route_spec, sources.
  replace (filter _ base) with (@nil Element); [done|].
  symmetry. induction base as [|pl base IH]; [done|].
  cbn [existsb] in H. apply orb_false_elim in H as [H1 H2].
  rewrite filter_cons, decide_False by congruence. auto.
Qed.

Section TrackPass.

Variable isfile : string → bool.

(** One turn of the track loop and what it converts, read against the
    section [base] the pass started from.  The id of the track holds no
    apostrophe; nothing is asked of the names. *)
Lemma track_step_conv c0 base t st st' :
  c0 ≤ currId st →
  Forall2 (grown c0) base (playlists st) →
  (∀ k, ET.get t "TrackID" = Some k → fresh_from c0 k) →
  (∀ k, ET.get t "TrackID" = Some k → ET.literal_ok k = true) →
  track_step isfile t st = Done st' →
  Forall2 (grown c0) base (playlists st')
  ∧ st' = if eligible isfile base t
          then mkState (playlists st')
                 (collection st ++ [clone_of t (currId st)])
                 (add_job (flacToMp3 st) t)
                 (currId st + 1)
          else st.
Proof.
  intros Hc Hg Hk Hlit. unfold track_step, eligible, clone_of, add_job, source_path, track_id.
  destruct (ET.get t "Location") as [raw|]; [|done]. cbn [default].
  destruct (is_flac raw); [|by intros [= <-]]. cbn [negb andb].
  destruct (isfile (flac_path raw)); [|by intros [= <-]]. cbn [negb andb].
  destruct (route _ _ _) as [[pls b]|e [pls b]] eqn:Hroute; [|done].
  destruct (ET.get t "TrackID") as [k|]; cbn [referenced default].
  - destruct (route_conv c0 _ k base _ _ _ Hc (Hk k eq_refl) (Hlit k eq_refl) Hg Hroute)
      as (Hg' & -> & Hsame).
    destruct (existsb (has_key k) base) eqn:Hex; intros [= <-]; [done|].
    cbn [playlists]. rewrite (Hsame eq_refl) in *. by destruct st.
  - apply route_none in Hroute as [= -> ->]. intros [= <-]. by destruct st.
Qed.

Lemma track_pass_conv c0 base l st st' :
  c0 ≤ currId st →
  Forall2 (grown c0) base (playlists st) →
  fresh_ids c0 l → literal_ids l →
  for_each (track_step isfile) l st = Done st' →
  let el := filter (λ t, eligible isfile base t = true) l in
  Forall2 (grown c0) base (playlists st')
  ∧ collection st' = collection st ++ clones (currId st) el
  ∧ flacToMp3 st' = foldl add_job (flacToMp3 st) el
  ∧ currId st' = currId st + Z.of_nat (length el).
Proof.
  revert st. induction l as [|t l IH]; intros st Hc Hg Hfresh Hlit Hrun.
  { injection Hrun as <-. cbn. rewrite app_nil_r, Z.add_0_r. done. }
  rewrite for_each_cons in Hrun.
  destruct (track_step isfile t st) as [st1|] eqn:Hstep; [|done].
  apply (track_step_conv c0 base) in Hstep as [Hg1 Hst1]; [|done..| |].
  2:{ intros k Hk. apply (Hfresh t); [left|done]. }
  2:{ intros k Hk. apply (Hlit t); [left|done]. }
  assert (Hfresh' : fresh_ids c0 l).
  { intros t' k' ??. apply (Hfresh t'); [by right|done]. }
  assert (Hlit' : literal_ids l).
  { intros t' k' ??. apply (Hlit t'); [by right|done]. }
  rewrite filter_cons. destruct (eligible isfile base t) eqn:Hel.
  - rewrite decide_True by done. rewrite Hst1 in Hrun.
    apply IH in Hrun as (? & Hcl & Hj & Hid); [|simpl; lia|done..].
    cbn [playlists collection flacToMp3 currId] in *.
    cbn [clones foldl length]. split; [done|].
    rewrite Hcl, Hj, Hid, <- app_assoc. split_and!; [done..|lia].
  - rewrite decide_False by congruence. subst st1. by apply IH.
Qed.

(** One turn of the track loop with its routing, read against the section
    [base] the pass started from, whose names hold no apostrophe. *)
Lemma track_step_spec c0 base t st st' :
  c0 ≤ currId st →
  Forall2 (grown c0) base (playlists st) →
  literal_names base →
  (∀ k, ET.get t "TrackID" = Some k → fresh_from c0 k) →
  (∀ k, ET.get t "TrackID" = Some k → ET.literal_ok k = true) →
  track_step isfile t st = Done st' →
  Forall2 (grown c0) base (playlists st')
  ∧ st' = if eligible isfile base t
          then mkState (route_spec (track_id t) (currId st) base (playlists st))
                 (collection st ++ [clone_of t (currId st)])
                 (add_job (flacToMp3 st) t)
                 (currId st + 1)
          else st.
Proof.
  intros Hc Hg Hnames Hk Hlit.
  unfold track_step, eligible, clone_of, add_job, source_path, track_id.
  destruct (ET.get t "Location") as [raw|]; [|done]. cbn [default].
  destruct (is_flac raw); [|by intros [= <-]]. cbn [negb andb].
  destruct (isfile (flac_path raw)); [|by intros [= <-]]. cbn [negb andb].
  destruct (route _ _ _) as [[pls b]|e [pls b]] eqn:Hroute; [|done].
  destruct (ET.get t "TrackID") as [k|]; cbn [referenced default].
  - destruct (route_done c0 _ k base _ _ _ Hc (Hk k eq_refl) (Hlit k eq_refl) Hnames Hg Hroute)
      as (Hg' & -> & -> & _).
    destruct (existsb (has_key k) base) eqn:Hex; intros [= <-]; [done|].
    cbn [playlists]. rewrite route_spec_no_source in * by done. by destruct st.
  - apply route_none in Hroute as [= -> ->]. intros [= <-]. by destruct st.
Qed.

Lemma track_pass_spec c0 base l st st' :
  c0 ≤ currId st →
  Forall2 (grown c0) base (playlists st) →
  literal_names base →
  fresh_ids c0 l → literal_ids l →
  for_each (track_step isfile) l st = Done st' →
  let el := filter (λ t, eligible isfile base t = true) l in
  Forall2 (grown c0) base (playlists st')
  ∧ playlists st' = routed base (currId st) el (playlists st)
  ∧ collection st' = collection st ++ clones (currId st) el
  ∧ flacToMp3 st' = foldl add_job (flacToMp3 st) el
  ∧ currId st' = currId st + Z.of_nat (length el).
Proof.
  revert st. induction l as [|t l IH]; intros st Hc Hg Hnames Hfresh Hlit Hrun.
  { injection Hrun as <-. cbn. rewrite app_nil_r, Z.add_0_r. done. }
  rewrite for_each_cons in Hrun.
  destruct (track_step isfile t st) as [st1|] eqn:Hstep; [|done].
  apply (track_step_spec c0 base) in Hstep as [Hg1 Hst1]; [|done..| |].
  2:{ intros k Hk. apply (Hfresh t); [left|done]. }
  2:{ intros k Hk. apply (Hlit t); [left|done]. }
  assert (Hfresh' : fresh_ids c0 l).
  { intros t' k' ??. apply (Hfresh t'); [by right|done]. }
  assert (Hlit' : literal_ids l).
  { intros t' k' ??. apply (Hlit t'); [by right|done]. }
  rewrite filter_cons. destruct (eligible isfile base t) eqn:Hel.
  - rewrite decide_True by done. subst st1.
    apply IH in Hrun as (? & Hp & Hcl & Hj & Hid); [|simpl; lia|done..].
    cbn [playlists collection flacToMp3 currId] in *.
    cbn [routed clones foldl length]. split; [done|].
    rewrite Hp, Hcl, Hj, Hid, <- app_assoc. split_and!; [done..|lia].
  - rewrite decide_False by congruence. subst st1. by apply IH.
Qed.

End TrackPass.

(** ** The loop over the growing collection *)

Lemma clone_is_copy t c x : is_copy (clone_track t c (mp3_path x)).
Proof. exists x. unfold clone_track. by rewrite !get_set. Qed.

Lemma clones_are_copies c l : Forall is_copy (clones c l).
Proof.
  revert c. induction l as [|t l IH]; intros c; constructor; [|done].
  apply clone_is_copy.
Qed.

Lemma clones_length c l : length (clones c l) = length l.
Proof. revert c. induction l as [|t l IH]; intros c; simpl; auto. Qed.

Section Loop.

Variable isfile : string → bool.

(** A clone that the loop reaches is skipped at the extension test. *)
Lemma copy_skipped e st : is_copy e → track_step isfile e st = Done st.
Proof.
  intros [x Hx]. unfold track_step. by rewrite Hx, clone_location_not_flac.
Qed.

(** What one turn may do to the collection and to the counter. *)
Lemma track_step_grows t st st' :
  track_step isfile t st = Done st' →
  (collection st' = collection st ∧ currId st' = currId st)
  ∨ (is_Some (ET.get t "Location")
     ∧ collection st' = collection st ++ [clone_of t (currId st)]
     ∧ currId st' = currId st + 1).
Proof.
  unfold track_step, clone_of, source_path.
  destruct (ET.get t "Location") as [raw|]; [|done].
  destruct (negb (is_flac raw)); [intros [= <-]; by left|].
  destruct (negb (isfile (flac_path raw))); [intros [= <-]; by left|].
  destruct (route _ _ _) as [[pls [|]]|e [pls b]]; [| |done]; intros [= <-]; [right|left]; eauto.
Qed.

(** The tracks converted among [l] form a sublist of [l], and the clones are
    numbered from the counter on, one by one. *)
Lemma track_pass_clones l st st' :
  for_each (track_step isfile) l st = Done st' →
  ∃ srcs, sublist srcs l
          ∧ Forall (λ t, is_Some (ET.get t "Location")) srcs
          ∧ collection st' = collection st ++ clones (currId st) srcs
          ∧ currId st' = currId st + Z.of_nat (length srcs).
Proof.
  revert st. induction l as [|t l IH]; intros st Hrun.
  { injection Hrun as <-. exists []. rewrite app_nil_r. split_and!; [done..|simpl; lia]. }
  rewrite for_each_cons in Hrun.
  destruct (track_step isfile t st) as [st1|] eqn:Hstep; [|done].
  destruct (IH _ Hrun) as (srcs & Hsub & Hloc & Hcoll & Hid).
  destruct (track_step_grows _ _ _ Hstep) as [[Hc1 Hi1]|(Ht & Hc1 & Hi1)].
  - exists srcs. rewrite Hcoll, Hid, Hc1, Hi1. split_and!; [|done..]. by constructor.
  - exists (t :: srcs). rewrite Hcoll, Hid, Hc1, Hi1, <- app_assoc.
    split_and!; [by constructor|by constructor|done|simpl; lia].
Qed.

Lemma track_loop_skips extra pre st fuel :
  collection st = pre ++ extra → Forall is_copy extra →
  (length extra < fuel)%nat →
  track_loop isfile fuel (length pre) st = Some (Done st).
Proof.
  revert pre fuel. induction extra as [|e extra IH]; intros pre fuel Hcoll Hex Hfuel.
  - destruct fuel as [|fuel]; [simpl in Hfuel; lia|]. cbn [track_loop].
    rewrite Hcoll, app_nil_r. by rewrite lookup_ge_None_2.
  - destruct fuel as [|fuel]; [simpl in Hfuel; lia|]. cbn [track_loop].
    rewrite Hcoll, list_lookup_middle by done.
    apply Forall_cons in Hex as [He Hex]. rewrite copy_skipped by done.
    replace (S (length pre)) with (length (pre ++ [e])) by (rewrite length_app; simpl; lia).
    apply IH; [by rewrite <- app_assoc|done|simpl in Hfuel; lia].
Qed.

Lemma track_loop_originals rest pre extra st fuel :
  collection st = pre ++ rest ++ extra → Forall is_copy extra →
  (2 * length rest + length extra < fuel)%nat →
  track_loop isfile fuel (length pre) st = Some (for_each (track_step isfile) rest st).
Proof.
  revert pre extra st fuel.
  induction rest as [|t rest IH]; intros pre extra st fuel Hcoll Hex Hfuel.
  { apply track_loop_skips with extra; [done..|simpl in Hfuel; lia]. }
  destruct fuel as [|fuel]; [simpl in Hfuel; lia|]. cbn [track_loop].
  rewrite Hcoll, <- app_comm_cons, list_lookup_middle by done. rewrite for_each_cons.
  destruct (track_step isfile t st) as [st1|] eqn:Hstep; [|done].
  replace (S (length pre)) with (length (pre ++ [t])) by (rewrite length_app; simpl; lia).
  destruct (track_step_grows _ _ _ Hstep) as [[Hc1 _]|(_ & Hc1 & _)].
  - apply IH with extra; [|done|simpl in Hfuel; lia].
    by rewrite Hc1, Hcoll, <- app_comm_cons, <- app_assoc.
  - apply IH with (extra ++ [clone_of t (currId st)]).
    + rewrite Hc1, Hcoll. by simplify_list_eq.
    + apply Forall_app. split; [done|]. repeat constructor. apply clone_is_copy.
    + rewrite length_app. simpl in *. lia.
Qed.

Lemma track_loop_mono fuel fuel' i st r :
  track_loop isfile fuel i st = Some r → (fuel ≤ fuel')%nat →
  track_loop isfile fuel' i st = Some r.
Proof.
  revert fuel' i st. induction fuel as [|fuel IH]; intros fuel' i st H Hle; [done|].
  destruct fuel' as [|fuel']; [lia|]. cbn [track_loop] in *.
  destruct (collection st !! i); [|done].
  destruct (track_step isfile _ st); [|done]. apply IH; [done|lia].
Qed.

(** With fuel or without: a result of the loop is the result of the turns
    for the tracks the collection held at the start. *)
Lemma track_loop_result fuel st r :
  track_loop isfile fuel 0 st = Some r →
  r = for_each (track_step isfile) (collection st) st.
Proof.
  intros H.
  pose (big := (fuel + S (2 * length (collection st)))%nat).
  pose proof (track_loop_mono _ big _ _ _ H ltac:(lia)) as H1.
  pose proof (track_loop_originals (collection st) [] [] st big) as H2.
  rewrite app_nil_r in H2. specialize (H2 eq_refl (List.Forall_nil _)).
  cbn [length] in H2. rewrite H2 in H1 by (unfold big; lia). congruence.
Qed.

End Loop.

(** ** [main] *)

Lemma for_each_raises {A St} (P : exn → Prop) (body : A → St → Res St) l s e s' :
  (∀ a s e s', body a s = Raised e s' → P e) →
  for_each body l s = Raised e s' → P e.
Proof.
  intros Hbody. revert s. induction l as [|a l IH]; intros s; [done|].
  rewrite for_each_cons. destruct (body a s) eqn:Hb; [apply IH|].
  intros [= <- <-]. eauto.
Qed.

Lemma mirror_pass_raises pls e pls' :
  build_mirrors pls = Raised e pls' → e ≠ IndexError.
Proof.
  apply (for_each_raises (λ e, e ≠ IndexError)). intros a s e' s'.
  unfold mirror_step. repeat case_match; by intros [= <- <-].
Qed.

Lemma route_raises origId c pls e r :
  route origId c pls = Raised e r → e ≠ IndexError.
Proof.
  apply (for_each_raises (λ e, e ≠ IndexError)). intros a s e' s'.
  unfold route_step. repeat case_match; by intros [= <- <-].
Qed.

Lemma root_collection_with_playlists pls root :
  root_collection (with_playlists pls root) = root_collection root.
Proof. unfold root_collection, with_playlists. cbn [children]. by rewrite list_lookup_alter_ne. Qed.

Lemma root_playlists_collection root pl :
  root_playlists root = Some pl → is_Some (root_collection root).
Proof.
  unfold root_playlists, root_collection. intros H.
  destruct (children root !! 2%nat) eqn:H2; [|done].
  apply lookup_lt_is_Some. apply lookup_lt_Some in H2. lia.
Qed.

Lemma root_collection_with_state st coll root :
  is_Some (root_collection root) →
  root_collection (with_state st coll root)
  = Some (mkElement (tag coll) (attrib coll) (collection st)).
Proof.
  intros H%lookup_lt_is_Some. unfold root_collection, with_state, with_collection, with_playlists.
  cbn [children]. apply list_lookup_insert_eq. by rewrite length_alter.
Qed.

Lemma root_playlists_with_state st coll root pl :
  root_playlists root = Some pl →
  root_playlists (with_state st coll root)
  = Some (mkElement (tag pl) (attrib pl) (playlists st)).
Proof.
  unfold root_playlists, with_state, with_collection, with_playlists. cbn [children].
  rewrite list_lookup_insert_ne, list_lookup_alter_eq by done.
  destruct (children root !! 2%nat) as [sec|]; [|done]. cbn.
  rewrite list_lookup_alter_eq. by intros ->.
Qed.

Section Main.

Variable py_int : string → option Z.
Variable isfile : string → bool.

Lemma track_step_raises t st e st' :
  track_step isfile t st = Raised e st' → e ≠ IndexError.
Proof.
  unfold track_step. repeat case_match; try by intros [= <- <-].
  all: intros [= <- <-]; by eapply route_raises.
Qed.

Lemma track_loop_raises fuel i st e st' :
  track_loop isfile fuel i st = Some (Raised e st') → e ≠ IndexError.
Proof.
  revert i st. induction fuel as [|fuel IH]; intros i st; [done|]. cbn [track_loop].
  destruct (collection st !! i); [|done].
  destruct (track_step isfile _ st) eqn:Hs; [apply IH|].
  intros [= <- <-]. by eapply track_step_raises.
Qed.

(** What a completed run went through. *)
Lemma main_done fuel root root' jobs :
  main py_int isfile fuel root = Some (Done (root', jobs)) →
  ∃ pl coll entries n pls st,
    root_playlists root = Some pl
    ∧ root_collection root = Some coll
    ∧ ET.get coll "Entries" = Some entries
    ∧ py_int entries = Some n
    ∧ build_mirrors (children pl) = Done pls
    ∧ track_loop isfile fuel 0 (mkState pls (children coll) [] (n + 1)) = Some (Done st)
    ∧ jobs = flacToMp3 st
    ∧ root_collection root'
      = Some (mkElement (tag coll)
                (<["Entries" := PyStr.str (currId st - 1)]> (attrib coll)) (collection st))
    ∧ root_playlists root' = Some (mkElement (tag pl) (attrib pl) (playlists st)).
Proof.
  unfold main. destruct (root_playlists root) as [pl|] eqn:Hpl; [|done].
  destruct (build_mirrors (children pl)) as [pls|] eqn:Hm; [|done].
  rewrite root_collection_with_playlists.
  destruct (root_collection root) as [coll|] eqn:Hcoll; [|done].
  destruct (ET.get coll "Entries") as [entries|] eqn:He; [|done].
  destruct (py_int entries) as [n|] eqn:Hn; [|done].
  destruct (track_loop _ _ _ _) as [[st|]|] eqn:Hloop; [|done..].
  intros [= <- <-]. exists pl, coll, entries, n, pls, st.
  split_and!; try done.
  - rewrite root_collection_with_state; [done|by rewrite Hcoll].
  - by apply root_playlists_with_state.
Qed.

End Main.

(** ** The clones and their ids *)

Lemma clones_ids c l :
  (λ t, ET.get t "TrackID") <$> clones c l
  = (λ j, Some (PyStr.str (c + Z.of_nat j))) <$> seq 0 (length l).
Proof.
  revert c. induction l as [|t l IH]; intros c; [done|].
  cbn [clones length seq]. rewrite !fmap_cons, IH, <- fmap_S_seq, <- list_fmap_compose.
  f_equal.
  - unfold clone_of, clone_track. rewrite !get_set. simpl. by rewrite Z.add_0_r.
  - apply list_fmap_ext. intros _ j _. simpl. do 2 f_equal. lia.
Qed.

Lemma clones_lookup c l i :
  clones c l !! i = (λ t, clone_of t (c + Z.of_nat i)) <$> l !! i.
Proof.
  revert c i. induction l as [|t l IH]; intros c i; [done|].
  destruct i as [|i]; cbn [clones].
  - simpl. by rewrite Z.add_0_r.
  - change ((?x :: ?l0) !! S i) with (l0 !! i). rewrite IH.
    destruct (l !! i); [|done]. simpl. do 2 f_equal. lia.
Qed.

(** ** Entries appended to mirrors *)

Lemma add_entry_lookup c j cur i :
  add_entry c j cur !! i
  = (if decide (j = i) then ET.append (new_entry c) else id) <$> cur !! i.
Proof.
  unfold add_entry. rewrite list_lookup_alter.
  destruct (decide (j = i)) as [->|]; [done|]. by destruct (cur !! i).
Qed.

(** What a run of appends leaves at position [i]. *)
Lemma add_entries_lookup c js cur i :
  foldl (λ acc j, add_entry c j acc) cur js !! i
  = (λ M, mkElement (tag M) (attrib M)
            (children M ++ replicate (length (filter (i =.) js)) (new_entry c)))
    <$> cur !! i.
Proof.
  revert cur. induction js as [|j js IH]; intros cur.
  { cbn. destruct (cur !! i) as [[]|]; [|done]. simpl. by rewrite app_nil_r. }
  cbn [foldl]. rewrite IH, add_entry_lookup, filter_cons.
  destruct (cur !! i) as [M|]; [|done]. simpl.
  destruct (decide (j = i)) as [->|Hne].
  - rewrite decide_True by done. simpl. by rewrite <- app_assoc.
  - by rewrite decide_False by done.
Qed.

Lemma NoDup_omap_inj {A B} (f : A → option B) (l : list A) :
  (∀ a b m, a ∈ l → b ∈ l → f a = Some m → f b = Some m → a = b) →
  NoDup l → NoDup (omap f l).
Proof.
  intros Hinj. induction 1 as [|a l Ha Hl IH]; [constructor|].
  cbn. assert (IH' : NoDup (omap f l)).
  { apply IH. intros ??????. eapply Hinj; eauto using list_elem_of_further. }
  destruct (f a) as [m|] eqn:Hm; [|done].
  constructor; [|done]. rewrite list_elem_of_omap. intros (b & Hb & Hbm).
  assert (a = b) as -> by (eapply Hinj; eauto using list_elem_of_further, list_elem_of_here).
  done.
Qed.

Lemma same_name_same_node base a b :
  NoDup (playlist_names base) → a ∈ base → b ∈ base →
  ET.get a "Name" = ET.get b "Name" → a = b.
Proof.
  intros Hnd (i & Hi)%list_elem_of_lookup (j & Hj)%list_elem_of_lookup Hab.
  assert (i = j) as ->; [|congruence].
  eapply NoDup_lookup; [exact Hnd|..]; unfold playlist_names; rewrite list_lookup_fmap.
  - by rewrite Hi.
  - rewrite Hj. simpl. by rewrite Hab.
Qed.

Lemma find_named base m j x :
  ET.find "Name" m base = Some (j, x) → base !! j = Some x ∧ named m x.
Proof. unfold ET.find. intros (? & ? & _)%list_find_Some. done. Qed.

Lemma find_unique base m j x :
  NoDup (playlist_names base) → base !! j = Some x → named m x →
  fst <$> ET.find "Name" m base = Some j.
Proof.
  intros Hnd Hj Hx. unfold ET.find.
  destruct (list_find _ base) as [[j' x']|] eqn:Hf.
  - apply list_find_Some in Hf as (Hj' & Hx' & _). simpl. f_equal.
    eapply NoDup_lookup; [exact Hnd|..]; unfold playlist_names; rewrite list_lookup_fmap.
    + rewrite Hj'. simpl. by rewrite Hx'.
    + rewrite Hj. simpl. by rewrite Hx.
  - apply list_find_None in Hf. apply list_elem_of_lookup_2 in Hj.
    by eapply Forall_forall in Hf.
Qed.

Lemma mirror_index_named base src j :
  mirror_index base src = Some j →
  ∃ p x, named p src ∧ base !! j = Some x ∧ named (p +:+ "_MP3") x.
Proof.
  unfold mirror_index. destruct (ET.get src "Name") as [p|] eqn:Hp; [|done]. simpl.
  destruct (ET.find _ _ _) as [[j' x]|] eqn:Hf; [|done]. intros [= <-].
  apply find_named in Hf as [? ?]. by exists p, x.
Qed.

Lemma mirror_targets_NoDup k base :
  NoDup (playlist_names base) → NoDup (omap (mirror_index base) (sources k base)).
Proof.
  intros Hnd. apply NoDup_omap_inj.
  - intros a b m [_ Ha]%list_elem_of_filter [_ Hb]%list_elem_of_filter Hma Hmb.
    apply mirror_index_named in Hma as (pa & xa & Hpa & Hxa & Hna).
    apply mirror_index_named in Hmb as (pb & xb & Hpb & Hxb & Hnb).
    assert (xa = xb) as -> by congruence.
    unfold named in *. rewrite Hna in Hnb. injection Hnb as Hp%str_app_inv_tail.
    apply (same_name_same_node base); [done..|]. congruence.
  - apply NoDup_filter. by apply NoDup_fmap_1 in Hnd.
Qed.

(** ** The mirror pass and the track pass together *)

Lemma has_key_no_children k pl : children pl = [] → has_key k pl = false.
Proof. unfold has_key. by intros ->. Qed.

Lemma referenced_mirrors origId pls pls' :
  build_mirrors pls = Done pls' → referenced origId pls' = referenced origId pls.
Proof.
  intros (new & -> & _ & Hnew & _)%mirror_pass_done.
  destruct origId as [k|]; [|done]. cbn [referenced]. rewrite existsb_app.
  replace (existsb (has_key k) new) with false; [by rewrite orb_false_r|].
  symmetry. induction Hnew as [|pl new Hpl _ IH]; [done|].
  cbn [existsb]. by rewrite has_key_no_children.
Qed.

Lemma eligible_mirrors isfile pls pls' t :
  build_mirrors pls = Done pls' → eligible isfile pls' t = eligible isfile pls t.
Proof. intros H. unfold eligible. by rewrite (referenced_mirrors _ _ _ H). Qed.

Lemma mirror_pass_closed pls pls' p :
  build_mirrors pls = Done pls' →
  Some p ∈ playlist_names pls' → PyStr.endswith p "_MP3" = false →
  Some (p +:+ "_MP3") ∈ playlist_names pls'.
Proof.
  intros (new & -> & Hnew & _ & _)%mirror_pass_done Hp Hend.
  rewrite playlist_names_app in *. apply elem_of_app in Hp as [Hp|Hp].
  - destruct (decide (Some (p +:+ "_MP3") ∈ playlist_names pls)); apply elem_of_app; [by left|right].
    rewrite Hnew. apply list_elem_of_fmap. eexists. split; [done|].
    apply list_elem_of_omap. exists (Some p). split; [done|]. simpl.
    by rewrite Hend, bool_decide_false.
  - rewrite Hnew in Hp. apply list_elem_of_fmap in Hp as (m & [= ->] & Hm).
    apply list_elem_of_omap in Hm as (a & _ & Ha%needs_mirror_ends). congruence.
Qed.

Lemma find_is_Some m pls :
  Some m ∈ playlist_names pls → is_Some (ET.find "Name" m pls).
Proof.
  intros (pl & Hm & Hpl)%list_elem_of_fmap. unfold ET.find.
  destruct (list_find _ pls) eqn:Hf; [done|].
  apply list_find_None in Hf. by eapply Forall_forall in Hf.
Qed.

(** ** Decimal texts *)

Lemma int_dec_str z : PyStr.int_dec (PyStr.str z) = Some z.
Proof.
  unfold PyStr.int_dec, PyStr.str. rewrite NilZero.isi.
  - simpl. f_equal. apply DecimalZ.of_to.
  - destruct z; simpl; [done| |done]. intros [= H]. by apply DecimalPos.Unsigned.to_uint_nonnil in H.
  - destruct z; simpl; [done|done|]. intros [= H]. by apply DecimalPos.Unsigned.to_uint_nonnil in H.
Qed.

Lemma str_inj z1 z2 : PyStr.str z1 = PyStr.str z2 → z1 = z2.
Proof.
  intros H. apply (f_equal PyStr.int_dec) in H. rewrite !int_dec_str in H. congruence.
Qed.


(** ** Loops that raise, names, fresh ids *)

Lemma for_each_raises_inv {A St} (I : St → Prop) (P : exn → Prop)
    (body : A → St → Res St) l s e s' :
  (∀ a s, a ∈ l → I s →
     match body a s with Done s1 => I s1 | Raised e1 _ => P e1 end) →
  I s → for_each body l s = Raised e s' → P e.
Proof.
  revert s. induction l as [|a l IH]; intros s Hbody Hs; [done|].
  rewrite for_each_cons. pose proof (Hbody a s (list_elem_of_here _ _) Hs) as Ha.
  destruct (body a s) as [s1|e1 s1].
  - apply IH; [|done]. intros ????. apply Hbody; [by right|done].
  - by intros [= <- <-].
Qed.

Lemma name_in_names pl pls : pl ∈ pls → ET.get pl "Name" ∈ playlist_names pls.
Proof. intros H. apply list_elem_of_fmap. by exists pl. Qed.

Lemma str_fresh m c0 : m < c0 → fresh_from c0 (PyStr.str m).
Proof. intros Hm j Hj Heq%str_inj. lia. Qed.

(** The mirror pass keeps the names free of apostrophes. *)
Lemma mirror_pass_literal pls pls' :
  build_mirrors pls = Done pls' → literal_names pls → literal_names pls'.
Proof.
  intros (new & -> & Hnew & _)%mirror_pass_done Hlit node p [Hin|Hin]%elem_of_app Hp;
    [by eapply Hlit|].
  apply name_in_names in Hin. rewrite Hp, Hnew in Hin.
  apply list_elem_of_fmap in Hin as (m & [= ->] & Hin).
  apply list_elem_of_omap in Hin as (a & Ha & Hneed).
  apply list_elem_of_fmap in Ha as (src & -> & Hsrc).
  destruct (ET.get src "Name") as [q|] eqn:Hq; [|done]. cbn [needs_mirror] in Hneed.
  destruct (PyStr.endswith q "_MP3"); [done|]. case_bool_decide; [done|].
  injection Hneed as <-. apply literal_mirror_name. by eapply Hlit.
Qed.


(** ** The scenarios of the specification, run *)

Example house_run :
  main PyStr.int_dec disk_all 3 house = Some (Done (house_out, [house_job])).
Proof. vm_compute. reflexivity. Qed.

Example house_file_missing :
  main PyStr.int_dec disk_none 3 house
  = Some (Done (library "1" [house_track] [house_playlist; house_mirror []], [])).
Proof. vm_compute. reflexivity. Qed.

Example house_mirror_preexists :
  main PyStr.int_dec disk_all 3 (library "1" [house_track] [house_playlist; playlist "House_MP3" []])
  = Some (Done (library "2" [house_track; house_clone]
                  [house_playlist; ET.append (entry "2") (playlist "House_MP3" [])],
                [house_job])).
Proof. vm_compute. reflexivity. Qed.

Example house_track_loop :
  track_loop disk_all 3 0 house_state = Some (Done house_state_out).
Proof. vm_compute. reflexivity. Qed.

Example house_track_step :
  track_step disk_all house_track house_state = Done house_state_out.
Proof. vm_compute. reflexivity. Qed.

Example house_mirrors : build_mirrors [house_playlist] = Done [house_playlist; house_mirror []].
Proof. vm_compute. reflexivity. Qed.

Example three_playlists_mirrors :
  build_mirrors three_playlists = Done (three_playlists ++ [house_mirror []]).
Proof. vm_compute. reflexivity. Qed.

Example mirror_only_run :
  main PyStr.int_dec disk_all 3 mirror_only = Some (Done (mirror_only_out, [house_job])).
Proof. vm_compute. reflexivity. Qed.

(** A mirror that references the track and has no mirror of its own stops
    the run at line 178. *)
Example mirror_without_mirror :
  main PyStr.int_dec disk_all 3 (library "1" [house_track] [playlist "A_MP3" ["1"]])
  = Some (Raised TypeError (library "1" [house_track] [playlist "A_MP3" ["1"]], [])).
Proof. vm_compute. reflexivity. Qed.

(** A second child without [Entries] is a collection all the same: the run
    fails at line 140, after the mirror pass has added its node. *)
Example collection_without_entries :
  main PyStr.int_dec disk_all 3
    (mkElement "DJ_PLAYLISTS" ∅
       [ mkElement "PRODUCT" ∅ []; mkElement "COLLECTION" ∅ [];
         mkElement "PLAYLISTS" ∅ [ root_node [house_playlist] ] ])
  = Some (Raised TypeError
            (mkElement "DJ_PLAYLISTS" ∅
               [ mkElement "PRODUCT" ∅ []; mkElement "COLLECTION" ∅ [];
                 mkElement "PLAYLISTS" ∅ [ root_node [house_playlist; house_mirror []] ] ],
             [])).
Proof. vm_compute. reflexivity. Qed.

Lemma house_ids_fresh : fresh_ids 2 [house_track].
Proof.
  intros t k ->%list_elem_of_singleton Hk. vm_compute in Hk. injection Hk as <-.
  apply (str_fresh 1). lia.
Qed.

Lemma house_names_NoDup : NoDup (playlist_names [house_playlist; house_mirror []]).
Proof. apply (bool_decide_unpack _). vm_compute. exact I. Qed.

Lemma three_playlists_NoDup : NoDup (playlist_names three_playlists).
Proof. apply (bool_decide_unpack _). vm_compute. exact I. Qed.

Lemma house_dense : dense_ids PyStr.int_dec (collection_node "1" [house_track]).
Proof.
  split_and!.
  - apply (bool_decide_unpack _). vm_compute. exact I.
  - intros t ->%list_elem_of_singleton. exists 1. split; [reflexivity|simpl; lia].
  - reflexivity.
Qed.

(** * The claims *)

Section Claims.

Variable py_int : string → option Z.
Variable isfile : string → bool.

Lemma existsb_ext_elem {A} (f g : A → bool) (l : list A) :
  (∀ x, x ∈ l → f x = g x) → existsb f l = existsb g l.
Proof.
  induction l as [|a l IH]; intros H; [done|]. cbn [existsb].
  rewrite (H a) by left. rewrite IH; [done|]. intros x Hx. apply H. by right.
Qed.

Lemma filter_ext_elem {A} (P Q : A → Prop) `{!∀ x, Decision (P x), !∀ x, Decision (Q x)}
    (l : list A) :
  (∀ x, x ∈ l → P x ↔ Q x) → filter P l = filter Q l.
Proof.
  induction l as [|a l IH]; intros Hext; [done|].
  assert (IH' : filter P l = filter Q l) by (apply IH; intros x Hx; apply Hext; by right).
  rewrite !filter_cons, IH'. pose proof (Hext a (list_elem_of_here _ _)).
  destruct (decide (P a)), (decide (Q a)); tauto || done.
Qed.

(** Where no mirror holds a source, the code's condition is the specified
    one. *)
Lemma eligible_as_specified_agrees pls tracks t :
  mirrors_hold_no_source pls tracks → t ∈ tracks →
  eligible isfile pls t = eligible_as_specified isfile pls t.
Proof.
  intros Hno Ht. unfold eligible, eligible_as_specified.
  destruct (ET.get t "Location"); [|done]. f_equal.
  destruct (ET.get t "TrackID") as [k|] eqn:Hk; [|done]. cbn [referenced].
  apply existsb_ext_elem. intros pl Hpl.
  destruct (has_key k pl) eqn:Hkey; [|done].
  by rewrite (Hno pl t k Hpl Ht Hk Hkey).
Qed.

(** C1, amended.  Take a library in which no track of the collection
    carries an id that holds an apostrophe or that the pass hands out.  A
    completed run appends one clone, and records one job, for exactly the
    tracks whose location has the extension .flac whatever the case, whose
    decoded path is a file on disk, and whose id some playlist holds, be
    it named as a mirror or not; the clones come in the order of their
    sources and are numbered from [Entries + 1] on.  A track that is not
    FLAC, whose file is missing, or that no playlist holds yields neither
    clone nor job. *)
Theorem converted_iff_eligible fuel root root' jobs pl coll n :
  root_playlists root = Some pl →
  root_collection root = Some coll →
  ET.get coll "Entries" ≫= py_int = Some n →
  fresh_ids (n + 1) (children coll) →
  literal_ids (children coll) →
  main py_int isfile fuel root = Some (Done (root', jobs)) →
  ∃ coll', root_collection root' = Some coll'
    ∧ children coll'
      = children coll
        ++ clones (n + 1) (filter (λ t, eligible isfile (children pl) t = true) (children coll))
    ∧ jobs = foldl add_job [] (filter (λ t, eligible isfile (children pl) t = true) (children coll)).
Proof.
  intros Hpl Hcoll Hn Hfresh Hlit Hrun.
  apply main_done in Hrun
    as (pl1 & coll1 & entries & n1 & pls & st & Hpl1 & Hcoll1 & He & Hn1 & Hm & Hloop & -> & Hc' & _).
  assert (pl1 = pl) as -> by congruence. assert (coll1 = coll) as -> by congruence.
  assert (n1 = n) as ->. { rewrite He in Hn. simpl in Hn. congruence. }
  apply track_loop_result in Hloop. symmetry in Hloop.
  apply (track_pass_conv isfile (n + 1) pls) in Hloop as (_ & Hc & Hj & _);
    [|done|apply grown_all_refl|done..].
  cbn [collection flacToMp3 currId] in *.
  rewrite (list_filter_iff _ (λ t, eligible isfile (children pl) t = true)) in Hc, Hj
    by (intros t; by rewrite (eligible_mirrors _ _ _ _ Hm)).
  eexists. split; [done|]. by cbn [children].
Qed.


(** C4.  After a completed run the collection holds the tracks it held and
    the new ones after them; the new tracks carry the ids [Entries + 1],
    [Entries + 2], ... in order, and [Entries] is set to the text of its
    former value plus the number of new tracks. *)
Theorem entries_counts_new_tracks fuel root root' jobs :
  main py_int isfile fuel root = Some (Done (root', jobs)) →
  ∃ coll coll' entries n new,
    root_collection root = Some coll
    ∧ ET.get coll "Entries" = Some entries ∧ py_int entries = Some n
    ∧ root_collection root' = Some coll'
    ∧ children coll' = children coll ++ new
    ∧ (λ t, ET.get t "TrackID") <$> new
      = (λ j, Some (PyStr.str (n + 1 + Z.of_nat j))) <$> seq 0 (length new)
    ∧ ET.get coll' "Entries" = Some (PyStr.str (n + Z.of_nat (length new))).
Proof.
  intros (pl & coll & entries & n & pls & st & _ & Hcoll & He & Hn & _ & Hloop & _ & Hcoll' & _)%main_done.
  apply track_loop_result in Hloop. symmetry in Hloop.
  apply track_pass_clones in Hloop as (srcs & _ & _ & Hc & Hid).
  cbn [collection currId] in *.
  eexists coll, _, entries, n, (clones (n + 1) srcs).
  split_and!; [done..|by rewrite Hc|rewrite clones_length; apply clones_ids|].
  unfold ET.get. cbn [attrib]. rewrite lookup_insert_eq, Hid, clones_length.
  do 2 f_equal. lia.
Qed.


Lemma int_id_fmap (l : list Element) :
  int_id py_int <$> l = (λ o, o ≫= py_int) <$> ((λ t, ET.get t "TrackID") <$> l).
Proof. by rewrite <- list_fmap_compose. Qed.

(** C5.  Where the ids of the collection are pairwise distinct numbers from
    1 up to the number of tracks and [Entries] is that number, after a
    completed run the ids of the collection are still pairwise distinct (as
    texts and as numbers), and every new id is greater than every id that
    was there.  ([int] is only asked to read back what [str] prints.) *)
Theorem track_ids_stay_unique fuel root root' jobs coll coll' :
  (∀ z, py_int (PyStr.str z) = Some z) →
  root_collection root = Some coll →
  dense_ids py_int coll →
  main py_int isfile fuel root = Some (Done (root', jobs)) →
  root_collection root' = Some coll' →
  NoDup ((λ t, ET.get t "TrackID") <$> children coll')
  ∧ NoDup (int_id py_int <$> children coll')
  ∧ ∃ new, children coll' = children coll ++ new
           ∧ ∀ t t', t ∈ children coll → t' ∈ new →
               ∃ m m', int_id py_int t = Some m ∧ int_id py_int t' = Some m' ∧ m < m'.
Proof.
  intros Hint Hcoll (Hnd & Hrange & Hentries) Hrun Hcoll'.
  apply main_done in Hrun
    as (pl & coll1 & entries & n & pls & st & _ & Hcoll1 & He & Hn & _ & Hloop & _ & Hc' & _).
  assert (coll1 = coll) as -> by congruence.
  assert (n = Z.of_nat (length (children coll))) as ->.
  { rewrite He in Hentries. simpl in Hentries. congruence. }
  apply track_loop_result in Hloop. symmetry in Hloop.
  apply track_pass_clones in Hloop as (srcs & _ & _ & Hc & _).
  cbn [collection currId] in *.
  set (n := Z.of_nat (length (children coll))) in *.
  assert (children coll' = children coll ++ clones (n + 1) srcs) as Hch.
  { rewrite Hcoll' in Hc'. injection Hc' as ->. done. }
  assert (Hnew : ∀ t', t' ∈ clones (n + 1) srcs →
                       ∃ j : nat, int_id py_int t' = Some (n + 1 + Z.of_nat j)).
  { intros t' (i & Hi)%list_elem_of_lookup. rewrite clones_lookup in Hi.
    destruct (srcs !! i) as [t|]; [|done]. injection Hi as <-. exists i.
    unfold int_id, clone_of, clone_track. rewrite !get_set. simpl. apply Hint. }
  assert (Hids : NoDup (int_id py_int <$> children coll')).
  { rewrite Hch, fmap_app. apply NoDup_app. split_and!; [done| |].
    - intros x (t & -> & Ht)%list_elem_of_fmap (t' & Hx & Ht')%list_elem_of_fmap.
      destruct (Hrange t Ht) as (m & Hm & ? & ?). destruct (Hnew t' Ht') as (j & Hj).
      rewrite Hm, Hj in Hx. injection Hx as ->. lia.
    - rewrite int_id_fmap, clones_ids, <- list_fmap_compose. apply NoDup_fmap_2_strong; [|apply NoDup_seq].
      intros i j _ _. simpl. rewrite !Hint. intros [= ?]. lia. }
  split_and!; [|done|].
  - rewrite int_id_fmap in Hids. by apply NoDup_fmap_1 in Hids.
  - exists (clones (n + 1) srcs). split; [done|]. intros t t' Ht Ht'.
    destruct (Hrange t Ht) as (m & Hm & ? & ?). destruct (Hnew t' Ht') as (j & Hj).
    exists m, (n + 1 + Z.of_nat j). split_and!; [done..|lia].
Qed.


(** C6.  When [root[2][0]] or [root[1]] is missing the run raises
    [IndexError] and the tree is the one it was given, with no job recorded;
    and an [IndexError] is never raised later than that: whenever the run
    ends in one, the tree is untouched. *)
Theorem structural_error_before_mutation :
  (∀ fuel root, root_playlists root = None ∨ root_collection root = None →
     main py_int isfile fuel root = Some (Raised IndexError (root, [])))
  ∧ (∀ fuel root doc jobs,
       main py_int isfile fuel root = Some (Raised IndexError (doc, jobs)) →
       doc = root ∧ jobs = []
       ∧ (root_playlists root = None ∨ root_collection root = None)).
Proof.
  split.
  - intros fuel root H. unfold main.
    destruct (root_playlists root) as [pl|] eqn:Hpl; [|done].
    destruct H as [?|H]; [done|].
    apply root_playlists_collection in Hpl as [? ?]. congruence.
  - intros fuel root doc jobs. unfold main.
    destruct (root_playlists root) as [pl|] eqn:Hpl; [|intros [= <- <-]; auto].
    destruct (build_mirrors (children pl)) as [pls|e pls] eqn:Hm.
    2:{ intros [= -> _ _]. by apply mirror_pass_raises in Hm. }
    rewrite root_collection_with_playlists.
    destruct (root_playlists_collection _ _ Hpl) as [coll ->].
    destruct (ET.get coll "Entries") as [entries|]; [|done].
    destruct (py_int entries) as [n|]; [|done].
    destruct (track_loop _ _ _ _) as [[st|e st]|] eqn:Hloop; [done| |done].
    intros [= -> _ _]. by apply track_loop_raises in Hloop.
Qed.


(** C9.  The loop reaches the clones it appended, since it walks the
    collection by position, but a clone is never a conversion source: its
    location ends in .mp3, so the turn leaves the state as it is.  With
    enough fuel the loop over the growing collection therefore ends with the
    result of the turns for the tracks that were there at the start, and
    [main] returns. *)
Theorem clones_not_revisited :
  (∀ t c x st, track_step isfile (clone_track t c (mp3_path x)) st = Done st)
  ∧ (∀ st fuel, (2 * length (collection st) < fuel)%nat →
       track_loop isfile fuel 0 st
       = Some (for_each (track_step isfile) (collection st) st))
  ∧ (∀ root, ∃ fuel r, main py_int isfile fuel root = Some r).
Proof.
  split_and!.
  - intros t c x st. apply copy_skipped, clone_is_copy.
  - intros st fuel Hfuel.
    apply (track_loop_originals isfile (collection st) [] [] st fuel);
      [by rewrite app_nil_r|constructor|simpl; lia].
  - intros root. unfold main.
    destruct (root_playlists root) as [pl|]; [|by eexists O, _].
    destruct (build_mirrors (children pl)) as [pls|]; [|by eexists O, _].
    destruct (root_collection _) as [coll|]; [|by eexists O, _].
    destruct (ET.get coll "Entries") as [entries|]; [|by eexists O, _].
    destruct (py_int entries) as [n|]; [|by eexists O, _].
    exists (S (2 * length (children coll))).
    rewrite (track_loop_originals isfile (children coll) [] []);
      [|by rewrite app_nil_r|constructor|simpl; lia].
    destruct (for_each _ _ _); eauto.
Qed.


End Claims.

Section PassClaims.

Variable isfile : string → bool.

(** C8.  Every track that the pass appends is the copy of a track [t] of the
    collection (same tag, same children) with [TrackID] set to the text of
    the id allocated to it, [Location] set to the prefix followed by the
    escaped path of the MP3 file, [Kind] set to "MP3 File", [BitRate] set to
    "320", and every other attribute as in [t]. *)
Theorem clone_overrides_four_fields fuel st st' :
  track_loop isfile fuel 0 st = Some (Done st') →
  ∃ new, collection st' = collection st ++ new
    ∧ ∀ i t', new !! i = Some t' →
        ∃ t raw, t ∈ collection st
          ∧ ET.get t "Location" = Some raw
          ∧ tag t' = tag t ∧ children t' = children t
          ∧ ET.get t' "TrackID" = Some (PyStr.str (currId st + Z.of_nat i))
          ∧ ET.get t' "Location"
            = Some (LOCALHOST_PREFIX +:+ escape_for_xml (mp3_path (flac_path raw)))
          ∧ ET.get t' "Kind" = Some "MP3 File"
          ∧ ET.get t' "BitRate" = Some "320"
          ∧ ∀ k, k ∉ ["TrackID"; "Location"; "Kind"; "BitRate"] →
                 ET.get t' k = ET.get t k.
Proof.
  intros Hloop. apply track_loop_result in Hloop. symmetry in Hloop.
  apply track_pass_clones in Hloop as (srcs & Hsub & Hloc & Hc & _).
  exists (clones (currId st) srcs). split; [done|]. intros i t' Hi.
  rewrite clones_lookup in Hi. destruct (srcs !! i) as [t|] eqn:Ht; [|done].
  injection Hi as <-. apply list_elem_of_lookup_2 in Ht.
  destruct (proj1 (Forall_forall _ _) Hloc t Ht) as [raw Hraw].
  exists t, raw. unfold clone_of, clone_track, source_path. rewrite Hraw. cbn [default].
  split_and!; [by eapply elem_of_sublist|try done; try by rewrite !get_set..].
  - intros k Hk. rewrite !get_set.
    repeat (case_decide; [subst k; exfalso; apply Hk; set_solver|]). done.
Qed.


End PassClaims.

(** C3.  In a section whose names are pairwise distinct, once the mirror
    pass has run there is exactly one node named [p ++ "_MP3"] for every
    playlist [p] that is not itself named as a mirror; where a node of that
    name was there before, none is created; and a second run of the pass on
    the result adds nothing. *)
Theorem mirror_pass_exactly_one pls pls' :
  NoDup (playlist_names pls) →
  build_mirrors pls = Done pls' →
  (∃ new, pls' = pls ++ new
     ∧ ∀ P p, P ∈ pls → ET.get P "Name" = Some p → PyStr.endswith p "_MP3" = false →
         length (filter (named (p +:+ "_MP3")) pls') = 1%nat
         ∧ (Some (p +:+ "_MP3") ∈ playlist_names pls →
            filter (named (p +:+ "_MP3")) new = []))
  ∧ build_mirrors pls' = Done pls'.
Proof.
  intros Hnd Hrun. unfold build_mirrors in Hrun.
  destruct (mirror_pass_done _ _ _ _ Hrun) as (new & -> & Hnew & _ & Hsome).
  set (names := playlist_names pls) in *.
  assert (Hin : ∀ m, Some m ∈ playlist_names new ↔
                     ∃ a, a ∈ names ∧ needs_mirror names a = Some m).
  { intros m. rewrite Hnew, list_elem_of_fmap. setoid_rewrite list_elem_of_omap.
    split; [intros (? & [= <-] & ?)|intros ?]; eauto. }
  split.
  - exists new. split; [done|]. intros P p HP Hp Hend.
    assert (Hpn : Some p ∈ names).
    { rewrite <- Hp. apply list_elem_of_fmap. eauto. }
    assert (Hnm : needs_mirror names (Some p)
                  = if bool_decide (Some (p +:+ "_MP3") ∈ names) then None
                    else Some (p +:+ "_MP3")).
    { simpl. by rewrite Hend. }
    rewrite filter_app, length_app, !count_named. fold names.
    destruct (decide (Some (p +:+ "_MP3") ∈ names)) as [Hpre|Hpre].
    + rewrite bool_decide_true in Hnm by done.
      assert (Hno : Some (p +:+ "_MP3") ∉ playlist_names new).
      { rewrite Hin. intros (a & Ha & Hm).
        assert (a = Some p) as ->; [|congruence].
        destruct a as [q|]; [|done]. simpl in Hm. repeat (case_match; try done).
        injection Hm as Hm. by apply str_app_inv_tail in Hm as ->. }
      rewrite count_once, count_absent by done. split; [done|]. intros _.
      apply length_zero_iff_nil. by rewrite count_named, count_absent.
    + rewrite bool_decide_false in Hnm by done.
      rewrite count_absent by done. split; [|done].
      apply count_once.
      * rewrite Hnew. apply NoDup_fmap_2; [apply _|]. by apply NoDup_wanted.
      * apply Hin. eauto.
  - unfold build_mirrors. apply mirror_pass_noop.
    intros a. rewrite playlist_names_app. fold names. intros [Ha|Ha]%elem_of_app.
    + pose proof (proj1 (Forall_forall _ _) Hsome a Ha) as [p ->].
      exists p. split; [done|].
      destruct (PyStr.endswith p "_MP3") eqn:Hend; [by left|right].
      apply elem_of_app.
      destruct (decide (Some (p +:+ "_MP3") ∈ names)); [by left|right].
      apply Hin. exists (Some p). split; [done|]. simpl.
      by rewrite Hend, bool_decide_false.
    + destruct a as [m|].
      * apply Hin in Ha as (a & _ & Ha). exists m. split; [done|left].
        by eapply needs_mirror_ends.
      * rewrite Hnew in Ha. apply list_elem_of_fmap in Ha as (? & ? & ?). done.
Qed.

(** C7. [unescape_from_xml] turns the tokens %20, %26 and %27 into a blank,
    an ampersand and an apostrophe and copies every character at which none
    of these tokens starts; [escape_for_xml] turns a blank, an ampersand and a
    comma into %20, %26 and %27 and copies every other character; the two are
    not inverses of each other: unescaping an escaped text never gives the
    text back when it holds a comma, as for "a,b". *)
Theorem path_codec_asymmetric :
  (unescape_from_xml EmptyString = EmptyString
   ∧ (∀ r, unescape_from_xml ("%20" +:+ r) = " " +:+ unescape_from_xml r)
   ∧ (∀ r, unescape_from_xml ("%26" +:+ r) = "&" +:+ unescape_from_xml r)
   ∧ (∀ r, unescape_from_xml ("%27" +:+ r) = "'" +:+ unescape_from_xml r)
   ∧ (∀ c r, token_ahead (String c r) = false →
             unescape_from_xml (String c r) = String c (unescape_from_xml r)))
  ∧ (escape_for_xml EmptyString = EmptyString
     ∧ (∀ c r, escape_for_xml (String c r) = escape_char c +:+ escape_for_xml r)
     ∧ escape_char " " = "%20" ∧ escape_char "&" = "%26" ∧ escape_char "," = "%27"
     ∧ (∀ c, c ≠ " "%char → c ≠ "&"%char → c ≠ ","%char →
             escape_char c = String c EmptyString))
  ∧ (unescape_from_xml (escape_for_xml "a,b") = "a'b"
     ∧ ∀ s, PyStr.contains "," s = true → unescape_from_xml (escape_for_xml s) ≠ s).
Proof.
  split; [|split].
  - split_and!; auto using unescape_nil, unescape_20, unescape_26, unescape_27, unescape_other.
  - split_and!; [done|apply escape_cons|done..|].
    intros c ???. unfold escape_char. by rewrite !bool_decide_false.
  - split; [done|]. intros s Hs Heq.
    pose proof (unescape_no_comma _ (escape_no_comma s)) as H.
    rewrite Heq in H. congruence.
Qed.

(** C2.  The claim fails on [borrowed], where a playlist name holds
    apostrophes.  The one track is held by the second playlist only, which
    is not named as a mirror and whose mirror by name is the third node.
    The run completes and converts the track under the new id 2; the text
    of the lookup of line 176 reads as two tests of [Name] against
    [X_MP3], so the entry goes to the mirror created for the first
    playlist, which never held the id, and the third node gains nothing. *)
Theorem quoted_name_borrows_mirror :
  main PyStr.int_dec disk_all 3 borrowed = Some (Done (borrowed_out, [house_job]))
  ∧ has_key "1" (playlist "X" []) = false
  ∧ has_key "1" (playlist borrowed_name ["1"]) = true
  ∧ is_mirror (playlist borrowed_name ["1"]) = false
  ∧ ET.query "Name" (borrowed_name +:+ "_MP3") = Some [("Name", "X_MP3"); ("Name", "X_MP3")]
  ∧ (children <$> root_playlists borrowed_out)
    = Some [playlist "X" []; playlist borrowed_name ["1"];
            playlist (borrowed_name +:+ "_MP3") [];
            ET.append (new_entry 2) (mirror "X_MP3" "0" [])].
Proof. split_and!; vm_compute; reflexivity. Qed.

(** C10.  The claim fails on [split], where a playlist name holds
    apostrophes.  The mirror pass completes: its lookup for the second
    name reads as [Name] is [House] and [Type] is [1], finds the first
    playlist, and a mirror is created.  The one playlist that holds the id
    of the track is not named as a mirror.  The lookup of line 177 for it
    reads as [Name] is [House] and [Type] is [1_MP3], finds nothing, and
    the run stops at line 178 with [TypeError]. *)
Theorem quoted_name_loses_mirror :
  build_mirrors [playlist "House" []; playlist split_name ["1"]] = Done split_mirrored
  ∧ has_key "1" (playlist "House" []) = false
  ∧ has_key "1" (playlist split_name ["1"]) = true
  ∧ is_mirror (playlist split_name ["1"]) = false
  ∧ ET.query "Name" (split_name +:+ "_MP3") = Some [("Name", "House"); ("Type", "1_MP3")]
  ∧ ET.first [("Name", "House"); ("Type", "1_MP3")] split_mirrored = None
  ∧ route (Some "1") 2 split_mirrored = Raised TypeError (split_mirrored, true)
  ∧ main PyStr.int_dec disk_all 3 split
    = Some (Raised TypeError (library "1" [house_track] split_mirrored, [])).
Proof. split_and!; vm_compute; reflexivity. Qed.

(** * The claims on the scenario of the specification *)

(** C1 as the specification words it fails on [mirror_only]: the track is
    held by a playlist named as a mirror only, so it is not eligible as
    specified, and the run converts it all the same. *)
Lemma mirror_only_track_is_converted :
  eligible_as_specified disk_all [playlist "A_MP3" ["1"]; playlist "A_MP3_MP3" []] house_track
  = false
  ∧ eligible disk_all [playlist "A_MP3" ["1"]; playlist "A_MP3_MP3" []] house_track = true
  ∧ main PyStr.int_dec disk_all 3 mirror_only = Some (Done (mirror_only_out, [house_job]))
  ∧ (children <$> root_collection mirror_only_out) = Some [house_track; house_clone].
Proof. split_and!; vm_compute; reflexivity. Qed.

(** The scenario meets the conditions on the ids. *)
Lemma house_mirrors_hold_no_source : mirrors_hold_no_source [house_playlist] [house_track].
Proof. intros pl t k ->%list_elem_of_singleton _ _ _. reflexivity. Qed.

Lemma house_ids_literal : literal_ids [house_track].
Proof. intros t k ->%list_elem_of_singleton [= <-]. reflexivity. Qed.

(** C1, amended, on the scenario: the one track is converted. *)
Lemma converted_iff_eligible_witness :
  fresh_ids (1 + 1) [house_track]
  ∧ literal_ids [house_track]
  ∧ ∃ coll',
      root_collection house_out = Some coll'
      ∧ children coll'
        = [house_track]
          ++ clones (1 + 1)
               (filter (λ t, eligible disk_all [house_playlist] t = true) [house_track])
      ∧ [house_job]
        = foldl add_job []
            (filter (λ t, eligible disk_all [house_playlist] t = true) [house_track]).
Proof.
  split; [exact house_ids_fresh|]. split; [exact house_ids_literal|].
  exact (converted_iff_eligible PyStr.int_dec disk_all 3 house house_out [house_job]
           (root_node [house_playlist]) (collection_node "1" [house_track]) 1
           eq_refl eq_refl eq_refl house_ids_fresh house_ids_literal house_run).
Defined.

(** C3 on [three_playlists]: one mirror is added, and a second run adds none. *)
Lemma mirror_pass_exactly_one_witness :
  NoDup (playlist_names three_playlists)
  ∧ build_mirrors three_playlists = Done (three_playlists ++ [house_mirror []])
  ∧ build_mirrors (three_playlists ++ [house_mirror []])
    = Done (three_playlists ++ [house_mirror []]).
Proof.
  split_and!; [exact three_playlists_NoDup|exact three_playlists_mirrors|].
  exact (proj2 (mirror_pass_exactly_one three_playlists _
                  three_playlists_NoDup three_playlists_mirrors)).
Defined.

(** C4 on the scenario. *)
Lemma entries_counts_new_tracks_witness :
  ∃ coll coll' entries n new,
    root_collection house = Some coll
    ∧ ET.get coll "Entries" = Some entries ∧ PyStr.int_dec entries = Some n
    ∧ root_collection house_out = Some coll'
    ∧ children coll' = children coll ++ new
    ∧ (λ t, ET.get t "TrackID") <$> new
      = (λ j, Some (PyStr.str (n + 1 + Z.of_nat j))) <$> seq 0 (length new)
    ∧ ET.get coll' "Entries" = Some (PyStr.str (n + Z.of_nat (length new))).
Proof.
  exact (entries_counts_new_tracks PyStr.int_dec disk_all 3 house house_out [house_job]
           house_run).
Defined.

(** C5 on the scenario: the ids 1 and 2. *)
Lemma track_ids_stay_unique_witness :
  dense_ids PyStr.int_dec (collection_node "1" [house_track])
  ∧ NoDup ((λ t, ET.get t "TrackID") <$> [house_track; house_clone])
  ∧ NoDup (int_id PyStr.int_dec <$> [house_track; house_clone]).
Proof.
  split; [exact house_dense|].
  destruct (track_ids_stay_unique PyStr.int_dec disk_all 3 house house_out [house_job]
              (collection_node "1" [house_track])
              (collection_node "2" [house_track; house_clone])
              int_dec_str eq_refl house_dense house_run eq_refl) as (Hs & Hn & _).
  exact (conj Hs Hn).
Defined.

(** C8 on the scenario. *)
Lemma clone_overrides_four_fields_witness :
  track_loop disk_all 3 0 house_state = Some (Done house_state_out)
  ∧ ∃ new, collection house_state_out = collection house_state ++ new
      ∧ ∀ i t', new !! i = Some t' →
          ∃ t, t ∈ collection house_state
               ∧ ET.get t' "TrackID" = Some (PyStr.str (2 + Z.of_nat i))
               ∧ ET.get t' "Kind" = Some "MP3 File"
               ∧ ET.get t' "BitRate" = Some "320"
               ∧ ∀ k, k ∉ ["TrackID"; "Location"; "Kind"; "BitRate"] →
                      ET.get t' k = ET.get t k.
Proof.
  split; [exact house_track_loop|].
  destruct (clone_overrides_four_fields disk_all 3 house_state house_state_out
              house_track_loop) as (new & Hnew & Hall).
  exists new. split; [exact Hnew|]. intros i t' Hi.
  destruct (Hall i t' Hi) as (t & raw & Ht & _ & _ & _ & Hid & _ & Hkind & Hrate & Hrest).
  exists t. exact (conj Ht (conj Hid (conj Hkind (conj Hrate Hrest)))).
Defined.

(** * Further properties of the code *)

(** ** More on strings and file names *)

Lemma str_take_drop n s : PyStr.take n s +:+ PyStr.drop n s = s.
Proof.
  revert s. induction n as [|n IH]; intros s; [done|].
  destruct s as [|c s]; [done|]. cbn [PyStr.take PyStr.drop].
  by rewrite str_app_cons, IH.
Qed.

Lemma str_app_inv_head p s t : p +:+ s = p +:+ t → s = t.
Proof. induction p as [|c p IH]; [done|]. rewrite !str_app_cons. intros [= H]. auto. Qed.

Lemma rfind_absent c s : PyStr.contains c s = false → PyStr.rfind c s = -1.
Proof.
  induction s as [|a s IH]; [done|]. cbn [PyStr.contains PyStr.rfind].
  intros [Ha Hs]%orb_false_elim. by rewrite IH, Ha.
Qed.

(** From the last occurrence on, the text is the character and a rest that
    holds it no more. *)
Lemma rfind_drop c s :
  0 ≤ PyStr.rfind c s →
  ∃ rest, PyStr.drop (Z.to_nat (PyStr.rfind c s)) s = String c rest
          ∧ PyStr.contains c rest = false.
Proof.
  induction s as [|a s IH]; [done|]. cbn [PyStr.rfind].
  destruct (0 <=? PyStr.rfind c s) eqn:E.
  - apply Z.leb_le in E. intros _. destruct (IH E) as (rest & Hd & Hr).
    exists rest. split; [|done].
    replace (Z.to_nat (PyStr.rfind c s + 1)) with (S (Z.to_nat (PyStr.rfind c s))) by lia.
    done.
  - apply Z.leb_gt in E. case_bool_decide as Ha; [|lia]. subst a. intros _.
    exists s. split; [done|].
    destruct (PyStr.contains c s) eqn:Hc; [|done].
    exfalso. clear IH. revert E. induction s as [|b s IHs]; [done|].
    cbn [PyStr.rfind PyStr.contains] in *.
    destruct (0 <=? PyStr.rfind c s) eqn:E'; [apply Z.leb_le in E'; lia|].
    case_bool_decide; [lia|]. simpl in Hc. apply Z.leb_gt in E'. intros _. by apply IHs.
Qed.

(** [splitext] cuts the path in two, and the extension is empty or a dot
    followed by characters other than a dot. *)
Lemma splitext_parts p :
  (splitext p).1 +:+ (splitext p).2 = p
  ∧ ((splitext p).2 = EmptyString
     ∨ ∃ rest, (splitext p).2 = String "." rest ∧ PyStr.contains "." rest = false).
Proof.
  unfold splitext. destruct (_ && _) eqn:Hc; cbn [fst snd].
  - split; [apply str_take_drop|right].
    apply andb_prop in Hc as [Hlt%Z.ltb_lt _]. apply rfind_drop.
    pose proof (rfind_bounds backslash p). pose proof (rfind_bounds "/" p). lia.
  - split; [apply str_app_nil_r|by left].
Qed.

Lemma lower_char_absent x e t :
  PyStr.lower e = t → PyStr.lower_ascii x = x →
  PyStr.contains x t = false → PyStr.contains x e = false.
Proof.
  revert t. induction e as [|c e IH]; intros t <- Hx Ht; [done|].
  cbn [PyStr.lower PyStr.contains] in *. apply orb_false_elim in Ht as [Hc Ht].
  rewrite (IH _ eq_refl Hx Ht), orb_false_r. apply bool_decide_eq_false.
  intros ->. rewrite Hx in Hc. by apply bool_decide_eq_false in Hc.
Qed.

Lemma lower_dot c : PyStr.lower_ascii c = "."%char → c = "."%char.
Proof. destruct c as [[] [] [] [] [] [] [] []]; vm_compute; congruence. Qed.

(** What [is_flac] says of the raw path: it ends in an extension that reads
    [.flac] in lower case, which holds neither a percent sign nor a
    separator nor a second dot. *)
Lemma is_flac_parts raw :
  is_flac raw = true →
  ∃ stem e4, raw = stem +:+ String "." e4
    ∧ PyStr.lower e4 = "flac"
    ∧ PyStr.contains "%" e4 = false ∧ PyStr.contains "." e4 = false
    ∧ PyStr.contains "/" e4 = false ∧ PyStr.contains backslash e4 = false.
Proof.
  unfold is_flac. intros H%bool_decide_eq_true.
  destruct (splitext_parts raw) as [Hparts _].
  destruct (splitext raw).2 as [|c e4] eqn:He; [done|].
  cbn [PyStr.lower] in H. injection H as Hc%lower_dot He4. subst c.
  exists (splitext raw).1, e4. split_and!; [done|done|..];
    by eapply lower_char_absent.
Qed.

Lemma token_ahead_no_percent c s : c ≠ "%"%char → token_ahead (String c s) = false.
Proof.
  intros Hc. unfold token_ahead. rewrite !str_prefix_cons.
  by rewrite !decide_False by congruence.
Qed.

Lemma unescape_no_percent s :
  PyStr.contains "%" s = false → unescape_from_xml s = s.
Proof.
  induction s as [|c s IH]; [done|]. cbn [PyStr.contains].
  intros [Hc%bool_decide_eq_false Hs]%orb_false_elim.
  rewrite unescape_other by by apply token_ahead_no_percent. by rewrite IH.
Qed.

(** A token never straddles the dot of an extension. *)
Lemma token_ahead_app_dot r e : token_ahead (r +:+ String "." e) = token_ahead r.
Proof.
  unfold token_ahead.
  destruct r as [|a [|b [|c r]]]; rewrite ?str_app_cons;
    change (EmptyString +:+ ?x) with x; rewrite ?str_prefix_cons;
    repeat case_decide; subst; try done.
  all: rewrite ?str_prefix_nil; done.
Qed.

Lemma token_ahead_inv s :
  token_ahead s = true →
  ∃ r, s = "%20" +:+ r ∨ s = "%26" +:+ r ∨ s = "%27" +:+ r.
Proof.
  unfold token_ahead. intros [[H|H]%orb_prop|H]%orb_prop;
    apply str_prefix_inv in H as [r ->]; eauto.
Qed.

(** Unescaping leaves an extension without percent sign where it is. *)
Lemma unescape_app_ext r e :
  PyStr.contains "%" e = false →
  unescape_from_xml (r +:+ String "." e) = unescape_from_xml r +:+ String "." e.
Proof.
  intros He. remember (String.length r) as n eqn:Hn. revert r Hn.
  induction (lt_wf n) as [n _ IH]. intros r ->.
  destruct r as [|c r].
  { change (EmptyString +:+ ?x) with x. by rewrite unescape_no_percent. }
  destruct (token_ahead (String c r)) eqn:Htok.
  - apply token_ahead_inv in Htok as (r' & Hr).
    assert (Hlen : (String.length r' < String.length (String c r))%nat).
    { destruct Hr as [->|[->| ->]]; rewrite str_length_app; simpl; lia. }
    destruct Hr as [->|[->| ->]]; rewrite str_app_assoc;
      rewrite ?unescape_20, ?unescape_26, ?unescape_27, (IH _ Hlen r' eq_refl);
      by rewrite str_app_assoc.
  - rewrite str_app_cons, !unescape_other, str_app_cons.
    + f_equal. apply (IH (String.length r)); [simpl; lia|done].
    + done.
    + by rewrite <- str_app_cons, token_ahead_app_dot.
Qed.

Lemma str_app_prefix_of u e p w d e' :
  e = String d e' → PyStr.contains d p = false →
  u +:+ e = p +:+ w → ∃ u', u = p +:+ u'.
Proof.
  intros -> . revert u. induction p as [|a p IH]; intros u Hd H; [by exists u|].
  cbn [PyStr.contains] in Hd. apply orb_false_elim in Hd as [Ha%bool_decide_eq_false Hd].
  destruct u as [|b u].
  - change (EmptyString +:+ ?x) with x in H. rewrite str_app_cons in H. by injection H as -> _.
  - rewrite !str_app_cons in H. injection H as -> H.
    destruct (IH u Hd H) as [u' ->]. by exists u'.
Qed.

(** The path on disk of a FLAC location keeps the extension of the
    location. *)
Lemma flac_path_parts stem e :
  PyStr.contains "%" e = false →
  ∃ v, flac_path (stem +:+ String "." e) = v +:+ String "." e.
Proof.
  intros He. unfold flac_path. rewrite unescape_app_ext by done.
  destruct (String.prefix _ _) eqn:Hp; [|eauto].
  apply str_prefix_inv in Hp as [w Hw].
  destruct (str_app_prefix_of _ _ LOCALHOST_PREFIX _ "."%char e eq_refl eq_refl Hw)
    as [u' Hu].
  exists u'. by rewrite Hu, str_app_assoc, str_drop_app.
Qed.

Lemma mp3_path_ends p : PyStr.endswith (mp3_path p) ".mp3" = true.
Proof. apply endswith_app. Qed.

(** ** The output file *)

(** X1.  The output path that [main] makes up when the option [-o] is left
    out or empty ends in [_new.xml] and is never the input path; so the
    library that is read is written over only when [-o] names it. *)
Theorem default_output_spares_input (input : string) :
  PyStr.endswith (default_output input) "_new.xml" = true
  ∧ default_output input ≠ input
  ∧ ∀ o, output_path o input = input → o = Some input.
Proof.
  assert (Hne : default_output input ≠ input).
  { unfold default_output. destruct (splitext_parts input) as [Hcat Hext].
    intros Heq. rewrite <- Hcat in Heq at 2.
    apply str_app_inv_head in Heq.
    destruct Hext as [He | (rest & He & _)]; rewrite He in Heq; discriminate. }
  split_and!; [apply endswith_app|done|].
  intros [o|]; cbn [output_path]; [|done].
  case_bool_decide; [done|]. by intros ->.
Qed.

(** ** The two escapes, there and back *)

Lemma unescape_app_plain p x :
  PyStr.contains "%" p = false →
  unescape_from_xml (p +:+ x) = p +:+ unescape_from_xml x.
Proof.
  induction p as [|c p IH]; [done|]. cbn [PyStr.contains].
  intros [Hc%bool_decide_eq_false Hp]%orb_false_elim.
  rewrite !str_app_cons, unescape_other.
  - by rewrite IH.
  - by apply token_ahead_no_percent.
Qed.

Lemma str_prefix_escape t s :
  PyStr.contains " " t = false → PyStr.contains "&" t = false →
  PyStr.contains "," t = false → PyStr.contains "%" t = false →
  String.prefix t (escape_for_xml s) = String.prefix t s.
Proof.
  revert s. induction t as [|a t IH]; intros s H1 H2 H3 H4; [by rewrite !str_prefix_nil|].
  cbn [PyStr.contains] in H1, H2, H3, H4.
  apply orb_false_elim in H1 as [Ha1%bool_decide_eq_false H1].
  apply orb_false_elim in H2 as [Ha2%bool_decide_eq_false H2].
  apply orb_false_elim in H3 as [Ha3%bool_decide_eq_false H3].
  apply orb_false_elim in H4 as [Ha4%bool_decide_eq_false H4].
  destruct s as [|c s]; [done|]. rewrite escape_cons. unfold escape_char.
  repeat case_bool_decide; subst; rewrite ?str_app_cons, !str_prefix_cons;
    rewrite ?decide_False by done; try done.
  change (EmptyString +:+ ?x) with x. case_decide; [by apply IH|done].
Qed.

Lemma token_ahead_escape s :
  token_ahead (String "%" (escape_for_xml s)) = token_ahead (String "%" s).
Proof.
  unfold token_ahead. rewrite !str_prefix_token.
  by rewrite !str_prefix_escape by done.
Qed.

Lemma unescape_escape_cons c s :
  unescape_from_xml (escape_for_xml (String c s))
  = if bool_decide (c = ","%char) then String "'" (unescape_from_xml (escape_for_xml s))
    else if token_ahead (String c s)
         then String (if String.prefix "%20" (String c s) then " "
                      else if String.prefix "%26" (String c s) then "&" else "'")%char
                (unescape_from_xml (escape_for_xml (PyStr.drop 2 s)))
         else String c (unescape_from_xml (escape_for_xml s)).
Proof.
  case_bool_decide as Hcomma.
  { subst c. rewrite escape_cons. apply unescape_27. }
  destruct (token_ahead (String c s)) eqn:Htok.
  - apply token_ahead_inv in Htok as (r & Hr).
    destruct Hr as [Hr|[Hr|Hr]]; rewrite !str_app_cons in Hr;
      change (EmptyString +:+ r) with r in Hr; injection Hr as -> ->;
      rewrite !str_prefix_cons; repeat (case_decide; try done);
      rewrite ?str_prefix_nil;
      [exact (unescape_20 (escape_for_xml r))|exact (unescape_26 (escape_for_xml r))
      |exact (unescape_27 (escape_for_xml r))].
  - rewrite escape_cons. unfold escape_char.
    case_bool_decide; [subst; apply unescape_20|].
    case_bool_decide; [subst; apply unescape_26|].
    rewrite bool_decide_false by done.
    rewrite str_app_cons. change (EmptyString +:+ ?x) with x.
    apply unescape_other.
    destruct (decide (c = "%"%char)) as [->|Hpc].
    + by rewrite token_ahead_escape.
    + by apply token_ahead_no_percent.
Qed.

(** X2.  The location written into a cloned track is read back (lines
    150-153) as the unescaped escaped path, and that is the path itself
    exactly when the path holds no comma and none of the tokens [%20],
    [%26], [%27]. *)
Theorem escaped_location_reads_back (p : string) :
  flac_path (LOCALHOST_PREFIX +:+ escape_for_xml p) = unescape_from_xml (escape_for_xml p)
  ∧ (unescape_from_xml (escape_for_xml p) = p
     ↔ PyStr.contains "," p = false ∧ tokens_free p = true).
Proof.
  split.
  { unfold flac_path. rewrite unescape_app_plain by done.
    rewrite str_prefix_app. apply str_drop_app. }
  induction p as [|c p IH]; [done|].
  rewrite unescape_escape_cons. cbn [PyStr.contains tokens_free].
  case_bool_decide as Hcomma.
  { subst c. split; [intros [=]|intros [[=] _]]. }
  cbn [orb].
  destruct (token_ahead (String c p)) eqn:Htok; cbn [negb andb].
  - split; [|intros [_ [=]]]. intros Heq. exfalso.
    apply token_ahead_inv in Htok as (r & [Hr|[Hr|Hr]]); rewrite !str_app_cons in Hr;
      injection Hr as -> ->; injection Heq as Hc _; by repeat case_match.
  - rewrite <- IH. split; [by intros [= ->]|by intros ->].
Qed.

(** ** The conversion jobs *)

Lemma last_dot_unique a e b f :
  PyStr.contains "." e = false → PyStr.contains "." f = false →
  a +:+ String "." e = b +:+ String "." f → a = b ∧ e = f.
Proof.
  intros He Hf Heq.
  assert (Hlen : String.length a = String.length b).
  { apply (f_equal (PyStr.rfind ".")) in Heq.
    rewrite !rfind_app_found in Heq
      by (cbn [PyStr.rfind]; rewrite ?(rfind_absent _ _ He), ?(rfind_absent _ _ Hf); done).
    cbn [PyStr.rfind] in Heq.
    rewrite (rfind_absent _ _ He), (rfind_absent _ _ Hf) in Heq. simpl in Heq. lia. }
  assert (a = b) as ->.
  { apply (f_equal (PyStr.take (String.length a))) in Heq.
    rewrite str_take_app in Heq. rewrite Hlen in Heq.
    by rewrite str_take_app in Heq. }
  apply str_app_inv_head in Heq. by injection Heq.
Qed.

(** No MP3 path is the path on disk of a FLAC location. *)
Lemma mp3_path_not_source x raw : is_flac raw = true → mp3_path x ≠ flac_path raw.
Proof.
  intros (stem & e4 & -> & Hlow & Hpc & Hdot & _)%is_flac_parts.
  destruct (flac_path_parts stem e4 Hpc) as [v ->]. unfold mp3_path.
  intros Heq. apply (last_dot_unique _ "mp3" _ e4) in Heq as [_ <-]; done.
Qed.

Lemma dict_set_keys k v d :
  (dict_set k v d).*1 ≡ₚ (if bool_decide (k ∈ d.*1) then d.*1 else d.*1 ++ [k]).
Proof.
  induction d as [|[k' v'] d IH]; [done|]. cbn [dict_set fmap list_fmap fst].
  destruct (decide (k' = k)) as [->|Hk].
  - rewrite (bool_decide_true (k = k)) by done.
    rewrite bool_decide_true by (apply elem_of_cons; by left). done.
  - rewrite (bool_decide_false (k' = k)) by done. cbn [fmap list_fmap fst].
    rewrite IH. destruct (decide (k ∈ d.*1)) as [Hin|Hin].
    + rewrite !bool_decide_true; [done|apply elem_of_cons; by right|done].
    + rewrite !bool_decide_false; [done| |done].
      intros [?|?]%elem_of_cons; congruence.
Qed.

Lemma dict_set_NoDup k v d : NoDup d.*1 → NoDup (dict_set k v d).*1.
Proof.
  intros Hd. rewrite dict_set_keys. case_bool_decide; [done|].
  apply NoDup_app. split_and!; [done| |apply NoDup_singleton].
  intros x Hx ->%list_elem_of_singleton. done.
Qed.

Lemma dict_set_elem k v d job : job ∈ dict_set k v d → job = (k, v) ∨ job ∈ d.
Proof.
  induction d as [|[k' v'] d IH]; cbn [dict_set].
  - intros ->%list_elem_of_singleton. by left.
  - case_bool_decide.
    + intros [->|?]%elem_of_cons; [by left|right; by right].
    + intros [->|[?|?]%IH]%elem_of_cons; [right; by left|by left|right; by right].
Qed.

Lemma for_each_invariant {A St} (I : St → Prop) (body : A → St → Res St) l s :
  (∀ a s, I s → I (res_state (body a s))) →
  I s → I (res_state (for_each body l s)).
Proof.
  intros Hbody. revert s. induction l as [|a l IH]; intros s Hs; [done|].
  rewrite for_each_cons. specialize (Hbody a s Hs).
  destruct (body a s); [by apply IH|done].
Qed.

Section Jobs.

Variable isfile : string → bool.

Lemma track_step_jobs t st :
  jobs_ok isfile (flacToMp3 st) →
  jobs_ok isfile (flacToMp3 (res_state (track_step isfile t st))).
Proof.
  intros Hst. unfold track_step.
  destruct (ET.get t "Location") as [raw|]; [|done].
  destruct (is_flac raw) eqn:Hflac; [|done]. cbn [negb].
  destruct (isfile (flac_path raw)) eqn:Hfile; [|done]. cbn [negb].
  destruct (route _ _ _) as [[pls [|]]|e [pls b]]; cbn [res_state flacToMp3]; [|done..].
  destruct Hst as [Hnd Hok]. split; [by apply dict_set_NoDup|].
  apply Forall_forall. intros job [->|Hin]%dict_set_elem.
  - split; [by exists raw|done].
  - by eapply Forall_forall in Hok.
Qed.

Lemma track_loop_jobs fuel st r :
  track_loop isfile fuel 0 st = Some r →
  jobs_ok isfile (flacToMp3 st) → jobs_ok isfile (flacToMp3 (res_state r)).
Proof.
  intros ->%track_loop_result Hst.
  apply (for_each_invariant (λ s, jobs_ok isfile (flacToMp3 s))); [|done].
  intros a s. apply track_step_jobs.
Qed.

Lemma main_jobs py_int fuel root r :
  main py_int isfile fuel root = Some r → jobs_ok isfile (res_state r).2.
Proof.
  assert (Hnil : jobs_ok isfile []) by (split; constructor).
  unfold main. intros Hrun.
  repeat match type of Hrun with
  | match ?x with _ => _ end = _ => destruct x eqn:?
  end; simplify_eq; try done.
  all: match goal with H : track_loop _ _ _ _ = _ |- _ => apply track_loop_jobs in H end;
    done.
Qed.

(** X3.  The jobs that a completed run hands to the converter are sound: no
    source file is listed twice, every source is a file found on disk,
    every target is the MP3 path of its source and ends in [.mp3], and no
    target is the source of a job (its own included), so no conversion
    writes over a file that is to be read. *)
Theorem jobs_are_sound py_int fuel root root' jobs :
  main py_int isfile fuel root = Some (Done (root', jobs)) →
  NoDup jobs.*1
  ∧ ∀ src dst, (src, dst) ∈ jobs →
      isfile src = true ∧ dst = mp3_path src ∧ PyStr.endswith dst ".mp3" = true
      ∧ ∀ src' dst', (src', dst') ∈ jobs → dst ≠ src'.
Proof.
  intros [Hnd Hok]%main_jobs. cbn [res_state snd] in *. split; [done|].
  intros src dst Hin.
  pose proof (proj1 (Forall_forall _ _) Hok _ Hin) as (_ & Hfile & Hdst).
  cbn [fst snd] in *. subst dst. split_and!; [done..|apply mp3_path_ends|].
  intros src' dst' Hin'.
  pose proof (proj1 (Forall_forall _ _) Hok _ Hin') as ((raw & Hflac & Hsrc) & _).
  cbn [fst] in Hsrc. rewrite Hsrc. by apply mp3_path_not_source.
Qed.

End Jobs.

Lemma jobs_are_sound_witness :
  NoDup [house_job].*1
  ∧ ∀ src dst, (src, dst) ∈ [house_job] →
      disk_all src = true ∧ dst = mp3_path src ∧ PyStr.endswith dst ".mp3" = true
      ∧ ∀ src' dst', (src', dst') ∈ [house_job] → dst ≠ src'.
Proof.
  exact (jobs_are_sound disk_all PyStr.int_dec 3 house house_out [house_job] house_run).
Defined.

(** ** What the track pass does to the playlists *)

Lemma extended_refl lo hi M : extended lo hi M M.
Proof. split_and!; [done..|]. exists []. by rewrite app_nil_r. Qed.

Lemma extended_all_refl lo hi pls : Forall2 (extended lo hi) pls pls.
Proof. induction pls; constructor; [apply extended_refl|done]. Qed.

Lemma extended_trans lo mid hi A B C :
  lo ≤ mid → mid ≤ hi →
  extended lo mid A B → extended mid hi B C → extended lo hi A C.
Proof.
  intros ?? (Ht & Ha & ex & Hc & Hex) (Ht' & Ha' & ex' & Hc' & Hex').
  split_and!; [congruence..|]. exists (ex ++ ex'). split.
  - by rewrite Hc', Hc, <- (assoc_L (++)).
  - apply Forall_app. split; (eapply Forall_impl; [done|]);
      intros e (j & ? & ->); exists j; split; [lia|done|lia|done].
Qed.

Lemma extended_all_trans lo mid hi A B C :
  lo ≤ mid → mid ≤ hi →
  Forall2 (extended lo mid) A B → Forall2 (extended mid hi) B C →
  Forall2 (extended lo hi) A C.
Proof.
  intros ?? HAB. revert C. induction HAB; intros C HBC; inversion HBC; subst;
    constructor; eauto using extended_trans.
Qed.

Lemma extended_append c M0 M :
  extended c (c + 1) M0 M → extended c (c + 1) M0 (ET.append (new_entry c) M).
Proof.
  intros (Ht & Ha & ex & Hc & Hex). split_and!; [done..|].
  exists (ex ++ [new_entry c]). cbn [ET.append children]. split.
  - by rewrite Hc, <- (assoc_L (++)).
  - apply Forall_app. split; [done|]. constructor; [|done]. exists c. split; [lia|done].
Qed.

Lemma extended_add_entry c j base cur :
  Forall2 (extended c (c + 1)) base cur →
  Forall2 (extended c (c + 1)) base (add_entry c j cur).
Proof.
  intros H. revert j. induction H as [|M0 M base cur HM H IH]; intros j; [constructor|].
  destruct j as [|j]; constructor; auto using extended_append.
Qed.

Lemma gained_extended lo hi base j cur cur' :
  gained base j cur → Forall2 (extended lo hi) cur cur' → gained base j cur'.
Proof.
  intros (i & M0 & M & pre & post & Hb & Hc & Hch) Hext.
  destruct (Forall2_lookup_l _ _ _ _ _ Hext Hc) as (M' & HM' & (_ & _ & ex & Hch' & _)).
  exists i, M0, M', pre, (post ++ ex). split_and!; [done..|].
  rewrite Hch', Hch. by rewrite <- !(assoc_L (++)).
Qed.

Lemma gained_base lo hi base j cur0 cur :
  Forall2 (extended lo hi) base cur0 → gained cur0 j cur → gained base j cur.
Proof.
  intros Hext (i & M0 & M & pre & post & Hb & Hc & Hch).
  destruct (Forall2_lookup_r _ _ _ _ _ Hext Hb) as (B & HB & (_ & _ & ex & Hch' & _)).
  exists i, B, M, (ex ++ pre), post. split_and!; [done..|].
  rewrite Hch, Hch'. by rewrite <- !(assoc_L (++)).
Qed.

Lemma for_each_done_inv {A St} (I : St → Prop) (body : A → St → Res St) l s s' :
  (∀ a s s1, I s → body a s = Done s1 → I s1) →
  I s → for_each body l s = Done s' → I s'.
Proof.
  intros Hbody. revert s. induction l as [|a l IH]; intros s Hs.
  - by intros [= <-].
  - rewrite for_each_cons. destruct (body a s) eqn:Hb; [|done]. eauto.
Qed.

Lemma route_step_inv origId c cur0 i st st1 :
  route_inv c cur0 st → route_step origId c i st = Done st1 → route_inv c cur0 st1.
Proof.
  intros Hinv [->|(pl & k & keys & pname & tests & j & x & _ & _ & _ & _ & _ & _ & Hfind & ->)]
    %route_step_done; [done|].
  apply first_lookup in Hfind as Hj.
  assert (Hext : Forall2 (extended c (c + 1)) cur0 st.1).
  { unfold route_inv in Hinv. destruct st.2; [apply Hinv|].
    rewrite Hinv. apply extended_all_refl. }
  split; cbn [fst snd]; [by apply extended_add_entry|].
  destruct (Forall2_lookup_r _ _ _ _ _ Hext Hj) as (M0 & HM0 & (_ & _ & ex & Hch & _)).
  exists j, M0, (ET.append (new_entry c) x), ex, []. split_and!; [done| |].
  - rewrite add_entry_lookup, Hj. simpl. by rewrite decide_True.
  - cbn [ET.append children]. by rewrite Hch, <- (assoc_L (++)).
Qed.

Lemma route_inv_done origId c cur0 cur' b' :
  route origId c cur0 = Done (cur', b') → route_inv c cur0 (cur', b').
Proof.
  apply (for_each_done_inv (route_inv c cur0)); [|done].
  intros i st st1. apply route_step_inv.
Qed.

Section Playlists.

Variable isfile : string → bool.

Lemma track_step_inv st0 t st st' :
  pass_inv st0 st → track_step isfile t st = Done st' → pass_inv st0 st'.
Proof.
  intros (Hle & Hext & Hg). unfold track_step.
  destruct (ET.get t "Location") as [raw|]; [|done].
  destruct (negb (is_flac raw)); [by intros [= <-]|].
  destruct (negb (isfile (flac_path raw))); [by intros [= <-]|].
  destruct (route _ _ _) as [[pls b]|e [pls b]] eqn:Hroute; [|done].
  apply route_inv_done in Hroute. unfold route_inv in Hroute. cbn [fst snd] in Hroute.
  destruct b; intros [= <-]; unfold pass_inv; cbn [currId playlists].
  - destruct Hroute as [Hext' Hg']. split_and!; [lia| |].
    + apply (extended_all_trans _ (currId st) _ _ (playlists st)); [lia|lia|done..].
    + intros j Hj. destruct (decide (j = currId st)) as [->|Hne].
      * by eapply gained_base.
      * eapply gained_extended; [|done]. apply Hg. lia.
  - by subst pls.
Qed.

Lemma track_pass_inv l st st' :
  for_each (track_step isfile) l st = Done st' → pass_inv st st'.
Proof.
  apply (for_each_done_inv (pass_inv st)).
  - intros t s s1. apply track_step_inv.
  - unfold pass_inv. split_and!; [lia|apply extended_all_refl|lia].
Qed.

End Playlists.

Lemma extended_kept lo hi M0 M : extended lo hi M0 M → kept M0 M.
Proof. intros (? & ? & ex & Hch & _). unfold kept. split_and!; [done..|]. by exists ex. Qed.

Lemma extended_added lo hi M0 M e :
  extended lo hi M0 M → e ∈ added_entries M0 M → ∃ j, lo ≤ j < hi ∧ e = new_entry j.
Proof.
  intros (_ & _ & ex & Hch & Hex). unfold added_entries.
  rewrite Hch, drop_app_length. intros He. by eapply Forall_forall in Hex.
Qed.

Lemma entry_for_clone t c : entry_for (clone_of t c) = new_entry c.
Proof.
  unfold entry_for, new_entry, track_id, clone_of, clone_track.
  by rewrite !get_set.
Qed.

Lemma clones_elem c l t :
  t ∈ clones c l ↔ ∃ i s, l !! i = Some s ∧ t = clone_of s (c + Z.of_nat i).
Proof.
  rewrite list_elem_of_lookup. split.
  - intros [i Hi]. rewrite clones_lookup in Hi.
    destruct (l !! i) as [s|] eqn:Hs; [|done]. injection Hi as <-. by exists i, s.
  - intros (i & s & Hs & ->). exists i. by rewrite clones_lookup, Hs.
Qed.

Section Written.

Variable py_int : string → option Z.
Variable isfile : string → bool.

(** What a completed run has made of the playlists and of the collection. *)
Lemma main_playlists_inv fuel root root' jobs :
  main py_int isfile fuel root = Some (Done (root', jobs)) →
  ∃ pl coll mirrors srcs n st,
    root_playlists root = Some pl
    ∧ root_collection root = Some coll
    ∧ Forall (λ M, children M = []) mirrors
    ∧ root_playlists root' = Some (mkElement (tag pl) (attrib pl) (playlists st))
    ∧ root_collection root'
      = Some (mkElement (tag coll)
                (<["Entries" := PyStr.str (currId st - 1)]> (attrib coll)) (collection st))
    ∧ collection st = children coll ++ clones (n + 1) srcs
    ∧ currId st = n + 1 + Z.of_nat (length srcs)
    ∧ Forall2 (extended (n + 1) (currId st)) (children pl ++ mirrors) (playlists st)
    ∧ ∀ j, n + 1 ≤ j < currId st → gained (children pl ++ mirrors) j (playlists st).
Proof.
  intros (pl & coll & entries & n & pls & st & Hpl & Hcoll & _ & _ & Hm & Hloop & _
          & Hcoll' & Hpl')%main_done.
  apply mirror_pass_done in Hm as (mirrors & -> & _ & Hempty & _).
  apply track_loop_result in Hloop. symmetry in Hloop. cbn [collection] in Hloop.
  pose proof (track_pass_inv _ _ _ _ Hloop) as (_ & Hext & Hg).
  apply track_pass_clones in Hloop as (srcs & _ & _ & Hc & Hid).
  cbn [collection currId playlists] in *.
  by exists pl, coll, mirrors, srcs, n, st.
Qed.

(** X4.  Where no playlist name holds an apostrophe, a completed run
    removes and reorders nothing in the playlist section: every node of the
    input is at its place in the output with its tag, its attributes and
    its entries in their order, possibly followed by new entries; the nodes
    behind them are the mirrors that the run created. *)
Theorem playlists_are_kept fuel root root' jobs pl :
  root_playlists root = Some pl →
  literal_names (children pl) →
  main py_int isfile fuel root = Some (Done (root', jobs)) →
  ∃ pl' mirrors,
    root_playlists root' = Some pl'
    ∧ tag pl' = tag pl ∧ attrib pl' = attrib pl
    ∧ Forall (λ M, children M = []) mirrors
    ∧ Forall2 kept (children pl ++ mirrors) (children pl').
Proof.
  intros Hpl0 _
    (pl1 & coll & mirrors & srcs & n & st & Hpl & _ & Hempty & Hpl' & _ & _ & _ & Hext & _)
    %main_playlists_inv.
  assert (pl1 = pl) as -> by congruence.
  eexists _, mirrors. split_and!; [exact Hpl'|done..|].
  cbn [children]. eapply Forall2_impl; [exact Hext|]. intros M0 M. apply extended_kept.
Qed.

(** X5.  Where no playlist name holds an apostrophe, the entries added
    to the playlists in a completed run and the tracks added to the
    collection answer each other: every added entry carries the id of an
    added track, and every added track is referred to by an added entry. *)
Theorem entries_match_new_tracks fuel root root' jobs pl :
  root_playlists root = Some pl →
  literal_names (children pl) →
  main py_int isfile fuel root = Some (Done (root', jobs)) →
  ∃ pl' coll coll' mirrors new,
    root_playlists root' = Some pl'
    ∧ root_collection root = Some coll ∧ root_collection root' = Some coll'
    ∧ Forall (λ M, children M = []) mirrors
    ∧ children coll' = children coll ++ new
    ∧ (∀ i M0 M e,
         (children pl ++ mirrors) !! i = Some M0 → children pl' !! i = Some M →
         e ∈ added_entries M0 M → ∃ t, t ∈ new ∧ e = entry_for t)
    ∧ (∀ t, t ∈ new →
         ∃ i M0 M, (children pl ++ mirrors) !! i = Some M0 ∧ children pl' !! i = Some M
                   ∧ entry_for t ∈ added_entries M0 M).
Proof.
  intros Hpl0 _
    (pl1 & coll & mirrors & srcs & n & st & Hpl & Hcoll & Hempty & Hpl' & Hcoll' & Hc
     & Hid & Hext & Hg)%main_playlists_inv.
  assert (pl1 = pl) as -> by congruence.
  eexists _, coll, _, mirrors, (clones (n + 1) srcs).
  split_and!; [exact Hpl'|done|exact Hcoll'|done|exact Hc|..]; cbn [children].
  - intros i M0 M e HM0 HM He.
    pose proof (Forall2_lookup_lr _ _ _ _ _ _ Hext HM0 HM) as HMM.
    destruct (extended_added _ _ _ _ _ HMM He) as (j & Hj & ->).
    destruct (lookup_lt_is_Some_2 srcs (Z.to_nat (j - (n + 1)))) as [s Hs]; [lia|].
    exists (clone_of s j). split; [|by rewrite entry_for_clone].
    apply clones_elem. exists (Z.to_nat (j - (n + 1))), s. split; [done|]. f_equal. lia.
  - intros t (i & s & Hs & ->)%clones_elem.
    apply lookup_lt_Some in Hs.
    destruct (Hg (n + 1 + Z.of_nat i)) as (k & M0 & M & pre & post & HM0 & HM & Hch); [lia|].
    exists k, M0, M. split_and!; [done..|].
    unfold added_entries. rewrite Hch, drop_app_length, entry_for_clone.
    apply elem_of_app. right. by left.
Qed.

End Written.

Lemma house_names_literal : literal_names [house_playlist].
Proof. intros pl p ->%list_elem_of_singleton [= <-]. reflexivity. Qed.

Lemma playlists_are_kept_witness :
  ∃ pl' mirrors,
    root_playlists house_out = Some pl'
    ∧ tag pl' = tag (root_node [house_playlist])
    ∧ attrib pl' = attrib (root_node [house_playlist])
    ∧ Forall (λ M, children M = []) mirrors
    ∧ Forall2 kept (children (root_node [house_playlist]) ++ mirrors) (children pl').
Proof.
  exact (playlists_are_kept PyStr.int_dec disk_all 3 house house_out [house_job]
           (root_node [house_playlist]) eq_refl house_names_literal house_run).
Defined.

Lemma entries_match_new_tracks_witness :
  ∃ pl' coll coll' mirrors new,
    root_playlists house_out = Some pl'
    ∧ root_collection house = Some coll ∧ root_collection house_out = Some coll'
    ∧ Forall (λ M, children M = []) mirrors
    ∧ children coll' = children coll ++ new
    ∧ (∀ i M0 M e,
         (children (root_node [house_playlist]) ++ mirrors) !! i = Some M0 →
         children pl' !! i = Some M →
         e ∈ added_entries M0 M → ∃ t, t ∈ new ∧ e = entry_for t)
    ∧ (∀ t, t ∈ new →
         ∃ i M0 M, (children (root_node [house_playlist]) ++ mirrors) !! i = Some M0
                   ∧ children pl' !! i = Some M
                   ∧ entry_for t ∈ added_entries M0 M).
Proof.
  exact (entries_match_new_tracks PyStr.int_dec disk_all 3 house house_out [house_job]
           (root_node [house_playlist]) eq_refl house_names_literal house_run).
Defined.

(** ** The jobs and the tracks appended for them *)

Lemma dict_set_here k v d : (k, v) ∈ dict_set k v d.
Proof.
  induction d as [|[k' v'] d IH]; cbn [dict_set]; [by left|].
  case_bool_decide; [by left|by right].
Qed.

Lemma dict_set_other k v d job : job ∈ d → job.1 ≠ k → job ∈ dict_set k v d.
Proof.
  induction d as [|[k' v'] d IH]; cbn [dict_set]; [by intros ?%elem_of_nil|].
  intros [->|Hin]%elem_of_cons Hne; cbn [fst] in *.
  - rewrite bool_decide_false by done. by left.
  - case_bool_decide; right; auto.
Qed.

Lemma for_each_done_elem {A St} (I : St → Prop) (body : A → St → Res St) l s s' :
  (∀ a s s1, a ∈ l → I s → body a s = Done s1 → I s1) →
  I s → for_each body l s = Done s' → I s'.
Proof.
  revert s. induction l as [|a l IH]; intros s Hbody Hs.
  - by intros [= <-].
  - rewrite for_each_cons. destruct (body a s) eqn:Hb; [|done].
    apply IH.
    + intros a' sa sb Ha'. apply Hbody. by right.
    + eapply Hbody; [by left|done..].
Qed.

Lemma clone_location t c dst :
  ET.get (clone_track t c dst) "Location" = Some (location_of dst).
Proof. unfold clone_track. by rewrite !get_set. Qed.

Section JobsAndTracks.

Variable isfile : string → bool.

(** A turn of the track loop either leaves jobs and collection alone or
    records one job and appends its track. *)
Lemma track_step_job t st st' :
  track_step isfile t st = Done st' →
  (flacToMp3 st' = flacToMp3 st ∧ collection st' = collection st)
  ∨ (is_Some (ET.get t "Location")
     ∧ flacToMp3 st' = dict_set (source_path t) (mp3_path (source_path t)) (flacToMp3 st)
     ∧ collection st'
       = collection st ++ [clone_track t (currId st) (mp3_path (source_path t))]).
Proof.
  unfold track_step, source_path.
  destruct (ET.get t "Location") as [raw|]; [|done]. cbn [default].
  destruct (negb (is_flac raw)); [intros [= <-]; by left|].
  destruct (negb (isfile (flac_path raw))); [intros [= <-]; by left|].
  destruct (route _ _ _) as [[pls [|]]|e [pls b]]; [| |done]; intros [= <-].
  - right. by split_and!.
  - by left.
Qed.

Lemma track_step_match l base t st st' :
  t ∈ l →
  jobs_ok isfile (flacToMp3 st) →
  (∃ new, collection st = base ++ new ∧ jobs_match l (flacToMp3 st) new) →
  track_step isfile t st = Done st' →
  ∃ new, collection st' = base ++ new ∧ jobs_match l (flacToMp3 st') new.
Proof.
  intros Ht [_ Hok] (new & Hc & Hjobs & Hnew) [[-> ->]|(Hloc & -> & ->)]%track_step_job.
  { by exists new. }
  set (src := source_path t). set (dst := mp3_path src).
  assert (Hold : ∀ job, job ∈ flacToMp3 st → job ∈ dict_set src dst (flacToMp3 st)).
  { intros [k v] Hin. destruct (decide (k = src)) as [->|Hne].
    - pose proof (proj1 (Forall_forall _ _) Hok _ Hin) as (_ & _ & Hv).
      cbn [fst snd] in Hv. subst v. apply dict_set_here.
    - by apply dict_set_other. }
  exists (new ++ [clone_track t (currId st) dst]). split.
  { by rewrite Hc, <- (assoc_L (++)). }
  split.
  - intros k v [Heq|Hin]%dict_set_elem.
    + injection Heq as -> ->. split; [by exists t|]. eexists. split; [|apply clone_location].
      apply elem_of_app. right. by left.
    + destruct (Hjobs _ _ Hin) as [Hsrc (t' & Ht' & Hl)]. split; [done|].
      exists t'. split; [|done]. apply elem_of_app. by left.
  - intros t' [Hin| ->%list_elem_of_singleton]%elem_of_app.
    + destruct (Hnew _ Hin) as (k & v & Hkv & Hl). exists k, v. split; [by apply Hold|done].
    + exists src, dst. split; [apply dict_set_here|apply clone_location].
Qed.

Lemma track_pass_match l st st' :
  flacToMp3 st = [] →
  for_each (track_step isfile) l st = Done st' →
  ∃ new, collection st' = collection st ++ new ∧ jobs_match l (flacToMp3 st') new.
Proof.
  intros Hnil Hrun.
  assert (H0 : jobs_ok isfile (flacToMp3 st)
               ∧ ∃ new, collection st = collection st ++ new
                        ∧ jobs_match l (flacToMp3 st) new).
  { rewrite Hnil. split; [split; constructor|]. exists []. rewrite app_nil_r.
    split; [done|]. split; [by intros ?? ?%elem_of_nil|by intros ? ?%elem_of_nil]. }
  refine (proj2 (for_each_done_elem
    (λ s, jobs_ok isfile (flacToMp3 s)
          ∧ ∃ new, collection s = collection st ++ new ∧ jobs_match l (flacToMp3 s) new)
    _ _ _ _ _ H0 Hrun)).
  intros t s s1 Ht [Hok Hm] Hstep. split.
  - pose proof (track_step_jobs isfile t s Hok) as H. by rewrite Hstep in H.
  - by eapply track_step_match.
Qed.

(** X6.  In a completed run the jobs and the tracks added to the collection
    answer each other: the source of every job is the path on disk of a
    track of the input collection, the location of every added track is
    the escaped target of a job, and the target of every job is the
    location of an added track. *)
Theorem jobs_match_new_tracks py_int fuel root root' jobs :
  main py_int isfile fuel root = Some (Done (root', jobs)) →
  ∃ coll coll' new,
    root_collection root = Some coll ∧ root_collection root' = Some coll'
    ∧ children coll' = children coll ++ new
    ∧ (∀ src dst, (src, dst) ∈ jobs →
         (∃ t0, t0 ∈ children coll ∧ is_Some (ET.get t0 "Location") ∧ source_path t0 = src)
         ∧ ∃ t, t ∈ new ∧ ET.get t "Location" = Some (LOCALHOST_PREFIX +:+ escape_for_xml dst))
    ∧ (∀ t, t ∈ new →
         ∃ src dst, (src, dst) ∈ jobs
                    ∧ ET.get t "Location" = Some (LOCALHOST_PREFIX +:+ escape_for_xml dst)).
Proof.
  intros (pl & coll & entries & n & pls & st & _ & Hcoll & _ & _ & _ & Hloop & -> & Hcoll' & _)
    %main_done.
  apply track_loop_result in Hloop. symmetry in Hloop. cbn [collection] in Hloop.
  apply track_pass_match in Hloop as (new & Hc & Hjobs & Hnew); [|done].
  eexists coll, _, new. split_and!; [done|exact Hcoll'|exact Hc|exact Hjobs|exact Hnew].
Qed.

End JobsAndTracks.

Lemma jobs_match_new_tracks_witness :
  ∃ coll coll' new,
    root_collection house = Some coll ∧ root_collection house_out = Some coll'
    ∧ children coll' = children coll ++ new
    ∧ (∀ src dst, (src, dst) ∈ [house_job] →
         (∃ t0, t0 ∈ children coll ∧ is_Some (ET.get t0 "Location") ∧ source_path t0 = src)
         ∧ ∃ t, t ∈ new ∧ ET.get t "Location" = Some (LOCALHOST_PREFIX +:+ escape_for_xml dst))
    ∧ (∀ t, t ∈ new →
         ∃ src dst, (src, dst) ∈ [house_job]
                    ∧ ET.get t "Location" = Some (LOCALHOST_PREFIX +:+ escape_for_xml dst)).
Proof.
  exact (jobs_match_new_tracks disk_all PyStr.int_dec 3 house house_out [house_job] house_run).
Defined.

(** ** The mirrors that a run creates *)

Lemma mirror_pass_origin orig l pls extra acc' :
  (∀ a, a ∈ l → a ∈ playlist_names pls) →
  literal_names pls →
  for_each (mirror_step orig) l (pls ++ extra) = Done acc' →
  ∃ new, acc' = pls ++ extra ++ new ∧ Forall (created pls) new.
Proof.
  intros Hl Hlit. revert extra Hl. induction l as [|a l IH]; intros extra Hl H.
  - injection H as <-. exists []. by rewrite app_nil_r.
  - rewrite for_each_cons in H.
    destruct (mirror_step orig a (pls ++ extra)) as [acc1|] eqn:Hstep; [|done].
    assert (Hl' : ∀ b, b ∈ l → b ∈ playlist_names pls) by (intros b Hb; apply Hl; by right).
    assert (Ha : a ∈ playlist_names pls) by (apply Hl; by left).
    unfold mirror_step in Hstep. destruct a as [p|]; [|done].
    destruct (PyStr.endswith p "_MP3"); [injection Hstep as <-; by apply IH|].
    case_bool_decide; [injection Hstep as <-; by apply IH|].
    assert (Hp : ET.literal_ok p = true).
    { apply list_elem_of_fmap in Ha as (node & Hname & Hnode). by apply (Hlit node). }
    rewrite (query_literal _ _ Hp), first_single in Hstep.
    destruct (ET.find "Name" p (pls ++ extra)) as [[j o]|] eqn:Hfind; [|done].
    injection Hstep as <-. rewrite <- (assoc_L (++)) in H.
    destruct (IH _ Hl' H) as (new & -> & Hnew).
    exists (mirror_node (p +:+ "_MP3") o :: new). split.
    + by rewrite <- !(assoc_L (++)).
    + constructor; [|done]. exists p, j, o. split; [|done].
      apply list_find_app_Some in Hfind as [Hfind|(_ & Hnone & _)]; [done|].
      apply find_is_Some in Ha as [? Ha]. unfold ET.find in Ha. congruence.
Qed.

Lemma mirror_node_attrs m o k :
  ET.get (mirror_node m o) k
  = if decide (k = "Type") then Some (PyStr.str_opt (ET.get o "Type"))
    else if decide (k = "Key") then Some (PyStr.str_opt (ET.get o "Key"))
    else if decide (k = "Entries") then Some (PyStr.str_opt (ET.get o "Entries"))
    else if decide (k = "Name") then Some m
    else None.
Proof.
  unfold mirror_node. rewrite !get_set.
  repeat (case_decide; subst; [by rewrite ?decide_True by done|
                               rewrite (decide_False (P := k = _)) by done]).
  apply lookup_empty.
Qed.

Section Mirrors.

Variable py_int : string → option Z.
Variable isfile : string → bool.

(** X7.  Where no playlist name holds an apostrophe, a node that a
    completed run has put behind the playlists of the input is a mirror
    made from the first playlist of some name [p]: it is a [NODE] called
    [p_MP3] whose [Entries], [Key] and [Type] are the text of that
    playlist's (the text [None] where the playlist has none), and it has no
    other attribute.  So [Entries] is the count of the source playlist,
    whatever number of entries the mirror has received. *)
Theorem created_mirrors_copy_attributes fuel root root' jobs pl :
  root_playlists root = Some pl →
  literal_names (children pl) →
  main py_int isfile fuel root = Some (Done (root', jobs)) →
  ∃ pl',
    root_playlists root' = Some pl'
    ∧ ∀ i M, (length (children pl) ≤ i)%nat → children pl' !! i = Some M →
        ∃ p j o,
          ET.find "Name" p (children pl) = Some (j, o)
          ∧ tag M = "NODE"
          ∧ ET.get M "Name" = Some (p +:+ "_MP3")
          ∧ ET.get M "Entries" = Some (PyStr.str_opt (ET.get o "Entries"))
          ∧ ET.get M "Key" = Some (PyStr.str_opt (ET.get o "Key"))
          ∧ ET.get M "Type" = Some (PyStr.str_opt (ET.get o "Type"))
          ∧ ∀ k, k ∉ ["Name"; "Entries"; "Key"; "Type"] → ET.get M k = None.
Proof.
  intros Hpl0 Hlit
    (pl1 & coll & entries & n & pls & st & Hpl & _ & _ & _ & Hm & Hloop & _ & _ & Hpl')
    %main_done.
  assert (pl1 = pl) as -> by congruence.
  unfold build_mirrors in Hm. rewrite <- (app_nil_r (children pl)) in Hm at 3.
  apply mirror_pass_origin in Hm as (mirrors & -> & Hcreated); [|done..].
  apply track_loop_result in Hloop. symmetry in Hloop.
  pose proof (track_pass_inv _ _ _ _ Hloop) as (_ & Hext & _).
  cbn [playlists app] in Hext.
  eexists. split_and!; [exact Hpl'|]. cbn [children].
  intros i M Hi HM.
  destruct (Forall2_lookup_r _ _ _ _ _ Hext HM) as (M0 & HM0 & Ht & Ha & _).
  rewrite lookup_app_r in HM0 by done.
  apply list_elem_of_lookup_2 in HM0.
  pose proof (proj1 (Forall_forall _ _) Hcreated _ HM0) as (p & j & o & Hfind & ->).
  assert (Hget : ∀ k, ET.get M k = ET.get (mirror_node (p +:+ "_MP3") o) k).
  { intros k. unfold ET.get. by rewrite Ha. }
  exists p, j, o. rewrite !Hget, !mirror_node_attrs.
  split_and!; [done|by rewrite Ht|done..|].
  intros k Hk. rewrite Hget, mirror_node_attrs.
  repeat (case_decide; [subst; exfalso; apply Hk; set_solver|]). done.
Qed.

End Mirrors.

Lemma created_mirrors_copy_attributes_witness :
  ∃ pl',
    root_playlists house_out = Some pl'
    ∧ ∀ i M, (length [house_playlist] ≤ i)%nat → children pl' !! i = Some M →
        ∃ p j o,
          ET.find "Name" p [house_playlist] = Some (j, o)
          ∧ tag M = "NODE"
          ∧ ET.get M "Name" = Some (p +:+ "_MP3")
          ∧ ET.get M "Entries" = Some (PyStr.str_opt (ET.get o "Entries"))
          ∧ ET.get M "Key" = Some (PyStr.str_opt (ET.get o "Key"))
          ∧ ET.get M "Type" = Some (PyStr.str_opt (ET.get o "Type"))
          ∧ ∀ k, k ∉ ["Name"; "Entries"; "Key"; "Type"] → ET.get M k = None.
Proof.
  exact (created_mirrors_copy_attributes PyStr.int_dec disk_all 3 house house_out [house_job]
           (root_node [house_playlist]) eq_refl house_names_literal house_run).
Defined.

(** ** Runs that complete *)

Lemma for_each_completes {A St} (I : St → Prop) (body : A → St → Res St) l s :
  (∀ a s, a ∈ l → I s → ∃ s1, body a s = Done s1 ∧ I s1) →
  I s → ∃ s', for_each body l s = Done s' ∧ I s'.
Proof.
  revert s. induction l as [|a l IH]; intros s Hbody Hs; [by exists s|].
  rewrite for_each_cons.
  destruct (Hbody a s) as (s1 & -> & Hs1); [by left|done|].
  apply IH; [|done]. intros b sb Hb. apply Hbody. by right.
Qed.

Lemma mirror_pass_completes orig l acc :
  (∀ a, a ∈ l → ∃ p, a = Some p ∧ ET.literal_ok p = true ∧ Some p ∈ playlist_names acc) →
  ∃ acc', for_each (mirror_step orig) l acc = Done acc'.
Proof.
  intros Hl.
  destruct (for_each_completes
              (λ cur, ∀ a, a ∈ l → ∃ p, a = Some p ∧ ET.literal_ok p = true
                                        ∧ Some p ∈ playlist_names cur)
              (mirror_step orig) l acc) as (acc' & Hrun & _); [|done|by exists acc'].
  intros a cur Ha Hcur. destruct (Hcur a Ha) as (p & -> & Hok & Hin).
  unfold mirror_step.
  destruct (PyStr.endswith p "_MP3"); [by exists cur|].
  case_bool_decide; [by exists cur|].
  rewrite (query_literal _ _ Hok), first_single.
  destruct (find_is_Some _ _ Hin) as [[j o] ->].
  eexists. split; [done|].
  intros b Hb. destruct (Hcur b Hb) as (q & -> & Hq & Hqin).
  exists q. split_and!; [done..|]. rewrite playlist_names_app.
  apply elem_of_app. by left.
Qed.

Lemma grown_lookup c0 base cur i pl :
  Forall2 (grown c0) base cur → cur !! i = Some pl →
  ∃ pl0, base !! i = Some pl0 ∧ pl0 ∈ base ∧ grown c0 pl0 pl.
Proof.
  intros H Hi. destruct (Forall2_lookup_r _ _ _ _ _ H Hi) as (pl0 & Hpl0 & Hg).
  exists pl0. split_and!; [done| |done]. by eapply list_elem_of_lookup_2.
Qed.

(** The loop over [pNodes] completes on a section whose names are there,
    hold no apostrophe and are closed under mirrors, for an id that no
    mirror holds. *)
Lemma route_completes c0 c k base cur :
  c0 ≤ c → fresh_from c0 k → ET.literal_ok k = true →
  Forall2 (grown c0) base cur →
  (∀ pl, pl ∈ base → ∃ p, ET.get pl "Name" = Some p ∧ ET.literal_ok p = true) →
  (∀ p, Some p ∈ playlist_names base → PyStr.endswith p "_MP3" = false →
        Some (p +:+ "_MP3") ∈ playlist_names base) →
  (∀ pl, pl ∈ base → has_key k pl = true → is_mirror pl = false) →
  ∃ r, route (Some k) c cur = Done r.
Proof.
  intros Hc Hfresh Hk Hgrown Hnames Hclosed Hmirror. unfold route.
  destruct (for_each_completes (λ st, Forall2 (grown c0) base st.1)
              (route_step (Some k) c) (seq 0 (length cur)) (cur, false))
    as (r & Hr & _); [|done|by exists r].
  intros i st _ Hst. unfold route_step.
  destruct (st.1 !! i) as [pl|] eqn:Hi; [|by exists st].
  rewrite (query_literal _ _ Hk), select_single.
  destruct (grown_lookup _ _ _ _ _ Hst Hi) as (pl0 & _ & Hpl0 & Hg).
  pose proof (grown_has_key _ _ _ _ Hfresh Hg) as Hkey. unfold has_key in Hkey.
  destruct (ET.findall "Key" k (children pl)) as [|e es]; [by exists st|].
  destruct (Hnames _ Hpl0) as (p & Hp & Hpok).
  rewrite (grown_name _ _ _ "Name" Hg), Hp.
  rewrite (query_literal _ _ (literal_mirror_name _ Hpok)), first_single.
  assert (Hend : PyStr.endswith p "_MP3" = false).
  { specialize (Hmirror _ Hpl0). unfold has_key, is_mirror in Hmirror.
    rewrite Hp in Hmirror. by apply Hmirror. }
  assert (Hin : Some (p +:+ "_MP3") ∈ playlist_names base).
  { apply Hclosed; [|done]. rewrite <- Hp. by apply name_in_names. }
  apply find_is_Some in Hin as [[j x] Hfind].
  pose proof (grown_find _ _ _ (p +:+ "_MP3") Hst) as Hf. rewrite Hfind in Hf.
  destruct (ET.find "Name" (p +:+ "_MP3") st.1) as [[j' x']|]; [|done].
  eexists. split; [done|]. cbn [fst]. by apply grown_add_entry.
Qed.

Section Completes.

Variable py_int : string → option Z.
Variable isfile : string → bool.

(** The track pass completes on the section the mirror pass left. *)
Lemma track_pass_completes c0 base l st :
  c0 ≤ currId st →
  Forall2 (grown c0) base (playlists st) →
  (∀ pl, pl ∈ base → ∃ p, ET.get pl "Name" = Some p ∧ ET.literal_ok p = true) →
  (∀ p, Some p ∈ playlist_names base → PyStr.endswith p "_MP3" = false →
        Some (p +:+ "_MP3") ∈ playlist_names base) →
  mirrors_hold_no_source base l →
  fresh_ids c0 l →
  (∀ t, t ∈ l → is_Some (ET.get t "Location")) →
  (∀ t, t ∈ l → ∃ k, ET.get t "TrackID" = Some k ∧ ET.literal_ok k = true) →
  ∃ st', for_each (track_step isfile) l st = Done st'.
Proof.
  intros Hc Hgrown Hnames Hclosed Hmirror Hfresh Hloc Hid.
  destruct (for_each_completes
              (λ s, c0 ≤ currId s ∧ Forall2 (grown c0) base (playlists s))
              (track_step isfile) l st) as (st' & Hrun & _); [|done|by exists st'].
  intros t s Ht [Hcs Hgs].
  assert (Hdone : ∃ s1, track_step isfile t s = Done s1).
  { unfold track_step. destruct (Hloc t Ht) as [raw ->].
    destruct (negb (is_flac raw)); [by eexists|].
    destruct (negb (isfile (flac_path raw))); [by eexists|].
    destruct (Hid t Ht) as (k & Hkid & Hk). rewrite Hkid.
    destruct (route_completes c0 (currId s) k base (playlists s)) as [[pls b] ->];
      [done|by eapply Hfresh|done..| |].
    - intros pl Hpl Hkey. by eapply Hmirror.
    - destruct b; by eexists. }
  destruct Hdone as [s1 Hs1]. exists s1. split; [done|].
  assert (Hlit : literal_names base).
  { intros pl p Hpl Hp. destruct (Hnames _ Hpl) as (q & Hq & Hqok). congruence. }
  destruct (track_step_spec isfile c0 base t s s1) as [Hg1 ->]; [done..| | |done|].
  { intros k Hk. by eapply Hfresh. }
  { intros k Hk. destruct (Hid t Ht) as (k' & Hk' & Hok). congruence. }
  split; [|done]. destruct (eligible isfile base t); cbn [currId]; lia.
Qed.

(** X8.  On a library that is well formed the run completes: the two
    sections are there, [Entries] of the collection is read as a number
    [n], every playlist has a name and every track a location and an id,
    no name and no id holds an apostrophe, no id of a track is the text of
    a number above [n], and no playlist named as a mirror holds the id of a
    track. *)
Theorem main_completes fuel root pl coll n :
  root_playlists root = Some pl →
  root_collection root = Some coll →
  ET.get coll "Entries" ≫= py_int = Some n →
  (∀ node, node ∈ children pl → ∃ p, ET.get node "Name" = Some p ∧ ET.literal_ok p = true) →
  (∀ t, t ∈ children coll → is_Some (ET.get t "Location")) →
  (∀ t, t ∈ children coll → ∃ k, ET.get t "TrackID" = Some k ∧ ET.literal_ok k = true) →
  fresh_ids (n + 1) (children coll) →
  mirrors_hold_no_source (children pl) (children coll) →
  (2 * length (children coll) < fuel)%nat →
  ∃ root' jobs, main py_int isfile fuel root = Some (Done (root', jobs)).
Proof.
  intros Hpl Hcoll Hn Hnames Hloc Hid Hfresh Hmirror Hfuel.
  destruct (mirror_pass_completes (playlist_names (children pl))
              (playlist_names (children pl)) (children pl)) as [pls Hm].
  { intros a (node & -> & Hnode)%list_elem_of_fmap.
    destruct (Hnames _ Hnode) as (p & Hp & Hok). exists p. split_and!; [done..|].
    rewrite <- Hp. by apply name_in_names. }
  change (build_mirrors (children pl) = Done pls) in Hm.
  pose proof (mirror_pass_done _ _ _ _ Hm) as (new & Hpls & Hnew & Hempty & _).
  assert (Hnames' : ∀ node, node ∈ pls →
            ∃ p, ET.get node "Name" = Some p ∧ ET.literal_ok p = true).
  { intros node. rewrite Hpls. intros [Hin|Hin]%elem_of_app; [by apply Hnames|].
    apply name_in_names in Hin. rewrite Hnew in Hin.
    apply list_elem_of_fmap in Hin as (m & Hm' & Hin).
    apply list_elem_of_omap in Hin as (a & Ha & Hneed).
    apply list_elem_of_fmap in Ha as (src & -> & Hsrc).
    destruct (Hnames _ Hsrc) as (p & Hp & Hok). rewrite Hp in Hneed.
    exists m. split; [done|]. cbn [needs_mirror] in Hneed.
    destruct (PyStr.endswith p "_MP3"); [done|]. case_bool_decide; [done|].
    injection Hneed as <-. by rewrite literal_ok_app, Hok. }
  assert (Hmirror' : mirrors_hold_no_source pls (children coll)).
  { intros node t k. rewrite Hpls. intros [Hin|Hin]%elem_of_app Ht Hk Hkey.
    - by eapply Hmirror.
    - rewrite has_key_no_children in Hkey; [done|].
      by apply (proj1 (Forall_forall _ _) Hempty). }
  destruct (track_pass_completes (n + 1) pls (children coll)
              (mkState pls (children coll) [] (n + 1))) as [st Hst];
    [done|apply grown_all_refl|done| |done..|].
  { intros p. by apply (mirror_pass_closed _ _ _ Hm). }
  unfold main. rewrite Hpl, Hm, root_collection_with_playlists, Hcoll.
  destruct (ET.get coll "Entries") as [entries|]; [|done]. cbn [mbind option_bind] in Hn.
  rewrite Hn.
  rewrite (track_loop_originals isfile (children coll) [] []);
    [|by rewrite app_nil_r|constructor|simpl; lia].
  rewrite Hst. by eexists _, _.
Qed.

End Completes.

Lemma house_well_formed :
  (∀ node, node ∈ [house_playlist] →
     ∃ p, ET.get node "Name" = Some p ∧ ET.literal_ok p = true)
  ∧ (∀ t, t ∈ [house_track] → is_Some (ET.get t "Location"))
  ∧ (∀ t, t ∈ [house_track] → ∃ k, ET.get t "TrackID" = Some k ∧ ET.literal_ok k = true).
Proof.
  split_and!.
  - intros node ->%list_elem_of_singleton. by exists "House".
  - intros t ->%list_elem_of_singleton. by eexists.
  - intros t ->%list_elem_of_singleton. by exists "1".
Qed.

Lemma main_completes_witness :
  ∃ root' jobs, main PyStr.int_dec disk_all 3 house = Some (Done (root', jobs)).
Proof.
  exact (main_completes PyStr.int_dec disk_all 3 house
           (root_node [house_playlist]) (collection_node "1" [house_track]) 1
           eq_refl eq_refl eq_refl
           (proj1 house_well_formed) (proj1 (proj2 house_well_formed))
           (proj2 (proj2 house_well_formed))
           house_ids_fresh house_mirrors_hold_no_source
           ltac:(simpl; lia)).
Defined.

(** ** A second run over the written library *)

Lemma grown_existsb c0 k base cur :
  fresh_from c0 k → Forall2 (grown c0) base cur →
  existsb (has_key k) cur = existsb (has_key k) base.
Proof.
  intros Hk. induction 1 as [|M0 M base cur HM _ IH]; [done|].
  cbn [existsb]. by rewrite (grown_has_key _ _ _ _ Hk HM), IH.
Qed.

Lemma eligible_grown isfile c0 base cur t :
  Forall2 (grown c0) base cur →
  (∀ k, ET.get t "TrackID" = Some k → fresh_from c0 k) →
  eligible isfile cur t = eligible isfile base t.
Proof.
  intros Hg Hfresh. unfold eligible, referenced.
  destruct (ET.get t "Location"); [|done].
  destruct (ET.get t "TrackID") as [k|]; [|done].
  by rewrite (grown_existsb c0 k base cur) by auto.
Qed.

Lemma clone_not_eligible isfile pls t c : eligible isfile pls (clone_of t c) = false.
Proof.
  unfold eligible, clone_of. rewrite clone_location. unfold location_of.
  by rewrite clone_location_not_flac.
Qed.

Lemma clones_not_eligible isfile pls c l :
  filter (λ t, eligible isfile pls t = true) (clones c l) = [].
Proof.
  revert c. induction l as [|t l IH]; intros c; [done|]. cbn [clones].
  rewrite filter_cons, decide_False; [apply IH|].
  by rewrite clone_not_eligible.
Qed.

Lemma fresh_from_mono c0 c1 k : c0 ≤ c1 → fresh_from c0 k → fresh_from c1 k.
Proof. intros Hle Hk j Hj. apply Hk. lia. Qed.

Lemma clones_fresh c l c1 :
  c + Z.of_nat (length l) ≤ c1 → fresh_ids c1 (clones c l).
Proof.
  intros Hle t k (i & s & Hs & ->)%clones_elem Hk.
  apply lookup_lt_Some in Hs.
  unfold clone_of, clone_track in Hk. rewrite !get_set in Hk. simpl in Hk.
  injection Hk as <-. apply str_fresh. lia.
Qed.

Lemma uint_digits_literal d : ET.literal_ok (NilEmpty.string_of_uint d) = true.
Proof.
  unfold ET.literal_ok.
  induction d as [|d IH|d IH|d IH|d IH|d IH|d IH|d IH|d IH|d IH|d IH]; [done|..];
    cbn [NilEmpty.string_of_uint PyStr.contains];
    by rewrite bool_decide_eq_false_2.
Qed.

Lemma uint_literal d : ET.literal_ok (NilZero.string_of_uint d) = true.
Proof. destruct d; [done|apply uint_digits_literal..]. Qed.

Lemma str_literal z : ET.literal_ok (PyStr.str z) = true.
Proof.
  unfold PyStr.str, NilZero.string_of_int. destruct (Z.to_int z) as [d|d].
  - apply uint_literal.
  - unfold ET.literal_ok. cbn [PyStr.contains]. rewrite bool_decide_eq_false_2 by done.
    apply uint_literal.
Qed.

Lemma clones_literal c l : literal_ids (clones c l).
Proof.
  intros t k (i & s & Hs & ->)%clones_elem Hk.
  unfold clone_of, clone_track in Hk. rewrite !get_set in Hk. simpl in Hk.
  injection Hk as <-. apply str_literal.
Qed.

Section SecondRun.

Variable py_int : string → option Z.
Variable isfile : string → bool.

(** X9.  The run is not idempotent.  When the library that a completed run
    wrote is run again with the same files on disk, the second run records
    the same jobs and appends a further clone of every track that the first
    run converted.  (The ids of the input hold no apostrophe and are not
    texts of numbers above [Entries], and [int] reads back what [str]
    writes.) *)
Theorem second_run_converts_again fuel fuel' root root' root'' jobs jobs' coll n :
  root_collection root = Some coll →
  ET.get coll "Entries" ≫= py_int = Some n →
  fresh_ids (n + 1) (children coll) →
  literal_ids (children coll) →
  (∀ z, py_int (PyStr.str z) = Some z) →
  main py_int isfile fuel root = Some (Done (root', jobs)) →
  main py_int isfile fuel' root' = Some (Done (root'', jobs')) →
  jobs' = jobs
  ∧ ∃ coll' coll'' srcs,
      root_collection root' = Some coll' ∧ root_collection root'' = Some coll''
      ∧ children coll' = children coll ++ clones (n + 1) srcs
      ∧ children coll'' = children coll' ++ clones (n + 1 + Z.of_nat (length srcs)) srcs.
Proof.
  intros Hcoll Hn Hfresh Hlit Hint Hrun1 Hrun2.
  apply main_done in Hrun1
    as (pl & coll1 & entries & n1 & pls & st & Hpl & Hcoll1 & He & Hn1 & Hm & Hloop & ->
        & Hcoll' & Hpl').
  assert (coll1 = coll) as -> by congruence.
  assert (n1 = n) as ->. { rewrite He in Hn. simpl in Hn. congruence. }
  apply track_loop_result in Hloop. symmetry in Hloop.
  apply (track_pass_conv isfile (n + 1) pls) in Hloop as (Hg & Hc & Hj & Hid);
    [|done|apply grown_all_refl|done..].
  cbn [collection flacToMp3 currId] in *.
  set (el := filter (λ t, eligible isfile pls t = true) (children coll)) in *.
  assert (Hfresh2 : fresh_ids (currId st - 1 + 1) (collection st)).
  { rewrite Hc. intros t k [Ht|Ht]%elem_of_app Hk.
    - eapply fresh_from_mono; [|by eapply Hfresh]. lia.
    - eapply (clones_fresh (n + 1) el); [|done..]. lia. }
  assert (Hlit2 : literal_ids (collection st)).
  { rewrite Hc. intros t k [Ht|Ht]%elem_of_app Hk; [by eapply Hlit|].
    by eapply clones_literal. }
  apply main_done in Hrun2
    as (pl2 & coll2 & entries2 & n2 & pls2 & st2 & Hpl2 & Hcoll2 & He2 & Hn2 & Hm2 & Hloop2
        & -> & Hcoll'' & _).
  rewrite Hpl' in Hpl2. injection Hpl2 as <-. rewrite Hcoll' in Hcoll2. injection Hcoll2 as <-.
  unfold ET.get in He2. cbn [attrib] in He2. rewrite lookup_insert_eq in He2.
  injection He2 as <-. rewrite Hint in Hn2. injection Hn2 as <-.
  cbn [children] in Hm2, Hloop2.
  apply track_loop_result in Hloop2. symmetry in Hloop2.
  apply (track_pass_conv isfile (currId st - 1 + 1) pls2) in Hloop2 as (_ & Hc2 & Hj2 & _);
    [|done|apply grown_all_refl|done..].
  cbn [collection flacToMp3 currId] in Hc2, Hj2.
  assert (Hel : filter (λ t, eligible isfile pls2 t = true) (collection st) = el).
  { rewrite (list_filter_iff _ (λ t, eligible isfile (playlists st) t = true))
      by (intros t; by rewrite (eligible_mirrors _ _ _ _ Hm2)).
    rewrite Hc, filter_app, clones_not_eligible, app_nil_r. unfold el.
    apply filter_ext_elem. intros t Ht.
    rewrite (eligible_grown isfile (n + 1) pls) by (done || (intros k Hk; by eapply Hfresh)).
    done. }
  rewrite Hel in Hc2, Hj2. split; [by rewrite Hj2, Hj|].
  eexists _, _, el. split_and!; [exact Hcoll'|exact Hcoll''|exact Hc|].
  cbn [children]. rewrite Hc2. do 2 f_equal. lia.
Qed.

End SecondRun.

Example house_second_run :
  main PyStr.int_dec disk_all 5 house_out = Some (Done (house_out_again, [house_job])).
Proof. vm_compute. reflexivity. Qed.

Lemma second_run_converts_again_witness :
  [house_job] = [house_job]
  ∧ ∃ coll' coll'' srcs,
      root_collection house_out = Some coll' ∧ root_collection house_out_again = Some coll''
      ∧ children coll' = children (collection_node "1" [house_track]) ++ clones (1 + 1) srcs
      ∧ children coll'' = children coll' ++ clones (1 + 1 + Z.of_nat (length srcs)) srcs.
Proof.
  exact (second_run_converts_again PyStr.int_dec disk_all 3 5 house house_out house_out_again
           [house_job] [house_job] (collection_node "1" [house_track]) 1
           eq_refl eq_refl house_ids_fresh house_ids_literal int_dec_str house_run
           house_second_run).
Defined.

(** ** What a completed run needs *)

Lemma for_each_done_step {A St} (I : St → Prop) (body : A → St → Res St) l s s' a :
  (∀ a s s1, I s → body a s = Done s1 → I s1) →
  I s → for_each body l s = Done s' → a ∈ l →
  ∃ s0 s1, I s0 ∧ body a s0 = Done s1.
Proof.
  intros Hbody. revert s. induction l as [|b l IH]; intros s Hs Hrun Ha.
  - by apply elem_of_nil in Ha.
  - rewrite for_each_cons in Hrun. destruct (body b s) as [s1|] eqn:Hb; [|done].
    apply elem_of_cons in Ha as [->|Ha]; [by exists s, s1|].
    apply (IH s1); eauto.
Qed.

Lemma extended_names lo hi base cur :
  Forall2 (extended lo hi) base cur → playlist_names cur = playlist_names base.
Proof.
  induction 1 as [|M0 M base cur (_ & Ha & _) _ IH]; [done|].
  unfold playlist_names in *. cbn [fmap list_fmap]. unfold ET.get at 1 3.
  by rewrite Ha, IH.
Qed.

Lemma find_None_names m pls :
  Some m ∉ playlist_names pls → ET.find "Name" m pls = None.
Proof.
  intros Hm. apply list_find_None, Forall_forall. intros pl Hpl Hname.
  apply Hm. rewrite <- Hname. by apply name_in_names.
Qed.

Lemma has_key_extended lo hi k M0 M :
  extended lo hi M0 M → has_key k M0 = true → has_key k M = true.
Proof.
  intros (_ & _ & ex & Hch & _). unfold has_key, ET.findall. rewrite Hch, filter_app.
  by destruct (filter _ (children M0)).
Qed.

(** No mirror is created for a name that ends in [_MP3]. *)
Lemma mirror_of_mirror_not_created pls pls' p :
  build_mirrors pls = Done pls' →
  PyStr.endswith p "_MP3" = true →
  Some (p +:+ "_MP3") ∉ playlist_names pls →
  Some (p +:+ "_MP3") ∉ playlist_names pls'.
Proof.
  intros (new & -> & Hnew & _)%mirror_pass_done Hend Hp.
  rewrite playlist_names_app, Hnew. intros [Hin|Hin]%elem_of_app; [done|].
  apply list_elem_of_fmap in Hin as (m & [= <-] & Hin).
  apply list_elem_of_omap in Hin as ([q|] & _ & Hneed); [|done].
  cbn [needs_mirror] in Hneed.
  destruct (PyStr.endswith q "_MP3") eqn:Hq; [done|]. case_bool_decide; [done|].
  injection Hneed as Heq. apply str_app_inv_tail in Heq. congruence.
Qed.

Section Requirements.

Variable py_int : string → option Z.
Variable isfile : string → bool.

(** The turns of a completed track pass: each track of the collection had
    a turn that completed, from a state sound for the start. *)
Lemma track_pass_turn l st st' t :
  for_each (track_step isfile) l st = Done st' → t ∈ l →
  ∃ s0 s1, pass_inv st s0 ∧ track_step isfile t s0 = Done s1.
Proof.
  intros Hrun Ht.
  apply (for_each_done_step (pass_inv st) _ l st st'); [|  |done..].
  - intros a s s1. apply track_step_inv.
  - unfold pass_inv. split_and!; [lia|apply extended_all_refl|lia].
Qed.

(** X10.  A run completes only on an input that has what the code reads
    without a test: the two sections, a numeric [Entries] on the
    collection, a [Name] on every playlist node, a [Location] on every
    track and, where there is a playlist node at all, a [TrackID] on every
    track with the extension [.flac] whose file is on disk. *)
Theorem completed_run_requirements fuel root root' jobs :
  main py_int isfile fuel root = Some (Done (root', jobs)) →
  ∃ pl coll entries n,
    root_playlists root = Some pl ∧ root_collection root = Some coll
    ∧ ET.get coll "Entries" = Some entries ∧ py_int entries = Some n
    ∧ (∀ node, node ∈ children pl → is_Some (ET.get node "Name"))
    ∧ (∀ t, t ∈ children coll → is_Some (ET.get t "Location"))
    ∧ (∀ t raw, t ∈ children coll → ET.get t "Location" = Some raw →
         is_flac raw = true → isfile (flac_path raw) = true → children pl ≠ [] →
         is_Some (ET.get t "TrackID")).
Proof.
  intros (pl & coll & entries & n & pls & st & Hpl & Hcoll & He & Hn & Hm & Hloop & _)
    %main_done.
  exists pl, coll, entries, n. split_and!; [done..| | |].
  - intros node Hnode. apply mirror_pass_done in Hm as (_ & _ & _ & _ & Hsome).
    apply (proj1 (Forall_forall _ _) Hsome). by apply name_in_names.
  - intros t Ht. apply track_loop_result in Hloop. symmetry in Hloop.
    destruct (track_pass_turn _ _ _ t Hloop Ht) as (s0 & s1 & _ & Hstep).
    unfold track_step in Hstep. by destruct (ET.get t "Location").
  - intros t raw Ht Hraw Hflac Hfile Hne.
    apply track_loop_result in Hloop. symmetry in Hloop.
    destruct (track_pass_turn _ _ _ t Hloop Ht) as (s0 & s1 & (_ & Hext & _) & Hstep).
    unfold track_step in Hstep. rewrite Hraw, Hflac, Hfile in Hstep. cbn [negb] in Hstep.
    destruct (ET.get t "TrackID") as [k|]; [done|]. exfalso.
    cbn [playlists] in Hext. apply Forall2_length in Hext.
    apply mirror_pass_done in Hm as (new & -> & _).
    rewrite length_app in Hext. unfold route in Hstep.
    destruct (playlists s0) as [|pl0 cur]; [destruct (children pl); [done|simpl in Hext; lia]|].
    cbn [length seq] in Hstep. rewrite for_each_cons in Hstep. by cbn in Hstep.
Qed.

(** X11.  A playlist named as a mirror is read as a source all the same:
    when it holds the id of a track with the extension [.flac] whose file
    is on disk, and the section has no node of its name with [_MP3] added
    once more, no run completes (the lookup of line 177 finds nothing and
    line 178 raises). *)
Theorem mirror_holding_source_stops_run fuel root pl coll t raw k node p r :
  root_playlists root = Some pl → root_collection root = Some coll →
  t ∈ children coll →
  ET.get t "Location" = Some raw → is_flac raw = true → isfile (flac_path raw) = true →
  ET.get t "TrackID" = Some k → ET.literal_ok k = true →
  node ∈ children pl → has_key k node = true →
  ET.get node "Name" = Some p → ET.literal_ok p = true →
  PyStr.endswith p "_MP3" = true →
  Some (p +:+ "_MP3") ∉ playlist_names (children pl) →
  main py_int isfile fuel root = Some r →
  ∃ e s, r = Raised e s.
Proof.
  intros Hpl Hcoll Ht Hraw Hflac Hfile Hk Hkok Hnode Hkey Hp Hpok Hend Hnone Hrun.
  destruct r as [[root' jobs]|e s]; [exfalso|by exists e, s].
  apply main_done in Hrun
    as (pl1 & coll1 & entries & n & pls & st & Hpl1 & Hcoll1 & _ & _ & Hm & Hloop & _).
  assert (pl1 = pl) as -> by congruence. assert (coll1 = coll) as -> by congruence.
  pose proof (mirror_of_mirror_not_created _ _ _ Hm Hend Hnone) as Hnone'.
  pose proof (mirror_pass_done _ _ _ _ Hm) as (new & Hpls & _).
  apply track_loop_result in Hloop. symmetry in Hloop.
  destruct (track_pass_turn _ _ _ t Hloop Ht) as (s0 & s1 & (_ & Hext & _) & Hstep).
  cbn [playlists currId] in Hext.
  unfold track_step in Hstep. rewrite Hraw, Hflac, Hfile, Hk in Hstep. cbn [negb] in Hstep.
  destruct (route (Some k) (currId s0) (playlists s0)) as [[cur' b']|e [cur' b']] eqn:Hroute;
    [|done].
  clear Hstep.
  assert (Hnodes : node ∈ pls) by (rewrite Hpls; apply elem_of_app; by left).
  apply list_elem_of_lookup in Hnodes as [i Hi].
  destruct (Forall2_lookup_l _ _ _ _ _ Hext Hi) as (pl0 & Hpl0 & Hext0).
  assert (Hseq : i ∈ seq 0 (length (playlists s0))).
  { apply elem_of_seq. apply lookup_lt_Some in Hpl0. lia. }
  unfold route in Hroute.
  assert (Hstart : route_inv (currId s0) (playlists s0) (playlists s0, false)) by done.
  destruct (for_each_done_step (route_inv (currId s0) (playlists s0)) _ _ _ _ i
              (route_step_inv (Some k) (currId s0) (playlists s0)) Hstart Hroute Hseq)
    as (sa & sb & Hinv & Hturn).
  assert (Hext1 : Forall2 (extended (currId s0) (currId s0 + 1)) (playlists s0) sa.1).
  { unfold route_inv in Hinv. destruct sa.2; [apply Hinv|].
    rewrite Hinv. apply extended_all_refl. }
  destruct (Forall2_lookup_l _ _ _ _ _ Hext1 Hpl0) as (pl1 & Hpl1' & Hext1').
  unfold route_step in Hturn.
  rewrite Hpl1', (query_literal _ _ Hkok), select_single in Hturn.
  pose proof (has_key_extended _ _ _ _ _ Hext1' (has_key_extended _ _ _ _ _ Hext0 Hkey))
    as Hkey1.
  unfold has_key in Hkey1.
  destruct (ET.findall "Key" k (children pl1)) as [|x xs]; [done|].
  assert (Hname1 : ET.get pl1 "Name" = Some p).
  { destruct Hext1' as (_ & Ha1 & _), Hext0 as (_ & Ha0 & _).
    unfold ET.get in *. by rewrite Ha1, Ha0. }
  rewrite Hname1, (query_literal _ _ (literal_mirror_name _ Hpok)), first_single in Hturn.
  rewrite find_None_names in Hturn; [done|].
  by rewrite (extended_names _ _ _ _ Hext1), (extended_names _ _ _ _ Hext).
Qed.

End Requirements.

Lemma completed_run_requirements_witness :
  ∃ pl coll entries n,
    root_playlists house = Some pl ∧ root_collection house = Some coll
    ∧ ET.get coll "Entries" = Some entries ∧ PyStr.int_dec entries = Some n
    ∧ (∀ node, node ∈ children pl → is_Some (ET.get node "Name"))
    ∧ (∀ t, t ∈ children coll → is_Some (ET.get t "Location"))
    ∧ (∀ t raw, t ∈ children coll → ET.get t "Location" = Some raw →
         is_flac raw = true → disk_all (flac_path raw) = true → children pl ≠ [] →
         is_Some (ET.get t "TrackID")).
Proof.
  exact (completed_run_requirements PyStr.int_dec disk_all 3 house house_out [house_job]
           house_run).
Defined.

Lemma a_mp3_unmirrored :
  Some ("A_MP3" +:+ "_MP3") ∉ playlist_names [playlist "A_MP3" ["1"]].
Proof. by intros [=]%list_elem_of_singleton. Qed.

Lemma mirror_holding_source_stops_run_witness :
  ∃ e s,
    Raised TypeError (library "1" [house_track] [playlist "A_MP3" ["1"]], [])
    = Raised (St := Element * list (string * string)) e s.
Proof.
  exact (mirror_holding_source_stops_run PyStr.int_dec disk_all 3
           (library "1" [house_track] [playlist "A_MP3" ["1"]])
           (root_node [playlist "A_MP3" ["1"]]) (collection_node "1" [house_track])
           house_track house_flac "1" (playlist "A_MP3" ["1"]) "A_MP3" _
           eq_refl eq_refl (list_elem_of_here _ _) eq_refl eq_refl eq_refl eq_refl eq_refl
           (list_elem_of_here _ _) eq_refl eq_refl eq_refl eq_refl a_mp3_unmirrored
           mirror_without_mirror).
Defined.

(** ** The target beside the source *)

Lemma str_drop_app_le n s t :
  (n ≤ String.length s)%nat → PyStr.drop n (s +:+ t) = PyStr.drop n s +:+ t.
Proof.
  revert s. induction n as [|n IH]; intros s Hn; [done|].
  destruct s as [|c s]; [simpl in Hn; lia|].
  rewrite str_app_cons. cbn [PyStr.drop]. apply IH. simpl in Hn. lia.
Qed.

Lemma str_length_drop n s : String.length (PyStr.drop n s) = (String.length s - n)%nat.
Proof.
  revert s. induction n as [|n IH]; intros s; [simpl; lia|].
  destruct s as [|c s]; [done|]. cbn [PyStr.drop String.length]. by rewrite IH.
Qed.

Lemma rfind_cons c a s :
  PyStr.rfind c (String a s)
  = if 0 <=? PyStr.rfind c s then PyStr.rfind c s + 1
    else if bool_decide (a = c) then 0 else -1.
Proof. done. Qed.

(** The file name that [splitext] tests, in terms of [named_file]. *)
Lemma named_file_spec acc v :
  let sepIndex := Z.max (PyStr.rfind backslash v) (PyStr.rfind "/" v) in
  named_file acc v
  = if 0 <=? sepIndex then negb (all_dots (PyStr.drop (Z.to_nat (sepIndex + 1)) v))
    else acc || negb (all_dots v).
Proof.
  revert acc. induction v as [|c v IH]; intros acc; [by destruct acc|].
  cbn zeta in *. rewrite !rfind_cons. cbn [named_file].
  pose proof (rfind_bounds backslash v) as Hb. pose proof (rfind_bounds "/" v) as Hs.
  destruct (0 <=? Z.max (PyStr.rfind backslash v) (PyStr.rfind "/" v)) eqn:Hmax.
  - apply Z.leb_le in Hmax.
    assert (Hr : ∀ acc', named_file acc' v
              = negb (all_dots (PyStr.drop
                  (Z.to_nat (Z.max (PyStr.rfind backslash v) (PyStr.rfind "/" v) + 1)) v))).
    { intros acc'. apply IH. }
    set (m := Z.max (PyStr.rfind backslash v) (PyStr.rfind "/" v)) in *.
    assert (Hm : Z.max
              (if 0 <=? PyStr.rfind backslash v then PyStr.rfind backslash v + 1
               else if bool_decide (c = backslash) then 0 else -1)
              (if 0 <=? PyStr.rfind "/" v then PyStr.rfind "/" v + 1
               else if bool_decide (c = "/"%char) then 0 else -1) = m + 1).
    { subst m. repeat case_match; lia. }
    rewrite Hm. rewrite (proj2 (Z.leb_le 0 (m + 1))) by lia.
    replace (Z.to_nat (m + 1 + 1)) with (S (Z.to_nat (m + 1))) by lia.
    cbn [PyStr.drop]. repeat case_match; apply Hr.
  - apply Z.leb_gt in Hmax.
    assert (Hr : ∀ acc', named_file acc' v = acc' || negb (all_dots v)).
    { intros acc'. apply IH. }
    rewrite (proj2 (Z.leb_gt 0 (PyStr.rfind backslash v))) by lia.
    rewrite (proj2 (Z.leb_gt 0 (PyStr.rfind "/" v))) by lia.
    cbn [all_dots]. rewrite !Hr.
    destruct (decide (c = "/"%char)) as [->|Hc1].
    { done. }
    rewrite (bool_decide_false (c = "/"%char)) by done.
    destruct (decide (c = backslash)) as [->|Hc2].
    { done. }
    rewrite (bool_decide_false (c = backslash)) by done. cbn [orb].
    case_bool_decide; [done|]. cbn. by rewrite orb_true_r.
Qed.

(** [splitext] on a path that ends in a clean extension: the extension is
    split off exactly when the file name before it is more than dots. *)
Lemma splitext_stem v e :
  PyStr.contains "." e = false →
  PyStr.contains "/" e = false → PyStr.contains backslash e = false →
  splitext (v +:+ String "." e)
  = if named_file false v then (v, String "." e) else (v +:+ String "." e, EmptyString).
Proof.
  intros Hdot Hs Hb. unfold splitext.
  rewrite (rfind_app_found "." v).
  2:{ cbn [PyStr.rfind]. by rewrite (rfind_absent _ _ Hdot). }
  assert (PyStr.rfind "." (String "." e) = 0) as ->.
  { cbn [PyStr.rfind]. by rewrite (rfind_absent _ _ Hdot). }
  rewrite !rfind_app_missing
    by (cbn [PyStr.rfind]; rewrite ?(rfind_absent _ _ Hs), ?(rfind_absent _ _ Hb); done).
  rewrite Z.add_0_r, Nat2Z.id, str_take_app, str_drop_app.
  pose proof (rfind_bounds backslash v) as Hb'. pose proof (rfind_bounds "/" v) as Hs'.
  set (m := Z.max (PyStr.rfind backslash v) (PyStr.rfind "/" v)).
  assert (Hm : -1 ≤ m < Z.of_nat (String.length v)) by (subst m; lia).
  rewrite (proj2 (Z.ltb_lt m _)) by lia. cbn [andb].
  assert (Hslice : PyStr.slice (m + 1) (Z.of_nat (String.length v)) (v +:+ String "." e)
                   = PyStr.drop (Z.to_nat (m + 1)) v).
  { unfold PyStr.slice. rewrite str_drop_app_le by lia.
    replace (Z.to_nat (Z.of_nat (String.length v) - (m + 1)))
      with (String.length (PyStr.drop (Z.to_nat (m + 1)) v))
      by (rewrite str_length_drop; lia).
    apply str_take_app. }
  rewrite Hslice. pose proof (named_file_spec false v) as Hspec. cbn zeta in Hspec.
  fold m in Hspec. rewrite Hspec.
  destruct (0 <=? m) eqn:H0; [done|].
  apply Z.leb_gt in H0. replace (Z.to_nat (m + 1)) with O by lia. done.
Qed.

Lemma named_file_unescape acc v : named_file acc (unescape_from_xml v) = named_file acc v.
Proof.
  remember (String.length v) as n eqn:Hn. revert acc v Hn.
  induction (lt_wf n) as [n _ IH]. intros acc v ->.
  destruct v as [|c r]; [done|].
  destruct (token_ahead (String c r)) eqn:Htok.
  - apply token_ahead_inv in Htok as (r' & Hr).
    assert (Hlen : (String.length r' < String.length (String c r))%nat).
    { destruct Hr as [->|[->| ->]]; rewrite str_length_app; simpl; lia. }
    destruct Hr as [->|[->| ->]];
      rewrite ?unescape_20, ?unescape_26, ?unescape_27, !str_app_cons;
      change (EmptyString +:+ ?x) with x; cbn [named_file];
      apply (IH _ Hlen true r' eq_refl).
  - rewrite unescape_other by done. cbn [named_file].
    assert (Hlen : (String.length r < String.length (String c r))%nat) by (simpl; lia).
    repeat case_match; apply (IH _ Hlen _ r eq_refl).
Qed.

Lemma named_file_prefix acc w : named_file acc (LOCALHOST_PREFIX +:+ w) = named_file false w.
Proof.
  unfold LOCALHOST_PREFIX. rewrite !str_app_cons. change (EmptyString +:+ w) with w.
  reflexivity.
Qed.

(** The path on disk of a FLAC location: the stem is the unescaped stem of
    the location, with the prefix taken off if it is there. *)
Lemma flac_path_stem stem e :
  PyStr.contains "%" e = false →
  ∃ v, flac_path (stem +:+ String "." e) = v +:+ String "." e
       ∧ (unescape_from_xml stem = v ∨ unescape_from_xml stem = LOCALHOST_PREFIX +:+ v).
Proof.
  intros He. unfold flac_path. rewrite unescape_app_ext by done.
  destruct (String.prefix _ _) eqn:Hp; [|eauto].
  apply str_prefix_inv in Hp as [w Hw].
  destruct (str_app_prefix_of _ _ LOCALHOST_PREFIX _ "."%char e eq_refl eq_refl Hw)
    as [u' Hu].
  exists u'. split; [|by right]. by rewrite Hu, str_app_assoc, str_drop_app.
Qed.

(** Lines 146-153 and 186 together: the path on disk of a location with
    the extension [.flac] ends in that extension, and its MP3 path is the
    same path with [.mp3] in its place. *)
Lemma mp3_path_beside raw :
  is_flac raw = true →
  ∃ stem ext, flac_path raw = stem +:+ String "." ext
              ∧ PyStr.lower ext = "flac"
              ∧ mp3_path (flac_path raw) = stem +:+ ".mp3".
Proof.
  intros Hflac.
  destruct (is_flac_parts raw Hflac) as (stem & e4 & Hraw & Hlow & Hpc & Hdot & Hs & Hb).
  assert (Hnamed : named_file false stem = true).
  { unfold is_flac in Hflac. apply bool_decide_eq_true in Hflac.
    rewrite Hraw, (splitext_stem _ _ Hdot Hs Hb) in Hflac.
    by destruct (named_file false stem). }
  subst raw. destruct (flac_path_stem stem e4 Hpc) as (v & Hv & Hu).
  assert (Hnamed' : named_file false v = true).
  { rewrite <- Hnamed, <- (named_file_unescape false stem).
    destruct Hu as [->| ->]; [done|]. by rewrite named_file_prefix. }
  exists v, e4. split_and!; [done..|].
  unfold mp3_path. by rewrite Hv, (splitext_stem _ _ Hdot Hs Hb), Hnamed'.
Qed.

(** X12.  The extension test of line 146, spelled out: a location passes
    exactly when it is a stem, a dot and an extension that reads [flac] in
    lower case, where the file name in the stem (what is behind its last
    [/] or [\]) holds a character other than a dot. *)
Theorem extension_test_exact (raw : string) :
  is_flac raw = true
  ↔ ∃ stem ext, raw = stem +:+ String "." ext
                ∧ PyStr.lower ext = "flac"
                ∧ named_file false stem = true.
Proof.
  split.
  - intros Hflac.
    destruct (is_flac_parts raw Hflac) as (stem & e4 & Hraw & Hlow & _ & Hdot & Hs & Hb).
    exists stem, e4. split_and!; [done..|].
    unfold is_flac in Hflac. apply bool_decide_eq_true in Hflac.
    rewrite Hraw, (splitext_stem _ _ Hdot Hs Hb) in Hflac.
    by destruct (named_file false stem).
  - intros (stem & ext & -> & Hlow & Hnamed).
    assert (Hdot : PyStr.contains "." ext = false) by by eapply lower_char_absent.
    assert (Hs : PyStr.contains "/" ext = false) by by eapply lower_char_absent.
    assert (Hb : PyStr.contains backslash ext = false) by by eapply lower_char_absent.
    unfold is_flac. rewrite (splitext_stem _ _ Hdot Hs Hb), Hnamed.
    cbn [snd PyStr.lower]. by rewrite Hlow.
Qed.

Section Beside.

Variable py_int : string → option Z.
Variable isfile : string → bool.

(** X13.  Every job of a completed run converts a file to its neighbour:
    the source ends in an extension that reads [.flac] in lower case, and
    the target is the source with [.mp3] in place of that extension. *)
Theorem targets_beside_sources fuel root root' jobs :
  main py_int isfile fuel root = Some (Done (root', jobs)) →
  ∀ src dst, (src, dst) ∈ jobs →
    ∃ stem ext, src = stem +:+ String "." ext
                ∧ PyStr.lower ext = "flac"
                ∧ dst = stem +:+ ".mp3".
Proof.
  intros [_ Hok]%main_jobs src dst Hin. cbn [res_state snd] in Hok.
  pose proof (proj1 (Forall_forall _ _) Hok _ Hin) as ((raw & Hflac & Hsrc) & _ & Hdst).
  cbn [fst snd] in *. subst src dst. by apply mp3_path_beside.
Qed.

End Beside.

Lemma targets_beside_sources_witness :
  ∃ stem ext, "C:/Music/Deep House/one.flac" = stem +:+ String "." ext
              ∧ PyStr.lower ext = "flac"
              ∧ "C:/Music/Deep House/one.mp3" = stem +:+ ".mp3".
Proof.
  exact (targets_beside_sources PyStr.int_dec disk_all 3 house house_out [house_job]
           house_run "C:/Music/Deep House/one.flac" "C:/Music/Deep House/one.mp3"
           (list_elem_of_here house_job [])).
Defined.

(** ** Playlists that are not named as mirrors *)

Lemma untouched_all_refl pls : Forall2 untouched pls pls.
Proof. induction pls; constructor; [done|done]. Qed.

Lemma named_mirror p M : named (p +:+ "_MP3") M → is_mirror M = true.
Proof. unfold named, is_mirror. intros ->. apply endswith_app. Qed.

Lemma route_step_untouched origId c base i st st1 :
  literal_names base →
  Forall2 (λ M0 M, attrib M = attrib M0 ∧ untouched M0 M) base st.1 →
  route_step origId c i st = Done st1 →
  Forall2 (λ M0 M, attrib M = attrib M0 ∧ untouched M0 M) base st1.1.
Proof.
  intros Hlit Hinv
    [->|(pl & k & keys & pname & tests & j & x & Hi & _ & _ & _ & Hname & Hq & Hfind & ->)]
    %route_step_done; [done|].
  destruct (Forall2_lookup_r _ _ _ _ _ Hinv Hi) as (pl0 & Hpl0 & Hattr & _).
  assert (Hok : ET.literal_ok pname = true).
  { apply (Hlit pl0); [by eapply list_elem_of_lookup_2|]. unfold ET.get in *. by rewrite <- Hattr. }
  rewrite (query_literal _ _ (literal_mirror_name _ Hok)) in Hq. injection Hq as <-.
  rewrite first_single in Hfind. apply find_named in Hfind as [Hj Hx%named_mirror].
  cbn [fst]. apply Forall2_alter_r; [done|]. intros M0 M _ HM [Hattr' Hun].
  rewrite Hj in HM. injection HM as <-. split; [done|]. intros Hplain. exfalso.
  unfold is_mirror, ET.get in *. rewrite Hattr' in Hx. congruence.
Qed.

Section Plain.

Variable py_int : string → option Z.
Variable isfile : string → bool.

Lemma track_step_untouched base t st st' :
  literal_names base →
  Forall2 (λ M0 M, attrib M = attrib M0 ∧ untouched M0 M) base (playlists st) →
  track_step isfile t st = Done st' →
  Forall2 (λ M0 M, attrib M = attrib M0 ∧ untouched M0 M) base (playlists st').
Proof.
  intros Hlit Hinv. unfold track_step.
  destruct (ET.get t "Location") as [raw|]; [|done].
  destruct (negb (is_flac raw)); [by intros [= <-]|].
  destruct (negb (isfile (flac_path raw))); [by intros [= <-]|].
  destruct (route _ _ _) as [[pls b]|e [pls b]] eqn:Hroute; [|done].
  assert (Hpls : Forall2 (λ M0 M, attrib M = attrib M0 ∧ untouched M0 M) base pls).
  { unfold route in Hroute.
    apply (for_each_done_inv
             (λ s, Forall2 (λ M0 M, attrib M = attrib M0 ∧ untouched M0 M) base s.1))
      in Hroute; [done| |done].
    intros j s s1. by apply route_step_untouched. }
  by destruct b; intros [= <-].
Qed.

(** X14.  Where no playlist name holds an apostrophe, a completed run
    leaves every playlist that is not named as a mirror exactly as it was,
    at its place: entries are only ever added to nodes whose name ends in
    [_MP3]. *)
Theorem plain_playlists_unchanged fuel root root' jobs pl :
  root_playlists root = Some pl →
  literal_names (children pl) →
  main py_int isfile fuel root = Some (Done (root', jobs)) →
  ∃ pl',
    root_playlists root' = Some pl'
    ∧ ∀ i M0, children pl !! i = Some M0 → is_mirror M0 = false →
              children pl' !! i = Some M0.
Proof.
  intros Hpl0 Hlit
    (pl1 & coll & entries & n & pls & st & Hpl & _ & _ & _ & Hm & Hloop & _ & _ & Hpl')
    %main_done.
  assert (pl1 = pl) as -> by congruence.
  eexists. split_and!; [exact Hpl'|]. cbn [children].
  intros i M0 Hi Hplain.
  pose proof (mirror_pass_literal _ _ Hm Hlit) as Hlit'.
  apply mirror_pass_done in Hm as (new & -> & _).
  apply track_loop_result in Hloop. symmetry in Hloop.
  apply (for_each_done_inv
           (λ s, Forall2 (λ M0 M, attrib M = attrib M0 ∧ untouched M0 M)
                   (children pl ++ new) (playlists s)))
    in Hloop.
  - destruct (Forall2_lookup_l _ _ _ _ _ Hloop (lookup_app_l_Some _ new _ _ Hi))
      as (M & HM & _ & Hun).
    by rewrite HM, (Hun Hplain).
  - intros t s s1. by apply track_step_untouched.
  - cbn [playlists]. clear. induction (children pl ++ new); constructor; [done|done].
Qed.

End Plain.

Lemma plain_playlists_unchanged_witness :
  ∃ pl',
    root_playlists house_out = Some pl'
    ∧ ∀ i M0, children (root_node [house_playlist]) !! i = Some M0 → is_mirror M0 = false →
              children pl' !! i = Some M0.
Proof.
  exact (plain_playlists_unchanged PyStr.int_dec disk_all 3 house house_out [house_job]
           (root_node [house_playlist]) eq_refl house_names_literal house_run).
Defined.

(** ** New ids against the ids of the input *)

Section Clash.

Variable py_int : string → option Z.
Variable isfile : string → bool.

(** X15.  The new ids start at [Entries + 1] whatever ids the input holds.
    When a track of the input carries the id [Entries + 1] and the run
    converts something, the collection that is written holds that id
    twice: on the track of the input and on the first track added. *)
Theorem new_id_repeats_taken_id fuel root root' jobs coll n t0 :
  root_collection root = Some coll →
  ET.get coll "Entries" ≫= py_int = Some n →
  t0 ∈ children coll → ET.get t0 "TrackID" = Some (PyStr.str (n + 1)) →
  jobs ≠ [] →
  main py_int isfile fuel root = Some (Done (root', jobs)) →
  ∃ coll' t1 i j,
    root_collection root' = Some coll' ∧ i ≠ j
    ∧ children coll' !! i = Some t0 ∧ children coll' !! j = Some t1
    ∧ ET.get t1 "TrackID" = Some (PyStr.str (n + 1)).
Proof.
  intros Hcoll Hn Ht0 Hid Hjobs Hrun.
  apply main_done in Hrun
    as (pl & coll1 & entries & n1 & pls & st & _ & Hcoll1 & He & Hn1 & _ & Hloop & ->
        & Hcoll' & _).
  assert (coll1 = coll) as -> by congruence.
  assert (n1 = n) as ->. { rewrite He in Hn. simpl in Hn. congruence. }
  apply track_loop_result in Hloop. symmetry in Hloop. cbn [collection] in Hloop.
  pose proof (track_pass_match isfile _ (mkState pls (children coll) [] (n + 1)) _
                eq_refl Hloop) as (new & Hnew & Hmatch & _).
  apply track_pass_clones in Hloop as (srcs & _ & _ & Hc & _).
  cbn [collection currId] in *.
  assert (Hsrcs : srcs ≠ []).
  { intros ->. rewrite Hc in Hnew. apply app_inv_head in Hnew. subst new.
    destruct (flacToMp3 st) as [|[src dst] d]; [done|].
    destruct (Hmatch src dst) as [_ (t & Ht%elem_of_nil & _)]; [by left|done]. }
  destruct srcs as [|s srcs]; [done|].
  apply list_elem_of_lookup in Ht0 as [i Hi].
  eexists _, (clone_of s (n + 1)), i, (length (children coll)).
  split_and!; [exact Hcoll'|..]; cbn [children].
  - apply lookup_lt_Some in Hi. lia.
  - rewrite Hc. by apply lookup_app_l_Some.
  - rewrite Hc. cbn [clones]. by apply list_lookup_middle.
  - unfold clone_of, clone_track. by rewrite !get_set.
Qed.

End Clash.

Example clash_run : main PyStr.int_dec disk_all 5 clash = Some (Done (clash_out, [house_job])).
Proof. vm_compute. reflexivity. Qed.

Lemma new_id_repeats_taken_id_witness :
  ∃ coll' t1 i j,
    root_collection clash_out = Some coll' ∧ i ≠ j
    ∧ children coll' !! i = Some other_track ∧ children coll' !! j = Some t1
    ∧ ET.get t1 "TrackID" = Some (PyStr.str (1 + 1)).
Proof.
  exact (new_id_repeats_taken_id PyStr.int_dec disk_all 5 clash clash_out [house_job]
           (collection_node "1" [house_track; other_track]) 1 other_track
           eq_refl eq_refl (list_elem_of_further _ _ _ (list_elem_of_here _ _)) eq_refl
           ltac:(discriminate) clash_run).
Defined.

(** ** The entries of one conversion *)

Section Routing.

Variable isfile : string → bool.

(** X16.  [base] is the section as the track pass found it, with pairwise
    distinct names that hold no apostrophe, and [st] a state the pass has
    reached.  When the track [t] with an id [k] that holds no apostrophe is
    converted under the new id [currId st], the section becomes what the
    specification's routing makes of it (the playlists that hold [k] are
    taken in section order), and a node of the section gains exactly one
    entry for the new id if it is called as a playlist that held [k] with
    the suffix added, and nothing otherwise. *)
Theorem entries_routed_to_mirrors c0 base t k st st' :
  NoDup (playlist_names base) → literal_names base →
  c0 ≤ currId st → Forall2 (grown c0) base (playlists st) →
  ET.get t "TrackID" = Some k → fresh_from c0 k → ET.literal_ok k = true →
  eligible isfile base t = true →
  track_step isfile t st = Done st' →
  collection st' = collection st ++ [clone_of t (currId st)]
  ∧ playlists st' = route_spec k (currId st) base (playlists st)
  ∧ ∀ j M, playlists st !! j = Some M →
      ∃ M', playlists st' !! j = Some M'
        ∧ tag M' = tag M ∧ attrib M' = attrib M
        ∧ ((∃ src p, src ∈ base ∧ has_key k src = true
                     ∧ named p src ∧ named (p +:+ "_MP3") M) →
           children M' = children M ++ [new_entry (currId st)])
        ∧ (¬ (∃ src p, src ∈ base ∧ has_key k src = true
                       ∧ named p src ∧ named (p +:+ "_MP3") M) →
           children M' = children M).
Proof.
  intros Hnd Hlit Hc Hg Hk Hfresh Hkok Hel Hstep.
  apply (track_step_spec isfile c0 base) in Hstep as [_ ->]; [|done|done|done| |].
  2:{ intros k' Hk'. by assert (k' = k) as -> by congruence. }
  2:{ intros k' Hk'. by assert (k' = k) as -> by congruence. }
  rewrite Hel. cbn [collection playlists]. unfold track_id. rewrite Hk. cbn [default].
  split_and!; [done..|]. intros j M HM.
  unfold route_spec. rewrite add_entries_lookup, HM. eexists. split; [done|].
  cbn [tag attrib children]. split_and!; [done..| |].
  - intros (src & p & Hsrc & Hkey & Hp & HpM).
    rewrite count_once; [done|by apply mirror_targets_NoDup|].
    apply list_elem_of_omap. exists src. split; [by apply list_elem_of_filter|].
    destruct (Forall2_lookup_r _ _ _ _ _ Hg HM) as (x & Hx & HgM).
    unfold mirror_index. rewrite Hp. simpl.
    apply (find_unique _ _ _ x); [done..|]. unfold named. by rewrite <- (grown_name _ _ _ _ HgM).
  - intros Hno. rewrite count_absent; [by rewrite app_nil_r|].
    rewrite list_elem_of_omap. intros (src & [Hkey Hsrc]%list_elem_of_filter & Hmi).
    apply mirror_index_named in Hmi as (p & x & Hp & Hx & Hnx).
    destruct (Forall2_lookup_l _ _ _ _ _ Hg Hx) as (M1 & HM1 & HgM).
    assert (M1 = M) as -> by congruence.
    apply Hno. exists src, p. split_and!; [done..|].
    unfold named. by rewrite (grown_name _ _ _ _ HgM).
Qed.

End Routing.

Lemma house_section_literal : literal_names [house_playlist; house_mirror []].
Proof.
  intros pl p [->|[->|[]%elem_of_nil]%elem_of_cons]%elem_of_cons [= <-]; reflexivity.
Qed.

Lemma entries_routed_to_mirrors_witness :
  eligible disk_all [house_playlist; house_mirror []] house_track = true
  ∧ collection house_state_out = collection house_state ++ [clone_of house_track 2]
  ∧ playlists house_state_out
    = route_spec "1" 2 [house_playlist; house_mirror []] (playlists house_state).
Proof.
  split; [reflexivity|].
  destruct (entries_routed_to_mirrors disk_all 2 [house_playlist; house_mirror []]
              house_track "1" house_state house_state_out
              house_names_NoDup house_section_literal (Z.le_refl 2) (grown_all_refl 2 _) eq_refl
              (str_fresh 1 2 eq_refl) eq_refl eq_refl house_track_step) as (Hc & Hp & _).
  exact (conj Hc Hp).
Defined.

(** ** The lookup of a mirror *)

(** X17.  [cur] is a section with the names that the mirror pass left,
    none of which holds an apostrophe.  For a playlist of it that is not
    named as a mirror and holds an id without apostrophe, the lookup of
    line 177 finds a node, and the turn appends the entry to it.  Over the
    whole loop of line 164: when every playlist that holds the id is such
    a playlist and the id is not the text of an id being handed out, the
    loop completes. *)
Theorem mirror_lookup_succeeds pls0 pls1 cur :
  build_mirrors pls0 = Done pls1 →
  playlist_names cur = playlist_names pls1 →
  literal_names cur →
  (∀ i pl k c b,
     cur !! i = Some pl → has_key k pl = true → is_mirror pl = false →
     ET.literal_ok k = true →
     ∃ pname j M,
       ET.get pl "Name" = Some pname
       ∧ ET.find "Name" (pname +:+ "_MP3") cur = Some (j, M)
       ∧ route_step (Some k) c i (cur, b) = Done (add_entry c j cur, true))
  ∧ (∀ k c,
       fresh_from c k → ET.literal_ok k = true →
       (∀ pl, pl ∈ cur → has_key k pl = true → is_mirror pl = false) →
       ∃ r, route (Some k) c cur = Done r).
Proof.
  intros Hm Hnames Hlit.
  assert (Hlookup : ∀ pl pname,
            pl ∈ cur → ET.get pl "Name" = Some pname → PyStr.endswith pname "_MP3" = false →
            is_Some (ET.find "Name" (pname +:+ "_MP3") cur)).
  { intros pl pname Hpl Hname Hend. apply find_is_Some. rewrite Hnames.
    apply (mirror_pass_closed _ _ _ Hm); [|done].
    rewrite <- Hnames, <- Hname. by apply name_in_names. }
  assert (Hsome : ∀ pl, pl ∈ cur → is_Some (ET.get pl "Name")).
  { intros pl Hpl.
    assert (Hin : ET.get pl "Name" ∈ playlist_names pls1).
    { rewrite <- Hnames. by apply name_in_names. }
    apply mirror_pass_done in Hm as (new & -> & Hnew & _ & Hs).
    rewrite playlist_names_app, Hnew in Hin. apply elem_of_app in Hin as [Hin|Hin].
    - by apply (proj1 (Forall_forall _ _) Hs) in Hin.
    - apply list_elem_of_fmap in Hin as (? & -> & _). by eexists. }
  split.
  - intros i pl k c b Hi Hkey Hmir Hk.
    pose proof (list_elem_of_lookup_2 _ _ _ Hi) as Hpl.
    destruct (Hsome pl Hpl) as [pname Hname].
    unfold is_mirror in Hmir. rewrite Hname in Hmir.
    destruct (Hlookup pl pname Hpl Hname Hmir) as [[j M] Hfind].
    exists pname, j, M. split_and!; [done..|].
    unfold route_step. cbn [fst]. rewrite Hi, (query_literal _ _ Hk), select_single.
    unfold has_key in Hkey. destruct (ET.findall "Key" k (children pl)); [done|].
    rewrite Hname, (query_literal _ _ (literal_mirror_name _ (Hlit pl pname Hpl Hname))).
    by rewrite first_single, Hfind.
  - intros k c Hfresh Hk Hnon.
    apply (route_completes c c k cur cur); [lia|done|done|apply grown_all_refl| | |done].
    + intros pl Hpl. destruct (Hsome pl Hpl) as [p Hp]. exists p. split; [done|].
      by apply (Hlit pl).
    + intros p Hp Hend. rewrite Hnames in *. by apply (mirror_pass_closed _ _ _ Hm).
Qed.

Lemma mirror_lookup_succeeds_witness :
  build_mirrors [house_playlist] = Done [house_playlist; house_mirror []]
  ∧ ∃ pname j M,
      ET.get house_playlist "Name" = Some pname
      ∧ ET.find "Name" (pname +:+ "_MP3") [house_playlist; house_mirror []] = Some (j, M)
      ∧ route_step (Some "1") 2 0 ([house_playlist; house_mirror []], false)
        = Done (add_entry 2 j [house_playlist; house_mirror []], true).
Proof.
  split; [exact house_mirrors|].
  exact (proj1 (mirror_lookup_succeeds [house_playlist] [house_playlist; house_mirror []]
                  [house_playlist; house_mirror []] house_mirrors eq_refl
                  house_section_literal)
           0%nat house_playlist "1" 2 false eq_refl eq_refl eq_refl eq_refl).
Defined.
